(** * Shuguri: a shallow embedding of the API services and their properties

    The first part of the file follows the TypeScript sources of the API,
    one module per source file:
    - [RateLimit]: the per-IP counters of the compile routes;
    - [Diff]: the upgrade path, the category merger and the diff route;
    - [Chunker]: the text chunker;
    - [JobManager]: the in-memory upload jobs;
    - [Processor]: batch ingestion;
    - [Generator]: the document generator and its response cache;
    - [Regex]: regular expressions, as the backtracking matcher runs them;
    - [Judge0]: the parser of compiler output;
    - [Validation]: the code validator of the compiler service;
    - [Wandbox] and [Judge0Provider]: the two compiler providers;
    - [Upload]: the processing of the files of an upload job.
    The second part states and proves their properties, one module of
    properties per module of definitions.

    JavaScript strings that are only compared, concatenated or used as keys
    are [string]; strings that are sliced, searched or matched are lists of
    UTF-16 code units ([list N]), so that [length] is the JavaScript
    [length]. A number read from a numeral is a [Number]: the integer
    rounded to a double, or infinite. Times are milliseconds since the
    epoch, as [Date.now()] gives them, in [Z]. Mutable module state (a
    [Map], a table, a service) is passed in and returned. *)

From stdpp Require Import gmap strings list fin_maps pretty.
From Stdlib Require Import ZArith Lia QArith Qround Ascii Sorted.
From Equations Require Import Equations.

#[local] Open Scope Z_scope.
#[local] Set Warnings "-clear-no-such-hyp".

(* ===================================================================== *)
(** ** What a call can do *)
(* ===================================================================== *)

(** A call returns a value, throws an [Error] with a message, or (in the model
    only) does not finish within the fuel given to one of its loops. *)
Inductive outcome (A : Type) : Type :=
  | Returned (a : A)
  | Thrown (message : string)
  | OutOfFuel.
Arguments Returned {A} a.
Arguments Thrown {A} message.
Arguments OutOfFuel {A}.

Definition throws {A : Type} (o : outcome A) : bool :=
  match o with Thrown _ => true | _ => false end.

(** [Array.prototype.indexOf] with strict equality: the first index, or -1. *)
Fixpoint indexOfFrom {A : Type} `{EqDecision A} (l : list A) (x : A) (i : Z) : Z :=
  match l with
  | [] => -1
  | y :: rest => if decide (y = x) then i else indexOfFrom rest x (i + 1)
  end.

Definition indexOf {A : Type} `{EqDecision A} (l : list A) (x : A) : Z :=
  indexOfFrom l x 0.

(** A parsed JSON value. Numbers are kept as integers: no schema of the
    routes modelled here accepts a number. An object keeps its members in
    the order of the text; [jsonField] reads the last member with the given
    name, the one [JSON.parse] keeps. *)
#[local] Set Warnings "-register-all".
Inductive json : Type :=
  | JNull
  | JBool (b : bool)
  | JNum (n : Z)
  | JStr (s : string)
  | JArr (items : list json)
  | JObj (members : list (string * json)).

Definition jsonField (members : list (string * json)) (name : string)
    : option json :=
  snd <$> List.find (fun kv => bool_decide (fst kv = name)) (rev members).

(* ===================================================================== *)
(** ** JavaScript numbers read from numerals *)
(* ===================================================================== *)

Module JsNumber.

(** A Number whose value is an integer or infinite. NaN is the absence of
    a Number; the sign of zero is not kept, which nothing that is done to
    these numbers here can tell. *)
Inductive Number : Type :=
  | Finite (value : Z)
  | Infinite (negative : bool).

#[global] Instance Number_eq_dec : EqDecision Number.
Proof. solve_decision. Defined.

Coercion Finite : Z >-> Number.

(** The Number value for an integer: the integer itself when its binary
    numeral has at most 53 digits, and otherwise the nearest multiple of
    the power of two that leaves 53 digits, the even one of two that are
    equally near; infinite when that is 2^1024 or more. *)
Definition roundToDouble (n : Z) : Number :=
  let a := Z.abs n in
  let excess := Z.log2 a - 52 in
  if excess <=? 0 then Finite n
  else
    let q := Z.shiftr a excess in
    let r := a - Z.shiftl q excess in
    let half := Z.shiftl 1 (excess - 1) in
    let q' := if (half <? r) || ((r =? half) && Z.odd q) then q + 1 else q in
    let v := Z.shiftl q' excess in
    if 2 ^ 1024 <=? v then Infinite (n <? 0) else Finite (Z.sgn n * v).

End JsNumber.

(* ===================================================================== *)
(** ** JavaScript strings that are sliced and searched *)
(* ===================================================================== *)

Module JsString.

(** A string as the sequence of its UTF-16 code units. *)
Abbreviation jsstring := (list N).

(** The code units of a literal (which has Latin-1 characters only). *)
Definition lit (s : string) : jsstring :=
  List.map N_of_ascii (String.list_ascii_of_string s).

(** [String.prototype.slice(start, end)]: a negative index counts from the
    end, both are clamped to the string, an empty range gives the empty
    string. *)
Definition sliceBound (len i : Z) : Z :=
  if i <? 0 then Z.max (len + i) 0 else Z.min i len.

Definition slice {A : Type} (s : list A) (start end_ : Z) : list A :=
  let len := Z.of_nat (length s) in
  let from := sliceBound len start in
  let to := sliceBound len end_ in
  firstn (Z.to_nat (to - from)) (skipn (Z.to_nat from) s).

Fixpoint startsWith (s pattern : jsstring) : bool :=
  match pattern, s with
  | [], _ => true
  | _ :: _, [] => false
  | p :: pattern', c :: s' => (p =? c)%N && startsWith s' pattern'
  end.

(** [s.lastIndexOf(pattern)]: the greatest index at which [pattern] occurs
    in [s], or -1. [i] is the index of the head of [s], [found] the
    greatest occurrence before it. *)
Fixpoint lastIndexOfFrom (s pattern : jsstring) (i found : Z) : Z :=
  let found' := if startsWith s pattern then i else found in
  match s with
  | [] => found'
  | _ :: rest => lastIndexOfFrom rest pattern (i + 1) found'
  end.

Definition lastIndexOf (s pattern : jsstring) : Z :=
  lastIndexOfFrom s pattern 0 (-1).

(** [s.includes(pattern)]. *)
Fixpoint includes (s pattern : jsstring) : bool :=
  startsWith s pattern ||
  match s with
  | [] => false
  | _ :: rest => includes rest pattern
  end.

(** The code units [trim] strips and [\s] matches: WhiteSpace and
    LineTerminator of ECMAScript. *)
Definition isWhiteSpace (c : N) : bool :=
  ((9 <=? c) && (c <=? 13) || (c =? 32) || (c =? 160) || (c =? 5760)
   || (8192 <=? c) && (c <=? 8202) || (c =? 8232) || (c =? 8233)
   || (c =? 8239) || (c =? 8287) || (c =? 12288) || (c =? 65279))%N.

Fixpoint trimStart (s : jsstring) : jsstring :=
  match s with
  | c :: rest => if isWhiteSpace c then trimStart rest else s
  | [] => []
  end.

Definition trimEnd (s : jsstring) : jsstring := rev (trimStart (rev s)).

Definition trim (s : jsstring) : jsstring := trimEnd (trimStart s).

(** An index [lastIndexOf] can give: -1, or the start of an occurrence. *)
Definition foundWithin (pattern : jsstring) (limit r : Z) : Prop :=
  r = -1 \/ (0 <= r /\ r + Z.of_nat (length pattern) <= limit).

End JsString.

(* ===================================================================== *)
(** ** Rate limiting of the compile and execute routes *)
(* ===================================================================== *)

Module RateLimit.

(** The value type of [requestCounts]. *)
Record RateRecord : Type := mkRate { count : nat; resetAt : Z }.

Definition RATE_LIMIT : nat := 10.
Definition RATE_WINDOW : Z := 60000.

(** [checkRateLimit ip]: [now] is the value [Date.now()] returns in the call,
    the map is [requestCounts] before and after. [record.count++] mutates the
    record held by the map, which is an insert at [ip] here. *)
Definition checkRateLimit (ip : string) (now : Z)
    (requestCounts : gmap string RateRecord) : gmap string RateRecord * bool :=
  match requestCounts !! ip with
  | None =>
      (<[ip := mkRate 1 (now + RATE_WINDOW)]> requestCounts, true)
  | Some record =>
      if resetAt record <? now then
        (<[ip := mkRate 1 (now + RATE_WINDOW)]> requestCounts, true)
      else if (RATE_LIMIT <=? count record)%nat then
        (requestCounts, false)
      else
        (<[ip := mkRate (S (count record)) (resetAt record)]> requestCounts, true)
  end.

(** Successive calls for one address, at the given times. *)
Fixpoint runCalls (ip : string) (times : list Z)
    (requestCounts : gmap string RateRecord) : gmap string RateRecord * list bool :=
  match times with
  | [] => (requestCounts, [])
  | now :: rest =>
      let '(m1, ok) := checkRateLimit ip now requestCounts in
      let '(m2, oks) := runCalls ip rest m1 in
      (m2, ok :: oks)
  end.

(** [c.req.header('x-forwarded-for') || c.req.header('x-real-ip') || 'unknown']:
    a header that is absent or empty is falsy. *)
Definition truthyHeader (h : option string) : option string :=
  match h with
  | Some s => if decide (s = "") then None else Some s
  | None => None
  end.

Definition clientIp (xForwardedFor xRealIp : option string) : string :=
  match truthyHeader xForwardedFor with
  | Some s => s
  | None => match truthyHeader xRealIp with
            | Some s => s
            | None => "unknown"
            end
  end.

(** The first statement of both [compileRouter.post('/')] and
    [compileRouter.post('/execute')]: answer 429 when the check fails,
    otherwise go on with the rest of the handler, whose status is [rest]. *)
Definition rateLimitedPost (xForwardedFor xRealIp : option string) (now : Z)
    (rest : Z) (requestCounts : gmap string RateRecord)
    : gmap string RateRecord * Z :=
  let ip := clientIp xForwardedFor xRealIp in
  let '(m, ok) := checkRateLimit ip now requestCounts in
  if negb ok then (m, 429) else (m, rest).

(** A call opens a fresh window when the address has no record or its record's
    [resetAt] is strictly before [now]. *)
Definition opensWindow (ip : string) (now : Z)
    (requestCounts : gmap string RateRecord) : Prop :=
  match requestCounts !! ip with
  | None => True
  | Some record => resetAt record < now
  end.

(** *** Calls of several addresses *)

(** Calls of any addresses at any times, in the order they are made, and the
    answers they get. *)
Fixpoint runTrace (calls : list (string * Z))
    (requestCounts : gmap string RateRecord) : gmap string RateRecord * list bool :=
  match calls with
  | [] => (requestCounts, [])
  | (ip, now) :: rest =>
      let '(m1, ok) := checkRateLimit ip now requestCounts in
      let '(m2, oks) := runTrace rest m1 in
      (m2, ok :: oks)
  end.

(** The times of the calls one address makes in a trace, and the answers
    given to it. *)
Definition timesOf (ip : string) (calls : list (string * Z)) : list Z :=
  snd <$> List.filter (fun call => bool_decide (fst call = ip)) calls.

Fixpoint answersTo (ip : string) (calls : list (string * Z)) (answers : list bool)
    : list bool :=
  match calls, answers with
  | (ip', _) :: calls', ok :: answers' =>
      if decide (ip' = ip) then ok :: answersTo ip calls' answers'
      else answersTo ip calls' answers'
  | _, _ => []
  end.

(** Every record counts between one and [RATE_LIMIT] requests. *)
Definition countsBounded (requestCounts : gmap string RateRecord) : Prop :=
  map_Forall (fun _ record => (1 <= count record <= RATE_LIMIT)%nat) requestCounts.

End RateLimit.

(* ===================================================================== *)
(** ** The diff analyzer and the diff route *)
(* ===================================================================== *)

Module Diff.

Inductive CppVersionId : Type :=
  cpp98 | cpp03 | cpp11 | cpp14 | cpp17 | cpp20 | cpp23 | cpp26.

#[global] Instance CppVersionId_eq_dec : EqDecision CppVersionId.
Proof. solve_decision. Defined.

(** The string a version id is at run time. *)
Definition versionName (v : CppVersionId) : string :=
  match v with
  | cpp98 => "cpp98" | cpp03 => "cpp03" | cpp11 => "cpp11" | cpp14 => "cpp14"
  | cpp17 => "cpp17" | cpp20 => "cpp20" | cpp23 => "cpp23" | cpp26 => "cpp26"
  end.

Inductive ItemCategory : Type := language | library | compiler.
Inductive ItemImpact : Type := compile_time | runtime | ub | memory_model.

Record DiffExample : Type := mkExample {
  before : string; after : string; explanation : string }.

Record DiffItem : Type := mkItem {
  id : string;
  title : string;
  description : string;
  category : ItemCategory;
  impact : ItemImpact;
  examples : option (list DiffExample);
  references : option (list string) }.

Record DiffCategory : Type := mkCategory {
  newFeatures : list DiffItem;
  behaviorChanges : list DiffItem;
  deprecated : list DiffItem;
  removed : list DiffItem;
  libraryChanges : list DiffItem }.

(** A parsed diff file. The file is cast to [StoredDiffData] without a check,
    and [analyzeDiff] reads every array with [|| []]: an array may be absent. *)
Record StoredDiffData : Type := mkStored {
  sourceVersion : CppVersionId;
  targetVersion : CppVersionId;
  storedNewFeatures : option (list DiffItem);
  storedBehaviorChanges : option (list DiffItem);
  storedDeprecated : option (list DiffItem);
  storedRemoved : option (list DiffItem);
  storedLibraryChanges : option (list DiffItem) }.

(** [keyof DiffCategory], the element type of [filterCategories]' filter. *)
Inductive CategoryKey : Type :=
  KNewFeatures | KBehaviorChanges | KDeprecated | KRemoved | KLibraryChanges.

#[global] Instance CategoryKey_eq_dec : EqDecision CategoryKey.
Proof. solve_decision. Defined.

(** The element type of [DiffAnalysisRequest.categories]: no ['removed']. *)
Inductive RequestCategory : Type :=
  RNewFeatures | RBehaviorChanges | RDeprecated | RLibraryChanges.

Definition requestKey (c : RequestCategory) : CategoryKey :=
  match c with
  | RNewFeatures => KNewFeatures
  | RBehaviorChanges => KBehaviorChanges
  | RDeprecated => KDeprecated
  | RLibraryChanges => KLibraryChanges
  end.

Record DiffAnalysisRequest : Type := mkRequest {
  reqSource : CppVersionId;
  reqTarget : CppVersionId;
  reqCategories : option (list RequestCategory) }.

Record DiffAnalysisResult : Type := mkResult {
  source : CppVersionId;
  target : CppVersionId;
  diff : DiffCategory;
  summary : string;
  totalChanges : nat }.

Definition getDiffKey (source target : CppVersionId) : string :=
  versionName source +:+ "-" +:+ versionName target.

(** What [JSON.parse] gives for a diff file, which is cast to
    [StoredDiffData] without a check: the data, or [None] for [null] (or
    another value that is falsy, which [analyzeDiff] skips in the same
    way). *)
Abbreviation ParsedFile := (option StoredDiffData).

(** [loadDiffData]. [readDiffFile key] stands for reading and parsing
    [data/diffs/<key>.json]; it is [None] when [readFile] or [JSON.parse]
    throws. The map is [diffDataCache]: whatever was parsed is stored in it,
    [null] too, and a key the map has is not read again. The result is what
    the function returns, [None] for [null]. *)
Definition loadDiffData (readDiffFile : string -> option ParsedFile)
    (source target : CppVersionId) (diffDataCache : gmap string ParsedFile)
    : gmap string ParsedFile * option StoredDiffData :=
  let key := getDiffKey source target in
  match diffDataCache !! key with
  | Some data => (diffDataCache, data)
  | None =>
      match readDiffFile key with
      | Some data => (<[key := data]> diffDataCache, data)
      | None => (diffDataCache, None)
      end
  end.

Definition getVersionPairs : list (CppVersionId * CppVersionId) :=
  [(cpp11, cpp14); (cpp14, cpp17)].

Definition versionOrder : list CppVersionId :=
  [cpp98; cpp03; cpp11; cpp14; cpp17; cpp20; cpp23].

(** The [while (current !== target)] loop of [getUpgradePath]; one unit of
    fuel per iteration. *)
Fixpoint upgradeLoop (fuel : nat) (pairs : list (CppVersionId * CppVersionId))
    (target current : CppVersionId) (path : list (CppVersionId * CppVersionId))
    : option (list (CppVersionId * CppVersionId)) :=
  if decide (current = target) then Some path else
  match fuel with
  | O => None
  | S fuel' =>
      match List.find (fun p => bool_decide (fst p = current)) pairs with
      | None => Some path
      | Some nextPair =>
          let path' := path ++ [nextPair] in
          let current' := snd nextPair in
          if decide (current' = target) then Some path'
          else upgradeLoop fuel' pairs target current' path'
      end
  end.

(** [getUpgradePath]; [None] when the loop does not finish in as many
    iterations as there are versions in [versionOrder]. *)
Definition getUpgradePath (source target : CppVersionId)
    : option (list (CppVersionId * CppVersionId)) :=
  let sourceIndex := indexOf versionOrder source in
  let targetIndex := indexOf versionOrder target in
  if (sourceIndex =? -1) || (targetIndex =? -1) || (sourceIndex >=? targetIndex)
  then Some []
  else upgradeLoop (length versionOrder) getVersionPairs target source [].

Definition emptyCategory : DiffCategory := mkCategory [] [] [] [] [].

(** [mergeDiffCategories]: each [push(...cat.x)] appends to the merged array. *)
Definition mergeDiffCategories (categories : list DiffCategory) : DiffCategory :=
  foldl (fun merged cat =>
           mkCategory (newFeatures merged ++ newFeatures cat)
                      (behaviorChanges merged ++ behaviorChanges cat)
                      (deprecated merged ++ deprecated cat)
                      (removed merged ++ removed cat)
                      (libraryChanges merged ++ libraryChanges cat))
        emptyCategory categories.

Definition includes (filter : list CategoryKey) (k : CategoryKey) : bool :=
  bool_decide (k ∈ filter).

Definition filterCategories (diff : DiffCategory)
    (filter : option (list CategoryKey)) : DiffCategory :=
  match filter with
  | None => diff
  | Some [] => diff
  | Some filter =>
      mkCategory
        (if includes filter KNewFeatures then newFeatures diff else [])
        (if includes filter KBehaviorChanges then behaviorChanges diff else [])
        (if includes filter KDeprecated then deprecated diff else [])
        (if includes filter KRemoved then removed diff else [])
        (if includes filter KLibraryChanges then libraryChanges diff else [])
  end.

Definition countChanges (diff : DiffCategory) : nat :=
  (length (newFeatures diff) + length (behaviorChanges diff) +
   length (deprecated diff) + length (removed diff) +
   length (libraryChanges diff))%nat.

(** [source.replace('cpp', 'C++')] on a version id. *)
Definition versionLabel (v : CppVersionId) : string :=
  match v with
  | cpp98 => "C++98" | cpp03 => "C++03" | cpp11 => "C++11" | cpp14 => "C++14"
  | cpp17 => "C++17" | cpp20 => "C++20" | cpp23 => "C++23" | cpp26 => "C++26"
  end.

Definition joinWith (sep : string) (parts : list string) : string :=
  match parts with
  | [] => ""
  | p :: rest => foldl (fun acc q => acc +:+ sep +:+ q) p rest
  end.

Definition summaryPart (n : nat) (label : string) : list string :=
  if (0 <? n)%nat then [pretty n +:+ label] else [].

Definition generateSummary (source target : CppVersionId) (diff : DiffCategory)
    : string :=
  let total := countChanges diff in
  let parts :=
    summaryPart (length (newFeatures diff)) " new features" ++
    summaryPart (length (behaviorChanges diff)) " behavior changes" ++
    summaryPart (length (deprecated diff)) " deprecated items" ++
    summaryPart (length (removed diff)) " removed items" ++
    summaryPart (length (libraryChanges diff)) " library changes" in
  "Upgrading from " +:+ versionLabel source +:+ " to " +:+ versionLabel target
  +:+ ": " +:+ pretty total +:+ " total changes including "
  +:+ joinWith ", " parts +:+ ".".

(** The category record [analyzeDiff] builds from one loaded file. *)
Definition categoriesOf (data : StoredDiffData) : DiffCategory :=
  mkCategory (default [] (storedNewFeatures data))
             (default [] (storedBehaviorChanges data))
             (default [] (storedDeprecated data))
             (default [] (storedRemoved data))
             (default [] (storedLibraryChanges data)).

(** The [for (const [src, tgt] of path)] loop of [analyzeDiff]: the cache is
    threaded through the loads, a load that returns [null] is skipped. *)
Fixpoint loadAlongPath (readDiffFile : string -> option ParsedFile)
    (path : list (CppVersionId * CppVersionId))
    (diffDataCache : gmap string ParsedFile)
    (allCategories : list DiffCategory)
    : gmap string ParsedFile * list DiffCategory :=
  match path with
  | [] => (diffDataCache, allCategories)
  | (src, tgt) :: rest =>
      let '(cache', data) := loadDiffData readDiffFile src tgt diffDataCache in
      match data with
      | Some data =>
          loadAlongPath readDiffFile rest cache' (allCategories ++ [categoriesOf data])
      | None => loadAlongPath readDiffFile rest cache' allCategories
      end
  end.

Definition analyzeDiff (readDiffFile : string -> option ParsedFile)
    (request : DiffAnalysisRequest) (diffDataCache : gmap string ParsedFile)
    : gmap string ParsedFile * outcome DiffAnalysisResult :=
  let sourceVersion := reqSource request in
  let targetVersion := reqTarget request in
  let filterCats := reqCategories request in
  match getUpgradePath sourceVersion targetVersion with
  | None => (diffDataCache, OutOfFuel)
  | Some [] =>
      (diffDataCache,
       Thrown ("No upgrade path found from " +:+ versionName sourceVersion
               +:+ " to " +:+ versionName targetVersion))
  | Some path =>
      let '(cache', allCategories) :=
        loadAlongPath readDiffFile path diffDataCache [] in
      let mergedDiff := mergeDiffCategories allCategories in
      let mergedDiff := filterCategories mergedDiff (List.map requestKey <$> filterCats) in
      let totalChanges := countChanges mergedDiff in
      (cache',
       Returned (mkResult sourceVersion targetVersion mergedDiff
                   (generateSummary sourceVersion targetVersion mergedDiff)
                   totalChanges))
  end.

(** *** The route [POST /api/diff] *)

(** [z.enum([...])] of the seven versions of the request schema. *)
Definition parseVersionEnum (j : json) : option CppVersionId :=
  match j with
  | JStr s => List.find (fun v => bool_decide (versionName v = s)) versionOrder
  | _ => None
  end.

Definition parseCategoryEnum (j : json) : option RequestCategory :=
  match j with
  | JStr s =>
      if decide (s = "newFeatures") then Some RNewFeatures
      else if decide (s = "behaviorChanges") then Some RBehaviorChanges
      else if decide (s = "deprecated") then Some RDeprecated
      else if decide (s = "libraryChanges") then Some RLibraryChanges
      else None
  | _ => None
  end.

(** [diffRequestSchema.safeParse(body)]: [None] when [parsed.success] is
    false, otherwise [parsed.data]. *)
Definition safeParse (body : json) : option DiffAnalysisRequest :=
  match body with
  | JObj members =>
      sourceVersion ← jsonField members "sourceVersion" ≫= parseVersionEnum;
      targetVersion ← jsonField members "targetVersion" ≫= parseVersionEnum;
      categories ←
        match jsonField members "categories" with
        | None => Some None
        | Some (JArr items) => Some <$> mapM parseCategoryEnum items
        | Some _ => None
        end;
      Some (mkRequest sourceVersion targetVersion categories)
  | _ => None
  end.

(** What the handler did: the status of its response and the requests it
    passed to [analyzeDiff]; [Unfinished] when [analyzeDiff] ran out of fuel. *)
Inductive handled : Type :=
  | Responded (status : Z) (analyzed : list DiffAnalysisRequest)
  | Unfinished.

(** [diffRouter.post('/')]. The body is [None] when [c.req.json()] throws,
    which the handler's [catch] turns into a 500. *)
Definition diffPost (readDiffFile : string -> option ParsedFile)
    (body : option json) (diffDataCache : gmap string ParsedFile)
    : gmap string ParsedFile * handled :=
  match body with
  | None => (diffDataCache, Responded 500 [])
  | Some body =>
      match safeParse body with
      | None => (diffDataCache, Responded 400 [])
      | Some data =>
          let sourceIndex := indexOf versionOrder (reqSource data) in
          let targetIndex := indexOf versionOrder (reqTarget data) in
          if sourceIndex >=? targetIndex then (diffDataCache, Responded 400 [])
          else
            let '(cache', result) := analyzeDiff readDiffFile data diffDataCache in
            match result with
            | Returned _ => (cache', Responded 200 [data])
            | Thrown _ => (cache', Responded 500 [data])
            | OutOfFuel => (cache', Unfinished)
            end
      end
  end.

(** *** Vocabulary of the statements *)

(** The position of a version in the order cpp98 < cpp03 < ... < cpp23;
    cpp26 is not in the order. *)
Definition versionRank (v : CppVersionId) : option nat :=
  match v with
  | cpp98 => Some 0%nat | cpp03 => Some 1%nat | cpp11 => Some 2%nat
  | cpp14 => Some 3%nat | cpp17 => Some 4%nat | cpp20 => Some 5%nat
  | cpp23 => Some 6%nat | cpp26 => None
  end.

Definition strictlyPrecedes (s t : CppVersionId) : Prop :=
  match versionRank s, versionRank t with
  | Some i, Some j => (i < j)%nat
  | _, _ => False
  end.

Definition noPairStartsAt (s : CppVersionId) : Prop :=
  Forall (fun p : CppVersionId * CppVersionId => fst p <> s) getVersionPairs.

(** The files loaded for the steps of a path, in path order (a step whose
    file cannot be loaded, or holds [null], contributes nothing). *)
Fixpoint loadedData (readDiffFile : string -> option ParsedFile)
    (path : list (CppVersionId * CppVersionId))
    (diffDataCache : gmap string ParsedFile) : list StoredDiffData :=
  match path with
  | [] => []
  | (src, tgt) :: rest =>
      let '(cache', data) := loadDiffData readDiffFile src tgt diffDataCache in
      match data with
      | Some data => data :: loadedData readDiffFile rest cache'
      | None => loadedData readDiffFile rest cache'
      end
  end.

(** A cache that holds, for each key, what the file of that key holds. *)
Definition cacheCoherent (readDiffFile : string -> option ParsedFile)
    (diffDataCache : gmap string ParsedFile) : Prop :=
  forall key data, diffDataCache !! key = Some data -> readDiffFile key = Some data.

(** The array of category [k] in a loaded file and in a result. *)
Definition storedArray (k : CategoryKey) (data : StoredDiffData) : list DiffItem :=
  default [] match k with
             | KNewFeatures => storedNewFeatures data
             | KBehaviorChanges => storedBehaviorChanges data
             | KDeprecated => storedDeprecated data
             | KRemoved => storedRemoved data
             | KLibraryChanges => storedLibraryChanges data
             end.

Definition categoryArray (k : CategoryKey) (c : DiffCategory) : list DiffItem :=
  match k with
  | KNewFeatures => newFeatures c
  | KBehaviorChanges => behaviorChanges c
  | KDeprecated => deprecated c
  | KRemoved => removed c
  | KLibraryChanges => libraryChanges c
  end.

(** The concatenation, in path order, of category [k] over the loaded steps. *)
Definition stepsConcat (k : CategoryKey)
    (readDiffFile : string -> option ParsedFile)
    (path : list (CppVersionId * CppVersionId))
    (diffDataCache : gmap string ParsedFile) : list DiffItem :=
  concat (List.map (storedArray k) (loadedData readDiffFile path diffDataCache)).

(** Whether a request's filter keeps category [k]: an absent or empty filter
    keeps every category. *)
Definition keeps (filter : option (list RequestCategory)) (k : CategoryKey) : bool :=
  match filter with
  | None | Some [] => true
  | Some cats => bool_decide (k ∈ List.map requestKey cats)
  end.

(** *** Sample data *)

(** One item, a file for the step cpp11-cpp14 that lists it as a behavior
    change, and the file system that holds only this file. *)
Definition sampleItem : DiffItem :=
  mkItem "constexpr-relaxed" "Relaxed constexpr" "Loops in constexpr functions"
         language compile_time None None.

Definition sampleFile : StoredDiffData :=
  mkStored cpp11 cpp14 (Some []) (Some [sampleItem]) None None (Some []).

Definition sampleFiles (key : string) : option ParsedFile :=
  if decide (key = "cpp11-cpp14") then Some (Some sampleFile) else None.

#[global] Instance strictlyPrecedes_dec s t : Decision (strictlyPrecedes s t).
Proof.
  unfold strictlyPrecedes.
  destruct (versionRank s), (versionRank t); apply _.
Defined.

#[global] Instance noPairStartsAt_dec s : Decision (noPairStartsAt s).
Proof. unfold noPairStartsAt. apply _. Defined.

(** *** The other routes of the diff router *)

(** [getAvailableDiffPairs], the data of [GET /api/diff/pairs]. *)
Definition getAvailableDiffPairs : list (CppVersionId * CppVersionId) :=
  List.map (fun pair => (fst pair, snd pair)) getVersionPairs.

(** The version id a string is, for a string of [validVersions] (the seven
    versions of [versionOrder]). *)
Definition validVersion (name : string) : option CppVersionId :=
  List.find (fun v => bool_decide (versionName v = name)) versionOrder.

(** [diffRouter.get('/:source/:target')]: the two path parameters are
    checked against [validVersions] and passed on without a filter. *)
Definition diffGet (readDiffFile : string -> option ParsedFile)
    (source target : string) (diffDataCache : gmap string ParsedFile)
    : gmap string ParsedFile * handled :=
  match validVersion source, validVersion target with
  | Some sourceVersion, Some targetVersion =>
      let request := mkRequest sourceVersion targetVersion None in
      let '(cache', result) := analyzeDiff readDiffFile request diffDataCache in
      match result with
      | Returned _ => (cache', Responded 200 [request])
      | Thrown _ => (cache', Responded 500 [request])
      | OutOfFuel => (cache', Unfinished)
      end
  | _, _ => (diffDataCache, Responded 400 [])
  end.

(** The body of a [POST /api/diff] for two versions and no filter. *)
Definition postBody (source target : CppVersionId) : json :=
  JObj [("sourceVersion", JStr (versionName source));
        ("targetVersion", JStr (versionName target))].

(** *** Vocabulary of the statements on paths *)

(** A path whose first step starts at [start] and whose every step starts
    where the step before it ends. *)
Fixpoint chainFrom (start : CppVersionId) (path : list (CppVersionId * CppVersionId))
    : Prop :=
  match path with
  | [] => True
  | step :: rest => fst step = start /\ chainFrom (snd step) rest
  end.

(** Where a path that starts at [start] ends. *)
Fixpoint pathEnd (start : CppVersionId) (path : list (CppVersionId * CppVersionId))
    : CppVersionId :=
  match path with
  | [] => start
  | step :: rest => pathEnd (snd step) rest
  end.

(** The number of items of a loaded file, over its five categories. *)
Definition storedCount (data : StoredDiffData) : nat :=
  countChanges (categoriesOf data).

End Diff.

(* ===================================================================== *)
(** ** The text chunker *)
(* ===================================================================== *)

Module Chunker.
Import JsString.

Definition DEFAULT_MAX_TOKENS : Z := 500.
Definition DEFAULT_OVERLAP_TOKENS : Z := 50.
Definition CHARS_PER_TOKEN : Z := 4.

(** [ChunkingOptions]; the numbers are taken to be integers. *)
Record ChunkingOptions : Type := mkOptions {
  maxTokens : option Z;
  overlapTokens : option Z }.

Definition defaultOptions : ChunkingOptions := mkOptions None None.

(** The break point search of one iteration: the end index of the chunk that
    starts at [startIndex]. *)
Definition findEndIndex (text : jsstring) (maxChars startIndex : Z) : Z :=
  let endIndex := startIndex + maxChars in
  if endIndex <? Z.of_nat (length text) then
    let searchStart := Z.max (startIndex + maxChars - 200) startIndex in
    let searchText := slice text searchStart endIndex in
    let paragraphBreak := lastIndexOf searchText (lit (String "010" (String "010" ""))) in
    if negb (paragraphBreak =? -1) then searchStart + paragraphBreak + 2
    else
      let sentenceBreak :=
        Z.max (Z.max (lastIndexOf searchText (lit ". "))
                     (lastIndexOf searchText (lit (String "." (String "010" "")))))
              (Z.max (lastIndexOf searchText (lit "? "))
                     (lastIndexOf searchText (lit "! "))) in
      if negb (sentenceBreak =? -1) then searchStart + sentenceBreak + 2
      else
        let wordBreak := lastIndexOf searchText (lit " ") in
        if negb (wordBreak =? -1) then searchStart + wordBreak + 1
        else endIndex
  else endIndex.

(** The [while (startIndex < text.length)] loop, one unit of fuel per
    iteration; [None] when the fuel runs out before the loop ends. *)
Fixpoint chunkLoop (fuel : nat) (text : jsstring) (maxChars overlapChars : Z)
    (startIndex : Z) (chunks : list jsstring) : option (list jsstring) :=
  if startIndex <? Z.of_nat (length text) then
    match fuel with
    | O => None
    | S fuel' =>
        let endIndex := findEndIndex text maxChars startIndex in
        let chunks' := chunks ++ [trim (slice text startIndex endIndex)] in
        let startIndex' := endIndex - overlapChars in
        if startIndex' >=? Z.of_nat (length text) then Some chunks'
        else chunkLoop fuel' text maxChars overlapChars startIndex' chunks'
    end
  else Some chunks.

Definition chunkText (fuel : nat) (text : jsstring) (options : ChunkingOptions)
    : option (list jsstring) :=
  let maxTokens := default DEFAULT_MAX_TOKENS (maxTokens options) in
  let overlapTokens := default DEFAULT_OVERLAP_TOKENS (overlapTokens options) in
  let maxChars := maxTokens * CHARS_PER_TOKEN in
  let overlapChars := overlapTokens * CHARS_PER_TOKEN in
  if Z.of_nat (length text) <=? maxChars then Some [text]
  else
    chunks ← chunkLoop fuel text maxChars overlapChars 0 [];
    Some (List.filter (fun chunk => 0 <? Z.of_nat (length chunk)) chunks).

(** [Math.ceil(text.length / CHARS_PER_TOKEN)]. *)
Definition estimateTokenCount (text : jsstring) : Z :=
  (Z.of_nat (length text) + CHARS_PER_TOKEN - 1) / CHARS_PER_TOKEN.

(** The start indices of the iterations the loop makes with the given fuel,
    in order. *)
Fixpoint startIndices (fuel : nat) (text : jsstring) (maxChars overlapChars : Z)
    (startIndex : Z) : list Z :=
  if startIndex <? Z.of_nat (length text) then
    match fuel with
    | O => []
    | S fuel' =>
        let startIndex' := findEndIndex text maxChars startIndex - overlapChars in
        startIndex ::
        (if startIndex' >=? Z.of_nat (length text) then []
         else startIndices fuel' text maxChars overlapChars startIndex')
    end
  else [].

(** *** Vocabulary of the statements on chunks *)

(** The two lengths [chunkText] computes from its options. *)
Definition maxCharsOf (options : ChunkingOptions) : Z :=
  default DEFAULT_MAX_TOKENS (maxTokens options) * CHARS_PER_TOKEN.

Definition overlapCharsOf (options : ChunkingOptions) : Z :=
  default DEFAULT_OVERLAP_TOKENS (overlapTokens options) * CHARS_PER_TOKEN.


(** A contiguous part of a text. *)
Definition substringOf (chunk text : jsstring) : Prop :=
  exists before after, text = before ++ chunk ++ after.

(** A string that neither starts nor ends with white space. *)
Definition trimmed (s : jsstring) : Prop :=
  match s with [] => True | c :: _ => isWhiteSpace c = false end
  /\ match rev s with [] => True | c :: _ => isWhiteSpace c = false end.

End Chunker.

(* ===================================================================== *)
(** ** The upload job manager *)
(* ===================================================================== *)

Module JobManager.

Inductive JobStatus : Type := pending | processing | completed | failed.

#[global] Instance JobStatus_eq_dec : EqDecision JobStatus.
Proof. solve_decision. Defined.

(** [FileResult]; the status of a file ranges over the same four values. *)
Record FileResult : Type := mkFile {
  filename : string;
  status : JobStatus;
  documentId : option string;
  chunksCreated : option nat;
  totalTokens : option nat;
  error : option string }.

(** [Partial<FileResult>]: [None] is a property the update does not have. *)
Record FileUpdate : Type := mkUpdate {
  newFilename : option string;
  newStatus : option JobStatus;
  newDocumentId : option string;
  newChunksCreated : option nat;
  newTotalTokens : option nat;
  newError : option string }.

Record UploadJob : Type := mkJob {
  id : string;
  language : string;
  version : string;
  jobStatus : JobStatus;
  totalFiles : nat;
  processedFiles : nat;
  files : list FileResult;
  createdAt : Z;
  updatedAt : Z }.

(** [createJob]; [id] is the value of [uuidv4()] and [now] of [new Date()].
    [scheduleCleanup(id)] only arms a timer, see [cleanupFired]. *)
Definition createJob (id : string) (now : Z) (language version : string)
    (filenames : list string) (jobs : gmap string UploadJob)
    : gmap string UploadJob * UploadJob :=
  let job :=
    mkJob id language version pending (length filenames) 0
          (List.map (fun filename => mkFile filename pending None None None None)
                    filenames)
          now now in
  (<[id := job]> jobs, job).

Definition getJob (jobId : string) (jobs : gmap string UploadJob)
    : option UploadJob :=
  jobs !! jobId.

Definition updateJobStatus (jobId : string) (status : JobStatus) (now : Z)
    (jobs : gmap string UploadJob) : gmap string UploadJob :=
  match jobs !! jobId with
  | Some job =>
      <[jobId := mkJob (id job) (language job) (version job) status
                       (totalFiles job) (processedFiles job) (files job)
                       (createdAt job) now]> jobs
  | None => jobs
  end.

(** [Object.assign(file, update)]. *)
Definition assign (file : FileResult) (update : FileUpdate) : FileResult :=
  mkFile (default (filename file) (newFilename update))
         (default (status file) (newStatus update))
         (match newDocumentId update with Some d => Some d | None => documentId file end)
         (match newChunksCreated update with Some c => Some c | None => chunksCreated file end)
         (match newTotalTokens update with Some t => Some t | None => totalTokens file end)
         (match newError update with Some e => Some e | None => error file end).

Definition isProcessed (f : FileResult) : bool :=
  bool_decide (status f = completed) || bool_decide (status f = failed).

(** The index of the first element that satisfies [p], as [Array.find]
    visits the elements. *)
Fixpoint findIndex {A : Type} (p : A -> bool) (l : list A) : option nat :=
  match l with
  | [] => None
  | x :: rest => if p x then Some 0%nat else S <$> findIndex p rest
  end.

(** [updateFileStatus]. The file found by [find] is mutated in place, which
    is an update of the array at the index of the first match. *)
Definition updateFileStatus (jobId filename' : string) (update : FileUpdate)
    (now : Z) (jobs : gmap string UploadJob) : gmap string UploadJob :=
  match jobs !! jobId with
  | None => jobs
  | Some job =>
      match findIndex (fun f => bool_decide (filename f = filename')) (files job) with
      | None => jobs
      | Some i =>
          let files' := alter (fun file => assign file update) i (files job) in
          let processed := length (List.filter isProcessed files') in
          let status' :=
            if (processed =? totalFiles job)%nat then
              let hasFailures :=
                existsb (fun f => bool_decide (status f = failed)) files' in
              if hasFailures then completed else completed
            else if existsb (fun f => bool_decide (status f = processing)) files'
            then processing
            else jobStatus job in
          <[jobId := mkJob (id job) (language job) (version job) status'
                           (totalFiles job) processed files'
                           (createdAt job) now]> jobs
      end
  end.

Record JobProgress : Type := mkProgress {
  progressStatus : JobStatus;
  progress : Z;
  completedCount : nat;
  failedCount : nat;
  total : nat;
  progressFiles : list FileResult }.

(** [Math.round]: the nearest integer, a tie going up. *)
Definition Math_round (x : Q) : Z := Qfloor (x + (1 # 2))%Q.

Section Progress.

(** The rounding of the exact result of an arithmetic operation to a
    double; the counts themselves are integers, which doubles hold exactly. *)
Variable fl : Q -> Q.

Definition getJobProgress (jobId : string) (jobs : gmap string UploadJob)
    : option JobProgress :=
  match jobs !! jobId with
  | None => None
  | Some job =>
      let completed' :=
        length (List.filter (fun f => bool_decide (status f = completed)) (files job)) in
      let failed' :=
        length (List.filter (fun f => bool_decide (status f = failed)) (files job)) in
      let progress :=
        if (0 <? totalFiles job)%nat then
          Math_round
            (fl (fl (inject_Z (Z.of_nat (processedFiles job))
                     / inject_Z (Z.of_nat (totalFiles job)))%Q
                 * 100)%Q)
        else 0 in
      Some (mkProgress (jobStatus job) progress completed' failed'
                       (totalFiles job) (files job))
  end.

End Progress.

Definition deleteJob (jobId : string) (jobs : gmap string UploadJob)
    : gmap string UploadJob * bool :=
  (delete jobId jobs, bool_decide (is_Some (jobs !! jobId))).

(** The callback armed by [scheduleCleanup], when its timer fires. *)
Definition cleanupFired (jobId : string) (jobs : gmap string UploadJob)
    : gmap string UploadJob :=
  delete jobId jobs.

Definition getAllJobs (jobs : gmap string UploadJob) : list UploadJob :=
  snd <$> map_to_list jobs.

(** *** Vocabulary of the statements *)

(** The operations of the manager that act on the job map. The reads
    ([getJob], [getJobProgress], [getAllJobs]) leave it as it is. *)
Inductive operation : Type :=
  | CreateJob (id : string) (now : Z) (language version : string)
              (filenames : list string)
  | GetJob (jobId : string)
  | UpdateJobStatus (jobId : string) (status : JobStatus) (now : Z)
  | UpdateFileStatus (jobId filename : string) (update : FileUpdate) (now : Z)
  | GetJobProgress (jobId : string)
  | DeleteJob (jobId : string)
  | CleanupFired (jobId : string)
  | GetAllJobs.

Definition perform (op : operation) (jobs : gmap string UploadJob)
    : gmap string UploadJob :=
  match op with
  | CreateJob id now language version filenames =>
      fst (createJob id now language version filenames jobs)
  | GetJob _ | GetJobProgress _ | GetAllJobs => jobs
  | UpdateJobStatus jobId status now => updateJobStatus jobId status now jobs
  | UpdateFileStatus jobId filename update now =>
      updateFileStatus jobId filename update now jobs
  | DeleteJob jobId => fst (deleteJob jobId jobs)
  | CleanupFired jobId => cleanupFired jobId jobs
  end.

Definition jobInvariant (job : UploadJob) : Prop :=
  length (files job) = totalFiles job
  /\ processedFiles job = length (List.filter isProcessed (files job)).

Definition jobsInvariant (jobs : gmap string UploadJob) : Prop :=
  map_Forall (fun _ job => jobInvariant job) jobs.

(** What the statements need of the rounding to doubles: it is monotone and
    leaves 0, 1 and 100 as they are. *)
Record roundsToDouble (fl : Q -> Q) : Prop := mkRounds {
  fl_monotone : forall x y, Qle x y -> Qle (fl x) (fl y);
  fl_0 : Qeq (fl 0%Q) 0%Q;
  fl_1 : Qeq (fl 1%Q) 1%Q;
  fl_100 : Qeq (fl 100%Q) 100%Q }.

(** The job an operation addresses; [getAllJobs] addresses none. *)
Definition target (op : operation) : option string :=
  match op with
  | CreateJob id _ _ _ _ => Some id
  | GetJob jobId | GetJobProgress jobId | DeleteJob jobId | CleanupFired jobId =>
      Some jobId
  | UpdateJobStatus jobId _ _ => Some jobId
  | UpdateFileStatus jobId _ _ _ => Some jobId
  | GetAllJobs => None
  end.

Definition creates (op : operation) : bool :=
  match op with CreateJob _ _ _ _ _ => true | _ => false end.

End JobManager.

(* ===================================================================== *)
(** ** Batch ingestion of the document processor *)
(* ===================================================================== *)

Module Processor.
Import JsString.

(** [Partial<ChunkMetadata>]. *)
Record PartialMetadata : Type := mkMetadata {
  category : option Diff.ItemCategory;
  section : option string;
  feature : option string;
  url : option string;
  chunkIndex : option nat;
  totalChunks : option nat }.

Record IngestDocumentInput : Type := mkInput {
  versionId : Diff.CppVersionId;
  title : string;
  content : jsstring;
  metadata : option PartialMetadata }.

Record IngestResult : Type := mkIngested {
  documentId : string;
  chunksCreated : nat;
  totalTokens : Z }.

(** An element of [BatchIngestResult.failed]; [input] is [batch[index]],
    which is undefined ([None]) for an index outside the batch. *)
Record FailedIngest : Type := mkFailed {
  input : option IngestDocumentInput;
  error : string }.

Record BatchIngestResult : Type := mkBatch {
  successful : list IngestResult;
  failed : list FailedIngest }.

(** An element of the array [Promise.allSettled] resolves to. The reason of
    a rejection is kept as [reason?.message]: the message of the thrown
    value, when it has one. *)
Inductive settlement : Type :=
  | fulfilled (value : IngestResult)
  | rejected (reasonMessage : option string).

Definition CONCURRENCY : nat := 5.

(** [result.reason?.message || 'Unknown error']: an empty message is falsy. *)
Definition errorMessage (reasonMessage : option string) : string :=
  match reasonMessage with
  | Some message => if decide (message = "") then "Unknown error" else message
  | None => "Unknown error"
  end.

(** The [batchResults.forEach((result, index) => ...)] of one batch. *)
Fixpoint collectFrom (batch : list IngestDocumentInput)
    (batchResults : list settlement) (index : nat)
    (results : BatchIngestResult) : BatchIngestResult :=
  match batchResults with
  | [] => results
  | result :: rest =>
      let results' :=
        match result with
        | fulfilled value =>
            mkBatch (successful results ++ [value]) (failed results)
        | rejected reasonMessage =>
            mkBatch (successful results)
                    (failed results ++
                       [mkFailed (batch !! index) (errorMessage reasonMessage)])
        end in
      collectFrom batch rest (S index) results'
  end.

Section Batch.

(** The embedding provider and the database, as far as [ingestDocument]
    touches them. *)
Context {World : Type}.

(** [this.ingestDocument(input)] run to its settlement from a state of the
    services: the state it leaves and whether its promise is fulfilled or
    rejected. *)
Variable ingestDocument : IngestDocumentInput -> World -> World * settlement.

(** The services together with the record, kept for the statements only, of
    the inputs [ingestDocument] has been called with, oldest first. *)
Record Run : Type := mkRun {
  world : World;
  ingested : list IngestDocumentInput }.

Definition callIngestDocument (input : IngestDocumentInput) (r : Run)
    : Run * settlement :=
  let '(world', result) := ingestDocument input (world r) in
  (mkRun world' (ingested r ++ [input]), result).

(** [await Promise.allSettled(batch.map((input) => this.ingestDocument(input)))].
    The calls of a batch are run one after the other here; the array keeps
    the order of the batch, as [allSettled] does. *)
Fixpoint allSettled (batch : list IngestDocumentInput) (r : Run)
    : Run * list settlement :=
  match batch with
  | [] => (r, [])
  | input :: rest =>
      let '(r1, result) := callIngestDocument input r in
      let '(r2, results) := allSettled rest r1 in
      (r2, result :: results)
  end.

(** The [for (let i = 0; i < inputs.length; i += CONCURRENCY)] loop. *)
Equations? batchLoop (inputs : list IngestDocumentInput) (i : nat) (r : Run)
    (results : BatchIngestResult) : Run * BatchIngestResult
  by wf (length inputs - i)%nat lt :=
  batchLoop inputs i r results with decide (i < length inputs)%nat => {
    | left _ =>
        let batch := take CONCURRENCY (drop i inputs) in
        let settled := allSettled batch r in
        batchLoop inputs (i + CONCURRENCY) (fst settled)
                  (collectFrom batch (snd settled) 0 results);
    | right _ => (r, results) }.
Proof. unfold CONCURRENCY. lia. Qed.

Definition ingestBatch (inputs : list IngestDocumentInput) (r : Run)
    : Run * BatchIngestResult :=
  batchLoop inputs 0 r (mkBatch [] []).

End Batch.

(** *** Vocabulary of the statements *)

(** The values of the fulfilled settlements, in order. *)
Fixpoint fulfilledValues (settlements : list settlement) : list IngestResult :=
  match settlements with
  | [] => []
  | fulfilled value :: rest => value :: fulfilledValues rest
  | rejected _ :: rest => fulfilledValues rest
  end.

(** The inputs whose settlement is a rejection, with the error reported
    for each, in order. *)
Fixpoint rejectedEntries (inputs : list IngestDocumentInput)
    (settlements : list settlement) : list FailedIngest :=
  match inputs, settlements with
  | input :: inputs', rejected reasonMessage :: rest =>
      mkFailed (Some input) (errorMessage reasonMessage)
      :: rejectedEntries inputs' rest
  | _ :: inputs', fulfilled _ :: rest => rejectedEntries inputs' rest
  | _, _ => []
  end.

(** What [ingestDocument] answers on the inputs of a list, run on each of
    them in turn from the state of the services its run on the one before
    left, whatever that run answered: the state it leaves at the end and
    the settlements, in the order of the inputs. *)
Fixpoint answersOf {World : Type}
    (ingestDocument : IngestDocumentInput -> World -> World * settlement)
    (inputs : list IngestDocumentInput) (w : World) : World * list settlement :=
  match inputs with
  | [] => (w, [])
  | input :: rest =>
      let '(w1, answer) := ingestDocument input w in
      let '(w2, answers) := answersOf ingestDocument rest w1 in
      (w2, answer :: answers)
  end.

(** *** Sample data *)

(** An [ingestDocument] that counts its calls and rejects a document with an
    empty title, and seven documents of which two have one. *)
Definition sampleIngest (input : IngestDocumentInput) (count : nat)
    : nat * settlement :=
  (S count,
   if decide (title input = "")
   then rejected (Some "Failed to insert document: title")
   else fulfilled (mkIngested (title input) 1 1)).

Definition sampleInputs : list IngestDocumentInput :=
  List.map (fun t => mkInput Diff.cpp17 t [] None) ["a"; "b"; ""; "d"; "e"; "f"; ""].

(** *** [ingestDocument] *)

(** An object inserted into [spec_documents]. [embedding] is undefined
    ([None]) when [embedBatch] gave fewer embeddings than chunks;
    [originalTitle] is the property the rows of a chunked document add to
    their metadata. *)
Record Row {Embedding : Type} : Type := mkRow {
  version_id : Diff.CppVersionId;
  rowTitle : string;
  rowContent : jsstring;
  embedding : option Embedding;
  rowMetadata : PartialMetadata;
  originalTitle : option string }.
Arguments Row Embedding : clear implicits.

(** [{ ...metadata, chunkIndex, totalChunks }]. *)
Definition withChunk (metadata : PartialMetadata) (index total : nat)
    : PartialMetadata :=
  mkMetadata (category metadata) (section metadata) (feature metadata)
             (url metadata) (Some index) (Some total).

Definition emptyMetadata : PartialMetadata :=
  mkMetadata None None None None None None.

(** [chunks.map((chunkContent, index) => ...)], from [index] on. *)
Fixpoint insertDataFrom {Embedding : Type} (input : IngestDocumentInput)
    (metadata : PartialMetadata) (embeddings : list Embedding)
    (totalChunks : nat) (chunks : list jsstring) (index : nat)
    : list (Row Embedding) :=
  match chunks with
  | [] => []
  | chunkContent :: rest =>
      mkRow Embedding (versionId input)
            (title input +:+ " (Part " +:+ pretty (index + 1)%nat +:+ "/"
             +:+ pretty totalChunks +:+ ")")
            chunkContent
            (embeddings !! index)
            (withChunk metadata index totalChunks)
            (Some (title input))
      :: insertDataFrom input metadata embeddings totalChunks rest (S index)
  end.

Section Ingest.

(** The embedding provider and the database: what a call answers and the
    state it leaves. A call of the provider returns or throws a value,
    of which [reason?.message] is kept. An insert answers with [data] and
    [error]: the id of the row (or the ids of the rows) and the message of
    the error, either of which can be null. *)
Context {World Embedding : Type}.
Variable embed : jsstring -> World -> World * (Embedding + option string).
Variable embedBatch :
  list jsstring -> World -> World * (list Embedding + option string).
Variable insertSingle :
  Row Embedding -> World -> World * (option string * option string).
Variable insertMany :
  list (Row Embedding) -> World -> World * (option (list string) * option string).

(** The message of the [TypeError] of reading [id] of null or undefined. *)
Variable typeErrorMessage : string.

(** The services together with the record, kept for the statements only, of
    the rows [ingestDocument] has passed to an insert, oldest first. *)
Record Store : Type := mkStore {
  services : World;
  inserted : list (Row Embedding) }.

(** [ingestDocument], run to its settlement; [None] when the loop of
    [chunkText] does not end within as many iterations as the content has
    characters. *)
Definition ingestDocument (input : IngestDocumentInput) (s : Store)
    : Store * option settlement :=
  let metadata := default emptyMetadata (metadata input) in
  let tokenCount := Chunker.estimateTokenCount (content input) in
  let needsChunking := 500 <? tokenCount in
  if negb needsChunking then
    match embed (content input) (services s) with
    | (w, inr reason) => (mkStore w (inserted s), Some (rejected reason))
    | (w, inl embedding) =>
        let row :=
          mkRow Embedding (versionId input) (title input) (content input)
                (Some embedding) (withChunk metadata 0 1) None in
        let '(w', (data, error)) := insertSingle row w in
        (mkStore w' (inserted s ++ [row]),
         Some match error, data with
              | Some message, _ =>
                  rejected (Some ("Failed to insert document: " +:+ message))
              | None, Some id => fulfilled (mkIngested id 1 tokenCount)
              | None, None => rejected (Some typeErrorMessage)
              end)
    end
  else
    match Chunker.chunkText (length (content input)) (content input)
            (Chunker.mkOptions (Some 500) (Some 50)) with
    | None => (s, None)
    | Some chunks =>
        let totalChunks := length chunks in
        match embedBatch chunks (services s) with
        | (w, inr reason) => (mkStore w (inserted s), Some (rejected reason))
        | (w, inl embeddings) =>
            let insertData :=
              insertDataFrom input metadata embeddings totalChunks chunks 0 in
            let '(w', (data, error)) := insertMany insertData w in
            (mkStore w' (inserted s ++ insertData),
             Some match error, data with
                  | Some message, _ =>
                      rejected
                        (Some ("Failed to insert document chunks: " +:+ message))
                  | None, Some (id :: _) =>
                      fulfilled (mkIngested id totalChunks tokenCount)
                  | None, _ => rejected (Some typeErrorMessage)
                  end)
        end
    end.

(** [this.ingestDocument(input)] as [ingestBatch] awaits it. The rejection
    that stands here for a call that does not settle is never given:
    [ingestDocument] always settles. *)
Definition ingestDocumentSettled (input : IngestDocumentInput) (s : Store)
    : Store * settlement :=
  let '(s', settled) := ingestDocument input s in
  (s', default (rejected None) settled).

End Ingest.

(** *** Vocabulary of the statements on rows *)

(** The title, chunk index and chunk count of the row at position [index]
    of the [total] rows of a chunked document. *)
Definition numbered {Embedding : Type} (input : IngestDocumentInput)
    (total index : nat) (row : Row Embedding) : Prop :=
  rowTitle row = title input +:+ " (Part " +:+ pretty (index + 1)%nat +:+ "/"
                 +:+ pretty total +:+ ")"
  /\ chunkIndex (rowMetadata row) = Some index
  /\ totalChunks (rowMetadata row) = Some total
  /\ originalTitle row = Some (title input).

(** The number of chunks the results of a batch report as created. *)
Definition chunksReported (results : list IngestResult) : nat :=
  sum_list (chunksCreated <$> results).

(** Sample services: an embedding is the length of the text, an insert
    answers with the titles of the rows as their ids. *)
Definition sampleEmbed (text : jsstring) (w : unit) : unit * (nat + option string) :=
  (w, inl (length text)).

Definition sampleEmbedBatch (texts : list jsstring) (w : unit)
    : unit * (list nat + option string) :=
  (w, inl (List.map (fun text => length text) texts)).

Definition sampleInsertSingle (row : Row nat) (w : unit)
    : unit * (option string * option string) :=
  (w, (Some (rowTitle row), None)).

Definition sampleInsertMany (rows : list (Row nat)) (w : unit)
    : unit * (option (list string) * option string) :=
  (w, (Some (List.map rowTitle rows), None)).

End Processor.

(* ===================================================================== *)
(** ** The document generator and its response cache *)
(* ===================================================================== *)

Module Generator.
Import Diff.

Definition DEFAULT_RAG_LIMIT : Z := 5.
Definition CACHE_EXPIRY_HOURS : Z := 24.

(** A row of the table [llm_cache], whose primary key is a generated [id],
    whose column [prompt_hash] is unique and whose column [expires_at] may
    be null. The table is a map from [prompt_hash] to the row. *)
Record CacheRow : Type := mkRow {
  response : string;
  model : string;
  expires_at : option Z }.

Section Generation.

(** [createHash('sha256').update(prompt).digest('hex')]. *)
Variable sha256hex : string -> string.

(** [d.setHours(d.getHours() + n)] as a function of the time value of [d]
    and of [n]: the time value of the date [n] hours later on the local
    clock of the server (which is [n * 3600000] later when the local clock
    is not changed in between). *)
Variable hoursLater : Z -> Z -> Z.

(** The types of [@shuguridan/shared] that the generator only passes on. *)
Context {DocType TargetLevel OutputLanguage OutputFormat : Type}.

Record GenerationOptions : Type := mkGenOptions {
  targetLevel : TargetLevel;
  outputLanguage : OutputLanguage;
  outputFormat : OutputFormat;
  useRag : option bool;
  ragLimit : option Z }.

Record GenerationRequest : Type := mkGenRequest {
  sourceVersion : CppVersionId;
  targetVersion : CppVersionId;
  docType : DocType;
  options : GenerationOptions;
  code : option string;
  filename : option string }.

Record GenerationResult : Type := mkGenResult {
  id : string;
  resultSource : CppVersionId;
  resultTarget : CppVersionId;
  resultDocType : DocType;
  content : string;
  format : string;
  ragSourcesUsed : nat;
  generationTimeMs : Z;
  cached : bool;
  createdAt : Z }.

Record PromptContext : Type := mkPromptContext {
  ctxSource : CppVersionId;
  ctxTarget : CppVersionId;
  diffSummary : string;
  ragContext : string;
  ctxOutputLanguage : OutputLanguage;
  ctxTargetLevel : TargetLevel }.

Record CodeModernizationContext : Type := mkCodeContext {
  base : PromptContext;
  oldCode : string;
  ctxFilename : option string }.

(** The prompt templates, [JSON.stringify(diff, null, 2)], the files of the
    diff analyzer and [retrieveContext] (which catches every error of the
    retriever) are used as they are. *)
Variable getSystemPrompt : DocType -> string.
Variable getPromptBuilder : DocType -> PromptContext -> string.
Variable buildCodeModernizationPrompt : CodeModernizationContext -> string.
Variable stringifyDiff : DiffCategory -> string.
Variable readDiffFile : string -> option ParsedFile.
Variable retrieveContext : string -> CppVersionId -> CppVersionId -> Z -> string * nat.

(** The LLM provider: its name and its [generate(prompt, context)], which
    from a state of the provider returns the text ([inl]) or throws an error
    with a message ([inr]). *)
Context {Provider : Type}.
Variable providerName : string.
Variable providerGenerate :
  string -> list string -> Provider -> Provider * (string + string).

(** What a call of [generate] acts on: the cache of the diff analyzer, the
    table [llm_cache], the provider, and (for the statements only) the
    calls made to the provider, oldest first. *)
Record Services : Type := mkServices {
  diffDataCache : gmap string ParsedFile;
  llm_cache : gmap string CacheRow;
  provider : Provider;
  providerCalls : list (string * list string) }.

(** The values of the clock and of [crypto.randomUUID()] during a call. *)
Record Ambient : Type := mkAmbient {
  startTime : Z;
  lookupTime : Z;
  saveTime : Z;
  endTime : Z;
  uuid : string }.

Definition hashPrompt (prompt : string) : string := sha256hex prompt.

(** [checkCache]: the row with the given hash whose [expires_at] is greater
    than [now], if there is one ([.single()] gives an error otherwise, and
    a null [expires_at] compares as not greater). *)
Definition checkCache (promptHash : string) (now : Z)
    (table : gmap string CacheRow) : option string :=
  match table !! promptHash with
  | Some row =>
      match expires_at row with
      | Some expires => if now <? expires then Some (response row) else None
      | None => None
      end
  | None => None
  end.

(** [saveToCache]. The upsert names no [onConflict] column, so that only
    the primary key [id] decides whether a row is replaced, and the row
    sent has none: the upsert inserts. The insertion is refused when the
    table has a row with the same [prompt_hash] (live, expired or without
    an expiry), since that column is unique; the result of the upsert is
    not looked at, and the table is then left as it was. *)
Definition saveToCache (promptHash response model : string) (now : Z)
    (table : gmap string CacheRow) : gmap string CacheRow :=
  let expiresAt := hoursLater now CACHE_EXPIRY_HOURS in
  match table !! promptHash with
  | Some _ => table
  | None => <[promptHash := mkRow response model (Some expiresAt)]> table
  end.

(** A string in a condition: the empty string is falsy. *)
Definition truthy (s : option string) : option string :=
  match s with
  | Some s => if decide (s = "") then None else Some s
  | None => None
  end.

(** The statements of [generate] up to the cache check: the system prompt,
    the user prompt and the number of RAG sources, unless [analyzeDiff]
    throws. *)
Definition buildPrompts (request : GenerationRequest) (s : Services)
    : Services * outcome (string * string * nat) :=
  let '(cache', diffResult) :=
    analyzeDiff readDiffFile
      (mkRequest (sourceVersion request) (targetVersion request) None)
      (diffDataCache s) in
  let s' := mkServices cache' (llm_cache s) (provider s) (providerCalls s) in
  match diffResult with
  | OutOfFuel => (s', OutOfFuel)
  | Thrown message => (s', Thrown message)
  | Returned diffResult =>
      let ragQuery :=
        versionName (sourceVersion request) +:+ " to "
        +:+ versionName (targetVersion request) +:+ " migration: "
        +:+ summary diffResult in
      let ragLimit := default DEFAULT_RAG_LIMIT (ragLimit (options request)) in
      let useRag := negb (bool_decide (useRag (options request) = Some false)) in
      let '(ragContext, sourcesUsed) :=
        if useRag
        then retrieveContext ragQuery (sourceVersion request)
                             (targetVersion request) ragLimit
        else ("RAG disabled.", 0%nat) in
      let systemPrompt := getSystemPrompt (docType request) in
      let promptContext :=
        mkPromptContext (sourceVersion request) (targetVersion request)
                        (stringifyDiff (diff diffResult)) ragContext
                        (outputLanguage (options request))
                        (targetLevel (options request)) in
      let userPrompt :=
        match truthy (code request) with
        | Some code =>
            buildCodeModernizationPrompt
              (mkCodeContext promptContext code (filename request))
        | None => getPromptBuilder (docType request) promptContext
        end in
      (s', Returned (systemPrompt, userPrompt, sourcesUsed))
  end.

(** [`${systemPrompt}\n\n${userPrompt}`]. *)
Definition fullPrompt (systemPrompt userPrompt : string) : string :=
  systemPrompt +:+ String "010" (String "010" "") +:+ userPrompt.

(** The cache check and what follows it in [generate]. *)
Definition generateFromPrompts (request : GenerationRequest) (a : Ambient)
    (systemPrompt userPrompt : string) (sourcesUsed : nat) (s : Services)
    : Services * outcome GenerationResult :=
  let promptHash := hashPrompt (fullPrompt systemPrompt userPrompt) in
  let cachedResponse := checkCache promptHash (lookupTime a) (llm_cache s) in
  let result content cached :=
    mkGenResult (uuid a) (sourceVersion request) (targetVersion request)
                (docType request) content "markdown" sourcesUsed
                (endTime a - startTime a) cached (endTime a) in
  match truthy cachedResponse with
  | Some content => (s, Returned (result content true))
  | None =>
      let '(provider', generated) :=
        providerGenerate userPrompt [systemPrompt] (provider s) in
      let calls' := providerCalls s ++ [(userPrompt, [systemPrompt])] in
      match generated with
      | inl content =>
          (mkServices (diffDataCache s)
                      (saveToCache promptHash content providerName (saveTime a)
                                   (llm_cache s))
                      provider' calls',
           Returned (result content false))
      | inr message =>
          (mkServices (diffDataCache s) (llm_cache s) provider' calls',
           Thrown message)
      end
  end.

Definition generate (request : GenerationRequest) (a : Ambient) (s : Services)
    : Services * outcome GenerationResult :=
  let '(s1, prompts) := buildPrompts request s in
  match prompts with
  | Returned (systemPrompt, userPrompt, sourcesUsed) =>
      generateFromPrompts request a systemPrompt userPrompt sourcesUsed s1
  | Thrown message => (s1, Thrown message)
  | OutOfFuel => (s1, OutOfFuel)
  end.

(** *** Vocabulary of the statements *)

(** A row of the table that the lookup at time [now] accepts: its expiry is
    strictly in the future. *)
Definition liveRow (promptHash : string) (now : Z) (table : gmap string CacheRow)
    (row : CacheRow) : Prop :=
  table !! promptHash = Some row
  /\ exists expires, expires_at row = Some expires /\ now < expires.

End Generation.

(** *** Sample data *)

(** A provider that answers every prompt with the same text and counts its
    calls; a table that holds an empty response under the hash of the full
    prompt, live until time 5000; a request for cpp11 -> cpp14 without RAG;
    a hash that is the identity. *)
Definition emptyRow : CacheRow := mkRow "" "claude" (Some 5000).

(** [hoursLater] on a server whose local clock is UTC. *)
Definition utcHoursLater (now hours : Z) : Z := now + hours * 3600000.

Definition constantProvider (prompt : string) (context : list string) (calls : nat)
    : nat * (string + string) :=
  (S calls, inl "# Migration guide").

Definition sampleRequest : @GenerationRequest unit unit unit unit :=
  mkGenRequest cpp11 cpp14 tt (mkGenOptions tt tt tt (Some false) None) None None.

Definition sampleServices : @Services nat :=
  mkServices ∅ {[ "system" +:+ String "010" (String "010" "") +:+ "user" := emptyRow ]}
             0%nat [].

End Generator.

(* ===================================================================== *)
(** ** Regular expressions, as the backtracking matcher of ECMAScript *)
(* ===================================================================== *)

Module Regex.
Import JsString.

(** The patterns of the compiler adapters and of the code validator, which
    quantify character classes only. A class is its membership test; a
    literal or a class under the flag [i] is the class of the code units
    that match it. *)
Inductive regex : Type :=
  | Empty
  | Char (class : N -> bool)
  | Seq (r1 r2 : regex)
  | Alt (r1 r2 : regex)
  | Star (greedy : bool) (class : N -> bool)
  | Group (n : nat) (r : regex)
  | Lookahead (r : regex)
  | WordBoundary
  | LineStart
  | InputEnd
  | LineEnd.

(** The matcher's state: the code units before the current position (the
    nearest first), those from the current position on, and the captures
    made so far (the latest first). *)
Record mstate : Type := mkState {
  pre : list N;
  rest : list N;
  caps : list (nat * jsstring) }.

Definition isLineTerminator (c : N) : bool :=
  ((c =? 10) || (c =? 13) || (c =? 8232) || (c =? 8233))%N.

Definition isDigit (c : N) : bool := ((48 <=? c) && (c <=? 57))%N.

Definition isWordChar (c : N) : bool :=
  ((97 <=? c) && (c <=? 122) || (65 <=? c) && (c <=? 90)
   || isDigit c || (c =? 95))%N.

(** [.] without the flag [s]. *)
Definition isDot (c : N) : bool := negb (isLineTerminator c).

(** The code unit with an ASCII capital letter replaced by its small
    letter. *)
Definition asciiLower (c : N) : N :=
  if ((65 <=? c) && (c <=? 90))%N then (c + 32)%N else c.

(** The class of one code unit, and of an ASCII code unit under the flag
    [i] (where only the letter of the other case canonicalizes to it). *)
Definition exactly (c : N) : N -> bool := fun x => (x =? c)%N.
Definition noCase (c : N) : N -> bool := fun x => (asciiLower x =? asciiLower c)%N.

Definition headIsWord (s : list N) : bool :=
  match s with
  | c :: _ => isWordChar c
  | [] => false
  end.

Definition headIsLineTerminator (s : list N) : bool :=
  match s with
  | c :: _ => isLineTerminator c
  | [] => true
  end.

(** A greedy class repetition: as many code units as possible first. *)
Fixpoint starGreedy (class : N -> bool) (k : mstate -> option mstate)
    (pre rest : list N) (caps : list (nat * jsstring)) : option mstate :=
  match rest with
  | c :: rest' =>
      if class c then
        match starGreedy class k (c :: pre) rest' caps with
        | Some final => Some final
        | None => k (mkState pre rest caps)
        end
      else k (mkState pre rest caps)
  | [] => k (mkState pre rest caps)
  end.

(** A lazy class repetition: as few code units as possible first. *)
Fixpoint starLazy (class : N -> bool) (k : mstate -> option mstate)
    (pre rest : list N) (caps : list (nat * jsstring)) : option mstate :=
  match k (mkState pre rest caps) with
  | Some final => Some final
  | None =>
      match rest with
      | c :: rest' =>
          if class c then starLazy class k (c :: pre) rest' caps else None
      | [] => None
      end
  end.

(** The capture of group [n] on leaving it at [st'] having entered it at
    [st]: the code units consumed in between. *)
Definition capture (n : nat) (st st' : mstate) : mstate :=
  mkState (pre st') (rest st')
          ((n, firstn (length (rest st) - length (rest st')) (rest st)) :: caps st').

(** [rmatch r k st]: match [r] at [st] and go on with the continuation [k];
    the first success in the order of the alternatives is the result. *)
Fixpoint rmatch (r : regex) (k : mstate -> option mstate) (st : mstate)
    : option mstate :=
  match r with
  | Empty => k st
  | Char class =>
      match rest st with
      | c :: rest' =>
          if class c then k (mkState (c :: pre st) rest' (caps st)) else None
      | [] => None
      end
  | Seq r1 r2 => rmatch r1 (rmatch r2 k) st
  | Alt r1 r2 =>
      match rmatch r1 k st with
      | Some final => Some final
      | None => rmatch r2 k st
      end
  | Star true class => starGreedy class k (pre st) (rest st) (caps st)
  | Star false class => starLazy class k (pre st) (rest st) (caps st)
  | Group n r => rmatch r (fun st' => k (capture n st st')) st
  | Lookahead r =>
      match rmatch r Some st with
      | Some st' => k (mkState (pre st) (rest st) (caps st'))
      | None => None
      end
  | WordBoundary =>
      if xorb (headIsWord (pre st)) (headIsWord (rest st)) then k st else None
  | LineStart => if headIsLineTerminator (pre st) then k st else None
  | InputEnd => match rest st with [] => k st | _ :: _ => None end
  | LineEnd => if headIsLineTerminator (rest st) then k st else None
  end.

(** Patterns are written with these. *)
Definition plus (greedy : bool) (class : N -> bool) : regex :=
  Seq (Char class) (Star greedy class).

Definition optional (r : regex) : regex := Alt r Empty.

Fixpoint seqAll (rs : list regex) : regex :=
  match rs with
  | [] => Empty
  | [r] => r
  | r :: rs' => Seq r (seqAll rs')
  end.

(** A literal, case-sensitive or under the flag [i]. *)
Definition text (s : string) : regex := seqAll (List.map (fun c => Char (exactly c)) (lit s)).
Definition textNoCase (s : string) : regex :=
  seqAll (List.map (fun c => Char (noCase c)) (lit s)).

Record MatchResult : Type := mkMatch {
  index : nat;
  matched : jsstring;
  groups : list (nat * jsstring) }.

(** The capture of group [n]: the latest one made. *)
Definition group (n : nat) (m : MatchResult) : option jsstring :=
  snd <$> List.find (fun g => (fst g =? n)%nat) (groups m).

(** One attempt at the current position. *)
Definition matchHere (r : regex) (pre rest : list N) : option MatchResult :=
  match rmatch r Some (mkState pre rest []) with
  | Some final =>
      Some (mkMatch (length pre)
                    (firstn (length rest - length (Regex.rest final)) rest)
                    (caps final))
  | None => None
  end.

(** The leftmost match at or after the current position. *)
Fixpoint searchFrom (r : regex) (pre rest : list N) : option MatchResult :=
  match matchHere r pre rest with
  | Some m => Some m
  | None =>
      match rest with
      | c :: rest' => searchFrom r (c :: pre) rest'
      | [] => None
      end
  end.

(** [r.exec(s)] for a pattern without the flag [g], and [r.test(s)]. *)
Definition exec (r : regex) (s : jsstring) : option MatchResult := searchFrom r [] s.
Definition test (r : regex) (s : jsstring) : bool := bool_decide (is_Some (exec r s)).

(** All matches of a pattern with the flag [g], from left to right, each
    search starting where the previous match ended, or one code unit later
    when that match was empty. [skip] is the number of code units to the
    position the next search starts at. *)
Fixpoint matchAllFrom (r : regex) (pre rest : list N) (skip : nat)
    : list MatchResult :=
  match skip with
  | S skip' =>
      match rest with
      | c :: rest' => matchAllFrom r (c :: pre) rest' skip'
      | [] => []
      end
  | O =>
      match matchHere r pre rest with
      | Some m =>
          m :: match rest with
               | c :: rest' => matchAllFrom r (c :: pre) rest' (length (matched m) - 1)
               | [] => []
               end
      | None =>
          match rest with
          | c :: rest' => matchAllFrom r (c :: pre) rest' 0
          | [] => []
          end
      end
  end.

Definition matchAll (r : regex) (s : jsstring) : list MatchResult :=
  matchAllFrom r [] s 0.

(** The loop [while ((match = r.exec(s)) !== null)] over a pattern with the
    flag [g]: the matches it visits, or [None] when a match is empty, after
    which [lastIndex] stays where it is and the loop never ends. *)
Definition execLoop (r : regex) (s : jsstring) : option (list MatchResult) :=
  let ms := matchAll r s in
  if forallb (fun m => (0 <? length (matched m))%nat) ms then Some ms else None.

(** [s.replace(r, replacement)] for a pattern with the flag [g] and a
    replacement without [$]: the text between the matches is kept. *)
Fixpoint replaceFrom (ms : list MatchResult) (replacement : jsstring)
    (s : jsstring) (position : nat) : jsstring :=
  match ms with
  | [] => s
  | m :: ms' =>
      firstn (index m - position) s ++ replacement ++
      replaceFrom ms' replacement
                  (skipn (index m - position + length (matched m)) s)
                  (index m + length (matched m))
  end.

Definition replaceAll (r : regex) (replacement : jsstring) (s : jsstring) : jsstring :=
  replaceFrom (matchAll r s) replacement s 0.

(** *** Vocabulary of the statements *)

(** [Matches r st st']: [r] can match from [st] and leave the matcher at
    [st']. The matcher's result is one of these matches (the first in the
    order of the alternatives). *)
Inductive Matches : regex -> mstate -> mstate -> Prop :=
  | M_Empty st : Matches Empty st st
  | M_Char class c pre rest caps :
      class c = true ->
      Matches (Char class) (mkState pre (c :: rest) caps) (mkState (c :: pre) rest caps)
  | M_Seq r1 r2 st mid st' :
      Matches r1 st mid -> Matches r2 mid st' -> Matches (Seq r1 r2) st st'
  | M_AltL r1 r2 st st' : Matches r1 st st' -> Matches (Alt r1 r2) st st'
  | M_AltR r1 r2 st st' : Matches r2 st st' -> Matches (Alt r1 r2) st st'
  | M_StarNil greedy class st : Matches (Star greedy class) st st
  | M_StarCons greedy class c pre rest caps st' :
      class c = true ->
      Matches (Star greedy class) (mkState (c :: pre) rest caps) st' ->
      Matches (Star greedy class) (mkState pre (c :: rest) caps) st'
  | M_Group n r st st' :
      Matches r st st' -> Matches (Group n r) st (capture n st st')
  | M_Lookahead r st st' :
      Matches r st st' ->
      Matches (Lookahead r) st (mkState (pre st) (rest st) (caps st'))
  | M_WordBoundary st :
      xorb (headIsWord (pre st)) (headIsWord (rest st)) = true ->
      Matches WordBoundary st st
  | M_LineStart st : headIsLineTerminator (pre st) = true -> Matches LineStart st st
  | M_InputEnd st : rest st = [] -> Matches InputEnd st st
  | M_LineEnd st : headIsLineTerminator (rest st) = true -> Matches LineEnd st st.



End Regex.

(* ===================================================================== *)
(** ** Splitting a document into sections *)
(* ===================================================================== *)

Module Sections.
Import JsString Regex.

(** [s.split(r)] for a pattern without groups and no limit, from a
    position on. [piece] holds, the latest first, the code units since the
    last split; [skip] is the number of code units of a match still to
    pass. A match that ends where the piece starts splits nothing, and the
    search goes on one code unit later. *)
Fixpoint splitFrom (r : regex) (pre rest : list N) (piece : list N) (skip : nat)
    : list jsstring :=
  match rest with
  | [] => [rev piece]
  | c :: rest' =>
      match skip with
      | S skip' => splitFrom r (c :: pre) rest' piece skip'
      | O =>
          match matchHere r pre rest with
          | None => splitFrom r (c :: pre) rest' (c :: piece) 0
          | Some m =>
              match length (matched m), piece with
              | O, [] => splitFrom r (c :: pre) rest' [c] 0
              | O, _ :: _ => rev piece :: splitFrom r (c :: pre) rest' [c] 0
              | S skip', _ => rev piece :: splitFrom r (c :: pre) rest' [] skip'
              end
          end
      end
  end.

(** [s.split(r)]: the empty string gives no piece when the pattern matches
    it and the empty string otherwise. *)
Definition split (r : regex) (s : jsstring) : list jsstring :=
  match s with
  | [] => match matchHere r [] [] with Some _ => [] | None => [[]] end
  | _ :: _ => splitFrom r [] s [] 0
  end.

(** [/(?=^#{2,}\s)/m] *)
Definition sectionBreak : regex :=
  Lookahead (seqAll [ LineStart; Char (exactly 35); Char (exactly 35);
                      Star true (exactly 35); Char isWhiteSpace ]).

(** [chunkBySection] of [chunker.ts]. *)
Definition chunkBySection (text : jsstring) : list jsstring :=
  List.filter (fun s => (0 <? length s)%nat)
              (List.map trim (split sectionBreak text)).

End Sections.

(* ===================================================================== *)
(** ** The parser of compiler output *)
(* ===================================================================== *)

Module Judge0.
Import JsString JsNumber Regex.

(** [CompilerMessage]: [type] is ['warning'] or ['error'] by its type
    annotation; it is kept as the string the code puts there. *)
Record CompilerMessage : Type := mkMessage {
  type : jsstring;
  line : option Number;
  column : option Number;
  message : jsstring }.

Record ParsedOutput : Type := mkParsed {
  warnings : list CompilerMessage;
  errors : list CompilerMessage }.

(** The class [[\w./]]. *)
Definition isPathChar (c : N) : bool :=
  (isWordChar c || (c =? 46) || (c =? 47))%N.

(** [/(?:[\w./]+):(\d+):(\d+):\s*(warning|error):\s*(.+?)(?=\n|$)/gi] *)
Definition gccMessage : regex :=
  seqAll [ plus true isPathChar; text ":";
           Group 1 (plus true isDigit); text ":";
           Group 2 (plus true isDigit); text ":";
           Star true isWhiteSpace;
           Group 3 (Alt (textNoCase "warning") (textNoCase "error")); text ":";
           Star true isWhiteSpace;
           Group 4 (plus false isDot);
           Lookahead (Alt (Char (exactly 10)) InputEnd) ].

(** The value of a string of decimal digits. *)
Definition digitsValue (digits : jsstring) : Z :=
  foldl (fun acc c => 10 * acc + (Z.of_N c - 48)) 0 digits.

Fixpoint takeWhile (p : N -> bool) (s : jsstring) : jsstring :=
  match s with
  | c :: rest => if p c then c :: takeWhile p rest else []
  | [] => []
  end.

(** [parseInt(s, 10)]: leading white space and a sign are skipped, the
    longest prefix of digits is read, and the result is NaN ([None]) when
    there is no digit. The result is a Number: the value of the digits
    rounded to a double, which is that value up to 2^53. *)
Definition parseInt (s : jsstring) : option Number :=
  let s := trimStart s in
  let '(negative, s) :=
    match s with
    | 45%N :: s' => (true, s')
    | 43%N :: s' => (false, s')
    | _ => (false, s)
    end in
  match takeWhile isDigit s with
  | [] => None
  | digits =>
      Some (roundToDouble (if negative : bool then - digitsValue digits
                           else digitsValue digits))
  end.

(** [toLowerCase] on ASCII letters. No other code unit becomes a letter of
    ['warning'] or ['error'] when put in lower case, so the code units
    outside ASCII are left as they are. *)
Definition toLowerCase (s : jsstring) : jsstring := List.map asciiLower s.

(** [s.split('\n')[0]]. *)
Definition firstLine (s : jsstring) : jsstring :=
  takeWhile (fun c => negb (c =? 10)%N) s.

(** The body of the [while] loop for one match. *)
Definition pushMatch (acc : ParsedOutput) (m : MatchResult) : ParsedOutput :=
  let lineStr := default [] (group 1 m) in
  let colStr := default [] (group 2 m) in
  let type := default [] (group 3 m) in
  let message := default [] (group 4 m) in
  let compilerMessage :=
    mkMessage (toLowerCase type) (parseInt lineStr) (parseInt colStr) (trim message) in
  if bool_decide (toLowerCase type = lit "warning")
  then mkParsed (warnings acc ++ [compilerMessage]) (errors acc)
  else mkParsed (warnings acc) (errors acc ++ [compilerMessage]).

(** [parseCompilerOutput]; [None] when the [while] loop never ends. *)
Definition parseCompilerOutput (output : jsstring) : option ParsedOutput :=
  ms ← execLoop gccMessage output;
  let parsed := foldl pushMatch (mkParsed [] []) ms in
  if bool_decide (errors parsed = []) && bool_decide (warnings parsed = [])
     && negb (bool_decide (trim output = []))
  then
    if includes (toLowerCase output) (lit "error")
    then Some (mkParsed (warnings parsed)
                        (errors parsed ++
                           [mkMessage (lit "error") None None (firstLine (trim output))]))
    else Some parsed
  else Some parsed.

(** *** Vocabulary of the statements *)

(** The record the loop pushes for a match. *)
Definition messageOf (m : MatchResult) : CompilerMessage :=
  mkMessage (toLowerCase (default [] (group 3 m)))
            (parseInt (default [] (group 1 m)))
            (parseInt (default [] (group 2 m)))
            (trim (default [] (group 4 m))).

Definition isWarning (m : MatchResult) : bool :=
  bool_decide (toLowerCase (default [] (group 3 m)) = lit "warning").

(** A non-empty string of decimal digits. *)
Definition isNumeral (s : jsstring) : Prop :=
  s <> [] /\ Forall (fun c => isDigit c = true) s.

(** What every match of [gccMessage] is: it is not empty and it captured a
    line numeral, a column numeral, the word warning or error in some case,
    and a message. *)
Definition structured (m : MatchResult) : Prop :=
  matched m <> []
  /\ exists lineStr colStr type message,
       groups m = [(4%nat, message); (3%nat, type); (2%nat, colStr); (1%nat, lineStr)]
       /\ isNumeral lineStr /\ isNumeral colStr
       /\ (toLowerCase type = lit "warning" \/ toLowerCase type = lit "error").





(** The general error of the fallback, for a message. *)
Definition generalError (message : jsstring) : ParsedOutput :=
  mkParsed [] [mkMessage (lit "error") None None message].


(** *** Sample data *)





End Judge0.

(* ===================================================================== *)
(** ** The code validator of the compiler service *)
(* ===================================================================== *)

Module Validation.
Import JsString Regex.

Inductive CompilerErrorCode : Type :=
  | VALIDATION_FAILED | COMPILE_TIMEOUT | EXECUTE_TIMEOUT | API_ERROR
  | RATE_LIMITED | UNSUPPORTED_STANDARD | FORBIDDEN_CODE.

#[global] Instance CompilerErrorCode_eq_dec : EqDecision CompilerErrorCode.
Proof. solve_decision. Defined.

Record CompilerError : Type := mkError {
  errorMessage : string;
  code : CompilerErrorCode }.

Definition MAX_CODE_LENGTH : Z := 100000.

Definition spaces : regex := Star true isWhiteSpace.

(** [/#include\s*<\s*HEADER/i], to be closed by the pattern's own end. *)
Definition includeOf (header : list regex) : regex :=
  seqAll ([textNoCase "#include"; spaces; textNoCase "<"; spaces] ++ header).

(** [/\bNAME\s*\(/]. *)
Definition callOf (name : string) : regex :=
  seqAll [WordBoundary; text name; spaces; text "("].

Definition FORBIDDEN_PATTERNS : list (regex * string) :=
  [ (* /#include\s*<\s*fstream\s*>/i *)
    (includeOf [textNoCase "fstream"; spaces; textNoCase ">"],
     "File stream operations are not allowed for security");
    (* /#include\s*<\s*filesystem\s*>/i *)
    (includeOf [textNoCase "filesystem"; spaces; textNoCase ">"],
     "Filesystem operations are not allowed for security");
    (* /#include\s*<\s*sys\//i *)
    (includeOf [textNoCase "sys/"],
     "System headers are not allowed for security");
    (* /#include\s*<\s*unistd\.h\s*>/i *)
    (includeOf [textNoCase "unistd.h"; spaces; textNoCase ">"],
     "Unix system calls are not allowed for security");
    (* /#include\s*<\s*windows\.h\s*>/i *)
    (includeOf [textNoCase "windows.h"; spaces; textNoCase ">"],
     "Windows system calls are not allowed for security");
    (* /\bsystem\s*\(/ *)
    (callOf "system", "system() calls are not allowed for security");
    (* /\bexecl?\s*\(/ *)
    (seqAll [WordBoundary; text "exec"; optional (text "l"); spaces; text "("],
     "exec() calls are not allowed for security");
    (* /\bexeclp\s*\(/ *)
    (callOf "execlp", "execlp() calls are not allowed for security");
    (* /\bexecv\s*\(/ *)
    (callOf "execv", "execv() calls are not allowed for security");
    (* /\bexecvp\s*\(/ *)
    (callOf "execvp", "execvp() calls are not allowed for security");
    (* /\bfork\s*\(/ *)
    (callOf "fork", "fork() calls are not allowed for security");
    (* /\bpopen\s*\(/ *)
    (callOf "popen", "popen() calls are not allowed for security");
    (* /__asm\b/ *)
    (seqAll [text "__asm"; WordBoundary],
     "Inline assembly is not allowed for security");
    (* /\basm\s*\(/ *)
    (callOf "asm", "Assembly blocks are not allowed for security");
    (* /#pragma\s+comment\s*\(\s*lib/i *)
    (seqAll [textNoCase "#pragma"; plus true isWhiteSpace; textNoCase "comment";
             spaces; textNoCase "("; spaces; textNoCase "lib"],
     "Library pragma directives are not allowed");
    (* /\bsocket\s*\(/ *)
    (callOf "socket", "Network socket operations are not allowed");
    (* /\bconnect\s*\(/ *)
    (callOf "connect", "Network connect operations are not allowed");
    (* /\bbind\s*\(/ *)
    (callOf "bind", "Network bind operations are not allowed");
    (* /\blisten\s*\(/ *)
    (callOf "listen", "Network listen operations are not allowed") ].

Definition WARNING_PATTERNS : list (regex * string) :=
  [ (* /\bgoto\b/ *)
    (seqAll [WordBoundary; text "goto"; WordBoundary],
     "Using goto statement - consider using structured control flow");
    (* /\bvoid\s*\*\s*\w+\s*=/ *)
    (seqAll [WordBoundary; text "void"; spaces; text "*"; spaces;
             plus true isWordChar; spaces; text "="],
     "Using void pointer - consider using typed pointers or templates");
    (* /\bmalloc\s*\(/ *)
    (callOf "malloc",
     "Using malloc - consider using new or smart pointers in modern C++");
    (* /\bfree\s*\(/ *)
    (callOf "free",
     "Using free - consider using delete or smart pointers in modern C++");
    (* /\bNULL\b/ *)
    (seqAll [WordBoundary; text "NULL"; WordBoundary],
     "Using NULL - consider using nullptr in modern C++") ].

Record ValidationResult : Type := mkValidation {
  valid : bool;
  error : option string;
  errorCode : option CompilerErrorCode;
  warnings : list string }.

(** The reason of the first forbidden pattern the code matches. *)
Fixpoint firstForbidden (patterns : list (regex * string)) (code : jsstring)
    : option string :=
  match patterns with
  | [] => None
  | (pattern, reason) :: patterns' =>
      if test pattern code then Some reason else firstForbidden patterns' code
  end.

(** The loop over the warning patterns: the warning of each pattern the
    code matches is pushed. *)
Definition collectWarnings (patterns : list (regex * string)) (code : jsstring)
    : list string :=
  foldl (fun warnings pw =>
           if test (fst pw) code then warnings ++ [snd pw] else warnings)
        [] patterns.

Definition validateCode (code : jsstring) : ValidationResult :=
  if bool_decide (code = []) || bool_decide (length (trim code) = 0%nat) then
    mkValidation false (Some "Code cannot be empty") (Some VALIDATION_FAILED) []
  else if MAX_CODE_LENGTH <? Z.of_nat (length code) then
    mkValidation false
      (Some ("Code exceeds maximum length of " +:+ pretty MAX_CODE_LENGTH
             +:+ " characters"))
      (Some VALIDATION_FAILED) []
  else
    match firstForbidden FORBIDDEN_PATTERNS code with
    | Some reason => mkValidation false (Some reason) (Some FORBIDDEN_CODE) []
    | None => mkValidation true None None (collectWarnings WARNING_PATTERNS code)
    end.

(** [/^#!.*$/gm] *)
Definition shebangLine : regex :=
  seqAll [LineStart; text "#!"; Star true isDot; LineEnd].

(** [.replace(/\r\n/g, '\n')] *)
Fixpoint replaceCRLF (s : jsstring) : jsstring :=
  match s with
  | c :: rest =>
      match rest with
      | d :: rest' =>
          if ((c =? 13) && (d =? 10))%N then 10%N :: replaceCRLF rest'
          else c :: replaceCRLF rest
      | [] => [c]
      end
  | [] => []
  end.

(** [.replace(/\r/g, '\n')] *)
Definition replaceCR (s : jsstring) : jsstring :=
  List.map (fun c => if (c =? 13)%N then 10%N else c) s.

Definition sanitizeCode (code : jsstring) : jsstring :=
  let sanitized := replaceAll shebangLine (lit "// [removed shebang]") code in
  replaceCR (replaceCRLF sanitized).

Record Prepared : Type := mkPrepared {
  preparedCode : jsstring;
  preparedWarnings : list string }.

(** A string in [a || b]: the empty string is falsy. *)
Definition orElse (s : option string) (fallback : string) : string :=
  match s with
  | Some s => if decide (s = "") then fallback else s
  | None => fallback
  end.

(** [prepareCode]: the [CompilerError] it throws, or what it returns. *)
Definition prepareCode (code : jsstring) : CompilerError + Prepared :=
  let sanitized := sanitizeCode code in
  let validation := validateCode sanitized in
  if negb (valid validation) then
    inl (mkError (orElse (error validation) "Validation failed")
                 (default VALIDATION_FAILED (errorCode validation)))
  else inr (mkPrepared sanitized (warnings validation)).

(** The status the [catch] of the compile and execute routes gives a
    [CompilerError]. *)
Definition statusOfCompilerError (e : CompilerError) : Z :=
  if decide (code e = RATE_LIMITED) then 429
  else if decide (code e = FORBIDDEN_CODE) then 400
  else if decide (code e = VALIDATION_FAILED) then 400
  else 500.

(** [prepareCode(code)] inside the [try] of the routes: the status of the
    response when it throws, the prepared code to go on with otherwise. *)
Definition prepareInRoute (code : jsstring) : Z + Prepared :=
  match prepareCode code with
  | inl e => inl (statusOfCompilerError e)
  | inr prepared => inr prepared
  end.

(** *** Vocabulary of the statements *)

Definition emptyOrWhitespace (code : jsstring) : Prop := trim code = [].

Definition tooLong (code : jsstring) : Prop :=
  MAX_CODE_LENGTH < Z.of_nat (length code).

Definition matchesForbidden (code : jsstring) : Prop :=
  Exists (fun pattern => test (fst pattern) code = true) FORBIDDEN_PATTERNS.

(** The warnings of the warning patterns the code matches, in the order of
    the patterns. *)
Definition styleWarnings (code : jsstring) : list string :=
  snd <$> List.filter (fun pw => test (fst pw) code) WARNING_PATTERNS.

(** The code of the error [prepareCode] throws, if it throws. *)
Definition thrownCode (r : CompilerError + Prepared) : option CompilerErrorCode :=
  match r with
  | inl e => Some (code e)
  | inr _ => None
  end.

(** *** The choice of the compiler provider *)

(** A provider as its constructor leaves it: [new WandboxProvider(timeout)]
    and [new Judge0Provider(apiKey, baseUrl, timeout)]. *)
Inductive CompilerProvider : Type :=
  | newWandboxProvider (timeout : Z)
  | newJudge0Provider (apiKey baseUrl : string) (timeout : Z).

Record CompilerConfig : Type := mkConfig {
  provider : string;
  apiKey : option string;
  baseUrl : option string;
  timeout : option Z }.

(** The two constructors: the default of a parameter replaces undefined,
    [||] replaces every falsy value. *)
Definition WandboxProvider (timeout : option Z) : CompilerProvider :=
  newWandboxProvider (default 30000 timeout).

Definition Judge0Provider (apiKey : string) (baseUrl : option string)
    (timeout : option Z) : CompilerProvider :=
  newJudge0Provider apiKey (orElse baseUrl "https://judge0-ce.p.rapidapi.com")
                    (match timeout with
                     | Some t => if t =? 0 then 30000 else t
                     | None => 30000
                     end).

(** [createCompilerProvider]: the provider, or the message of the [Error]
    it throws. *)
Definition createCompilerProvider (config : CompilerConfig)
    : CompilerProvider + string :=
  if decide (provider config = "wandbox") then inl (WandboxProvider (timeout config))
  else if decide (provider config = "judge0") then
    match apiKey config with
    | Some key =>
        if decide (key = "") then inr "Judge0 API key is required"
        else inl (Judge0Provider key (baseUrl config) (timeout config))
    | None => inr "Judge0 API key is required"
    end
  else if decide (provider config = "godbolt")
  then inr "Godbolt provider not yet implemented"
  else if decide (provider config = "docker")
  then inr "Docker provider not yet implemented"
  else inr ("Unknown compiler provider: " +:+ provider config).

(** [getDefaultCompilerProvider]; [env] is [process.env], and [None] is the
    null of the return type. *)
Definition getDefaultCompilerProvider (env : gmap string string)
    : option CompilerProvider :=
  let provider := orElse (env !! "COMPILER_PROVIDER") "wandbox" in
  if decide (provider = "wandbox") then Some (WandboxProvider None)
  else if decide (provider = "judge0") then
    let apiKey := env !! "JUDGE0_API_KEY" in
    let baseUrl := env !! "JUDGE0_BASE_URL" in
    match apiKey with
    | Some key =>
        if decide (key = "") then Some (WandboxProvider None)
        else Some (Judge0Provider key baseUrl None)
    | None => Some (WandboxProvider None)
    end
  else Some (WandboxProvider None).

End Validation.

(* ===================================================================== *)
(** ** The compiler providers *)
(* ===================================================================== *)

(** The results of [types.ts], as the providers build them. *)
Module CompilerTypes.
Import JsString JsNumber.

Inductive Status : Type := success | error | timeout | runtime_error.

#[global] Instance Status_eq_dec : EqDecision Status.
Proof. solve_decision. Defined.

(** [ExecuteResult['runResult']]; a run time of [None] is NaN. *)
Record RunResult : Type := mkRunResult {
  runStatus : Status;
  runStdout : jsstring;
  runStderr : jsstring;
  runExitCode : Number;
  runTimeMs : option Q;
  memoryUsedKb : option Z }.

(** [CompileResult], and [ExecuteResult] with its optional [runResult]. *)
Record CompileResult : Type := mkCompileResult {
  status : Status;
  exitCode : Z;
  stdout : jsstring;
  stderr : jsstring;
  compileTimeMs : Z;
  warnings : list Judge0.CompilerMessage;
  errors : list Judge0.CompilerMessage;
  runResult : option RunResult }.

(** What a call of a provider does: it returns, throws a [CompilerError],
    or (in the model only) its parser's loop does not end. *)
Inductive Raised (A : Type) : Type :=
  | Result (a : A)
  | Throws (e : Validation.CompilerError)
  | Unfinished.
Arguments Result {A} a.
Arguments Throws {A} e.
Arguments Unfinished {A}.

(** [a || b] on strings: null, undefined and the empty string are falsy. *)
Definition orString (a : option jsstring) (b : jsstring) : jsstring :=
  match a with
  | Some (c :: s) => c :: s
  | _ => b
  end.

(** [error instanceof Error ? error.message : 'Unknown error'], for a thrown
    value that is not a [CompilerError], kept as its message if it is an
    [Error]. *)
Definition messageOfThrown (thrown : option string) : string :=
  default "Unknown error" thrown.

End CompilerTypes.

(* ===================================================================== *)
(** ** The Wandbox provider *)
(* ===================================================================== *)

Module Wandbox.
Import JsString JsNumber Regex CompilerTypes.
Import Judge0 (CompilerMessage, mkMessage, ParsedOutput, mkParsed, parseInt, toLowerCase).

Record WandboxResponse : Type := mkResponse {
  responseStatus : option jsstring;
  signal : option jsstring;
  compiler_output : option jsstring;
  compiler_error : option jsstring;
  compiler_message : option jsstring;
  program_output : option jsstring;
  program_error : option jsstring;
  program_message : option jsstring }.

(** [/^(?:.*?):(\d+):(\d+):\s*(warning|error):\s*(.+)$/gm] *)
Definition lineRegex : regex :=
  seqAll [ LineStart; Star false isDot; text ":";
           Group 1 (plus true isDigit); text ":";
           Group 2 (plus true isDigit); text ":";
           Star true isWhiteSpace;
           Group 3 (Alt (text "warning") (text "error")); text ":";
           Star true isWhiteSpace;
           Group 4 (plus true isDot);
           LineEnd ].

(** The body of the [while] loop for one match. The line and the column
    are the values of [parseInt], which is never NaN on digits. *)
Definition pushMatch (acc : ParsedOutput) (m : MatchResult) : ParsedOutput :=
  let line := default [] (group 1 m) in
  let column := default [] (group 2 m) in
  let type := default [] (group 3 m) in
  let message := default [] (group 4 m) in
  let compilerMessage :=
    mkMessage type (parseInt line) (parseInt column) (trim message) in
  if bool_decide (type = lit "warning")
  then mkParsed (Judge0.warnings acc ++ [compilerMessage]) (Judge0.errors acc)
  else mkParsed (Judge0.warnings acc) (Judge0.errors acc ++ [compilerMessage]).

(** [parseCompilerOutput]; [None] when the [while] loop never ends. *)
Definition parseCompilerOutput (output : jsstring) : option ParsedOutput :=
  if bool_decide (output = []) then Some (mkParsed [] []) else
  ms ← execLoop lineRegex output;
  let parsed := foldl pushMatch (mkParsed [] []) ms in
  if bool_decide (Judge0.errors parsed = [])
     && includes (toLowerCase output) (lit "error")
  then Some (mkParsed (Judge0.warnings parsed)
                      (Judge0.errors parsed ++
                         [mkMessage (lit "error") None None
                                    (slice (trim output) 0 500)]))
  else Some parsed.

Definition parseCompileResult (response : WandboxResponse) (compileTimeMs : Z)
    : option CompileResult :=
  let compilerOutput :=
    orString (compiler_output response) (orString (compiler_message response) []) in
  let compilerError := orString (compiler_error response) [] in
  parsed ← parseCompilerOutput (compilerOutput ++ compilerError);
  let hasCompileError :=
    negb (bool_decide (Judge0.errors parsed = []))
    || includes compilerError (lit "error:") in
  Some (mkCompileResult (if hasCompileError then error else success)
                        (if hasCompileError then 1 else 0)
                        compilerOutput compilerError compileTimeMs
                        (Judge0.warnings parsed) (Judge0.errors parsed) None).

Definition parseRunResult (response : WandboxResponse) : RunResult :=
  let stdout := orString (program_output response) [] in
  let stderr := orString (program_error response) [] in
  let rawStatus := orString (responseStatus response) (lit "0") in
  let exitCode := parseInt rawStatus in
  let normalizedExitCode := default (Finite 0) exitCode in
  let hasSignal :=
    match signal response with
    | Some s => (0 <? length s)%nat
    | None => false
    end in
  let hasRuntimeError :=
    negb (bool_decide (normalizedExitCode = Finite 0)) || hasSignal in
  mkRunResult (if hasRuntimeError then runtime_error else success)
              stdout stderr normalizedExitCode (Some 0%Q) None.

(** What [callWandboxApi] comes to: the response of the service, a status
    that is not ok, the abort of the request by the timer, or another
    thrown value. *)
Inductive ApiAnswer : Type :=
  | Answered (response : WandboxResponse)
  | NotOk (httpStatus : Z)
  | Aborted
  | Threw (thrown : option string).

(** [callWandboxApi] followed by the [catch] of [compile] and [execute]:
    the response, or the [CompilerError] thrown. *)
Definition callWandboxApi (answer : ApiAnswer)
    : WandboxResponse + Validation.CompilerError :=
  match answer with
  | Answered response => inl response
  | NotOk httpStatus =>
      inr (Validation.mkError ("Wandbox API returned status " +:+ pretty httpStatus)
                              Validation.API_ERROR)
  | Aborted => inr (Validation.mkError "Compilation timed out" Validation.COMPILE_TIMEOUT)
  | Threw thrown =>
      inr (Validation.mkError ("Wandbox API error: " +:+ messageOfThrown thrown)
                              Validation.API_ERROR)
  end.

(** [compile]; [startTime] and [endTime] are the two values of
    [Date.now()]. *)
Definition compile (answer : ApiAnswer) (startTime endTime : Z)
    : Raised CompileResult :=
  match callWandboxApi answer with
  | inr e => Throws e
  | inl response =>
      match parseCompileResult response (endTime - startTime) with
      | Some result => Result result
      | None => Unfinished
      end
  end.

(** [execute]. *)
Definition execute (answer : ApiAnswer) (startTime endTime : Z)
    : Raised CompileResult :=
  match callWandboxApi answer with
  | inr e => Throws e
  | inl response =>
      match parseCompileResult response (endTime - startTime) with
      | None => Unfinished
      | Some compileResult =>
          if bool_decide (status compileResult = error) then Result compileResult
          else
            Result (mkCompileResult (status compileResult) (exitCode compileResult)
                      (stdout compileResult) (stderr compileResult)
                      (compileTimeMs compileResult) (warnings compileResult)
                      (errors compileResult) (Some (parseRunResult response)))
      end
  end.

(** *** Vocabulary of the statements *)

(** The text of the compiler that [parseCompileResult] parses. *)
Definition compilerText (response : WandboxResponse) : jsstring :=
  orString (compiler_output response) (orString (compiler_message response) [])
  ++ orString (compiler_error response) [].

(** A text that contains the word error, in whatever case. *)
Definition mentionsError (text : jsstring) : bool :=
  includes (toLowerCase text) (lit "error").

(** The record the loop pushes for a match. *)
Definition messageOf (m : MatchResult) : CompilerMessage :=
  mkMessage (default [] (group 3 m))
            (parseInt (default [] (group 1 m)))
            (parseInt (default [] (group 2 m)))
            (trim (default [] (group 4 m))).

Definition isWarning (m : MatchResult) : bool :=
  bool_decide (default [] (group 3 m) = lit "warning").

End Wandbox.

(* ===================================================================== *)
(** ** The Judge0 provider *)
(* ===================================================================== *)

Module Judge0Provider.
Import JsString JsNumber Regex CompilerTypes.

(** [STATUS]. *)
Definition IN_QUEUE : Z := 1.
Definition PROCESSING : Z := 2.
Definition ACCEPTED : Z := 3.
Definition WRONG_ANSWER : Z := 4.
Definition TIME_LIMIT_EXCEEDED : Z := 5.
Definition COMPILATION_ERROR : Z := 6.
Definition RUNTIME_ERROR_SIGSEGV : Z := 7.
Definition RUNTIME_ERROR_OTHER : Z := 12.

Record Judge0Submission : Type := mkSubmission {
  source_code : jsstring;
  language_id : Z;
  submittedStdin : option jsstring;
  compiler_options : jsstring;
  cpu_time_limit : Q;
  memory_limit : Z }.

(** [Judge0Result]; [statusId] is [status.id]. *)
Record Judge0Result : Type := mkJudge0Result {
  token : string;
  resultStdout : option jsstring;
  resultStderr : option jsstring;
  compile_output : option jsstring;
  resultMessage : option jsstring;
  statusId : Z;
  time : option jsstring;
  memory : option Z }.

(** [CompileRequest] and [ExecuteRequest]; the two timeouts are taken to
    be whole numbers of milliseconds. *)
Record ExecuteRequest : Type := mkRequest {
  code : jsstring;
  cppStandard : Diff.CppVersionId;
  compilerFlags : option (list jsstring);
  requestTimeout : option Z;
  requestStdin : option jsstring;
  runTimeout : option Z }.

(** What the two requests of [submitAndWait] come to: a response that is
    ok, one that is not, or a thrown value that is no [CompilerError]. *)
Inductive SubmitAnswer : Type :=
  | Accepted (token : string)
  | Refused (httpStatus : Z) (errorText : string)
  | SubmitThrew (thrown : option string).

Inductive PollAnswer : Type :=
  | Polled (result : Judge0Result)
  | PollNotOk
  | PollThrew (thrown : option string).

(** What [submitAndWait] does: it returns a result, throws a
    [CompilerError], or lets another thrown value through. *)
Inductive Waited : Type :=
  | Finished (result : Judge0Result)
  | Raise (e : Validation.CompilerError)
  | RaiseOther (thrown : option string).

(** [parts.join(separator)]. *)
Definition join (separator : jsstring) (parts : list jsstring) : jsstring :=
  match parts with
  | [] => []
  | part :: rest => foldl (fun acc next => acc ++ separator ++ next) part rest
  end.

(** [a || b] on numbers: undefined and 0 are falsy. *)
Definition orNumber (a : option Z) (b : Z) : Z :=
  match a with
  | Some n => if n =? 0 then b else n
  | None => b
  end.

Section Provider.

(** [CPP_STANDARD_FLAGS] of [types.ts], the two directions of
    [Buffer]'s base64 conversion, [parseFloat], whose NaN is [None], and
    the rounding of a product to a double. *)
Variable CPP_STANDARD_FLAGS : Diff.CppVersionId -> option jsstring.
Variable toBase64 fromBase64 : jsstring -> jsstring.
Variable parseFloat : jsstring -> option Q.
Variable fl : Q -> Q.

(** [this.timeout], and the service: the answer to a submission and to
    each poll, by the number of the attempt. *)
Variable providerTimeout : Z.
Variable submit : Judge0Submission -> SubmitAnswer.
Variable polls : nat -> PollAnswer.

(** [value ? Buffer.from(value, 'base64').toString('utf-8') : null] *)
Definition decoded (value : option jsstring) : option jsstring :=
  match value with
  | Some (c :: s) => Some (fromBase64 (c :: s))
  | _ => None
  end.

(** The [for (let attempt = 0; attempt < maxAttempts; attempt++)] loop,
    with [remaining] attempts to go. *)
Fixpoint pollLoop (attempt remaining : nat) : Waited :=
  match remaining with
  | O =>
      Raise (Validation.mkError "Compilation timed out" Validation.COMPILE_TIMEOUT)
  | S remaining' =>
      match polls attempt with
      | PollThrew thrown => RaiseOther thrown
      | PollNotOk =>
          Raise (Validation.mkError "Failed to get submission result"
                                    Validation.API_ERROR)
      | Polled result =>
          if negb (statusId result =? IN_QUEUE) && negb (statusId result =? PROCESSING)
          then Finished (mkJudge0Result (token result)
                           (decoded (resultStdout result))
                           (decoded (resultStderr result))
                           (decoded (compile_output result))
                           (resultMessage result) (statusId result)
                           (time result) (memory result))
          else pollLoop (S attempt) remaining'
      end
  end.

Definition submitAndWait (submission : Judge0Submission) : Waited :=
  match submit submission with
  | SubmitThrew thrown => RaiseOther thrown
  | Refused httpStatus errorText =>
      if httpStatus =? 429
      then Raise (Validation.mkError "Rate limit exceeded" Validation.RATE_LIMITED)
      else Raise (Validation.mkError ("Judge0 API error: " +:+ errorText)
                                     Validation.API_ERROR)
  | Accepted _ => pollLoop 0 30
  end.

Definition parseCompileResult (result : Judge0Result) (compileTimeMs : Z)
    : option CompileResult :=
  let isCompileError := statusId result =? COMPILATION_ERROR in
  let compileOutput := orString (compile_output result) [] in
  parsed ← Judge0.parseCompilerOutput compileOutput;
  Some (mkCompileResult (if isCompileError then error else success)
                        (if isCompileError then 1 else 0)
                        (orString (resultStdout result) [])
                        compileOutput compileTimeMs
                        (Judge0.warnings parsed) (Judge0.errors parsed) None).

Definition parseRunResult (result : Judge0Result) : RunResult :=
  let statusId := statusId result in
  let status :=
    if statusId =? TIME_LIMIT_EXCEEDED then timeout
    else if (RUNTIME_ERROR_SIGSEGV <=? statusId) && (statusId <=? RUNTIME_ERROR_OTHER)
    then runtime_error
    else if negb (statusId =? ACCEPTED) && negb (statusId =? WRONG_ANSWER) then error
    else success in
  mkRunResult status
              (orString (resultStdout result) [])
              (orString (resultStderr result) (orString (resultMessage result) []))
              (if bool_decide (status = success) then 0 else 1)
              (match time result with
               | Some (c :: s) =>
                   (fun seconds => fl (seconds * 1000)%Q) <$> parseFloat (c :: s)
               | _ => Some 0%Q
               end)
              (match memory result with
               | Some kb => if kb =? 0 then None else Some kb
               | None => None
               end).

(** The options of a submission, before [-fsyntax-only] when there is one. *)
Definition flagsOf (request : ExecuteRequest) : jsstring :=
  orString (CPP_STANDARD_FLAGS (cppStandard request)) (lit "-std=c++17")
  ++ lit " " ++ orString (join (lit " ") <$> compilerFlags request) [].

(** The submission of [compile]. *)
Definition compileSubmission (request : ExecuteRequest) : Judge0Submission :=
  let compilerOptions := trim (flagsOf request ++ lit " -fsyntax-only -Wall -Wextra") in
  let code :=
    if negb (includes (code request) (lit "int main"))
    then code request ++ lit (String "010" "int main() { return 0; }")
    else code request in
  mkSubmission (toBase64 code) 54 None compilerOptions
               (inject_Z (orNumber (requestTimeout request) providerTimeout) / 1000)%Q
               256000.

(** The submission of [execute]. *)
Definition executeSubmission (request : ExecuteRequest) : Judge0Submission :=
  let compilerOptions := trim (flagsOf request ++ lit " -Wall -Wextra") in
  mkSubmission (toBase64 (code request)) 54
               (match requestStdin request with
                | Some (c :: s) => Some (toBase64 (c :: s))
                | _ => None
                end)
               compilerOptions
               (inject_Z (orNumber (runTimeout request) 10000) / 1000)%Q
               256000.

(** [compile]; [startTime] and [endTime] are the two values of
    [Date.now()]. *)
Definition compile (request : ExecuteRequest) (startTime endTime : Z)
    : Raised CompileResult :=
  match submitAndWait (compileSubmission request) with
  | Finished result =>
      match parseCompileResult result (endTime - startTime) with
      | Some compileResult => Result compileResult
      | None => Unfinished
      end
  | Raise e => Throws e
  | RaiseOther thrown =>
      Throws (Validation.mkError ("Compilation failed: " +:+ messageOfThrown thrown)
                                 Validation.API_ERROR)
  end.

(** [execute]. *)
Definition execute (request : ExecuteRequest) (startTime endTime : Z)
    : Raised CompileResult :=
  match submitAndWait (executeSubmission request) with
  | Finished result =>
      match parseCompileResult result (endTime - startTime) with
      | None => Unfinished
      | Some compileResult =>
          if negb (statusId result =? COMPILATION_ERROR) then
            Result (mkCompileResult (status compileResult) (exitCode compileResult)
                      (stdout compileResult) (stderr compileResult)
                      (compileTimeMs compileResult) (warnings compileResult)
                      (errors compileResult) (Some (parseRunResult result)))
          else Result compileResult
      end
  | Raise e => Throws e
  | RaiseOther thrown =>
      Throws (Validation.mkError ("Execution failed: " +:+ messageOfThrown thrown)
                                 Validation.API_ERROR)
  end.

End Provider.

(** *** Vocabulary of the statements *)

(** A poll that says the submission is still in the queue or running. *)
Definition pending (answer : PollAnswer) : Prop :=
  exists result,
    answer = Polled result
    /\ (statusId result = IN_QUEUE \/ statusId result = PROCESSING).

(** A service, for the examples: the submission is accepted, the first
    two polls find it in the queue and running, the third finds the
    verdict [verdict]. *)
Definition sampleSubmit (submission : Judge0Submission) : SubmitAnswer :=
  Accepted "token-1".

Definition samplePolls (verdict : Z) (attempt : nat) : PollAnswer :=
  Polled (mkJudge0Result "token-1" None None None None
            (match attempt with
             | 0%nat => IN_QUEUE
             | 1%nat => PROCESSING
             | _ => verdict
             end)
            None None).

End Judge0Provider.

(* ===================================================================== *)
(** ** The upload route: processing the files of a job *)
(* ===================================================================== *)

Module Upload.
Import JobManager.

(** What [parseFile] followed by [processor.ingestDocument] gives for a
    file: the result of the ingestion, or the message the [catch] of the
    loop reports. *)
Inductive IngestOutcome : Type :=
  | Ingested (documentId : string) (chunksCreated totalTokens : nat)
  | Failed (message : string).

(** An uploaded [File], as far as the processing reads it. *)
Record UploadedFile : Type := mkUpload {
  name : string;
  ingestion : IngestOutcome }.

(** The update of the file's entry after its ingestion. *)
Definition settledUpdate (outcome : IngestOutcome) : FileUpdate :=
  match outcome with
  | Ingested documentId chunksCreated totalTokens =>
      mkUpdate None (Some completed) (Some documentId) (Some chunksCreated)
               (Some totalTokens) None
  | Failed message =>
      mkUpdate None (Some failed) None None None (Some message)
  end.

(** The [for (const file of files)] loop over a ready processor. [clock]
    gives the time of each call of the manager, [tick] counts the calls. *)
Fixpoint processEach (jobId : string) (files : list UploadedFile)
    (clock : nat -> Z) (tick : nat) (jobs : gmap string UploadJob)
    : gmap string UploadJob * nat :=
  match files with
  | [] => (jobs, tick)
  | file :: rest =>
      let jobs1 :=
        updateFileStatus jobId (name file)
          (mkUpdate None (Some processing) None None None None) (clock tick) jobs in
      let jobs2 :=
        updateFileStatus jobId (name file) (settledUpdate (ingestion file))
          (clock (S tick)) jobs1 in
      processEach jobId rest clock (S (S tick)) jobs2
  end.

(** The loop of the [catch] branch: every file is marked failed. *)
Fixpoint failEach (jobId : string) (files : list UploadedFile)
    (clock : nat -> Z) (tick : nat) (jobs : gmap string UploadJob)
    : gmap string UploadJob * nat :=
  match files with
  | [] => (jobs, tick)
  | file :: rest =>
      failEach jobId rest clock (S tick)
        (updateFileStatus jobId (name file)
           (mkUpdate None (Some failed) None None None
                     (Some "Failed to initialize processor"))
           (clock tick) jobs)
  end.

(** [processFilesInBackground], run without another request in between.
    [processorReady] is whether [getProcessor()] returned. *)
Definition processFilesInBackground (jobId : string) (files : list UploadedFile)
    (processorReady : bool) (clock : nat -> Z) (jobs : gmap string UploadJob)
    : gmap string UploadJob :=
  match getJob jobId jobs with
  | None => jobs
  | Some _ =>
      let jobs := updateJobStatus jobId processing (clock 0%nat) jobs in
      if processorReady then
        let '(jobs, tick) := processEach jobId files clock 1 jobs in
        updateJobStatus jobId completed (clock tick) jobs
      else
        let '(jobs, tick) := failEach jobId files clock 1 jobs in
        updateJobStatus jobId failed (clock tick) jobs
  end.

(** *** Vocabulary of the statements *)

(** The entry of a file once the loop is through with it, when no other
    file has its name. *)
Definition settledFile (processorReady : bool) (file : UploadedFile) : FileResult :=
  if processorReady then
    match ingestion file with
    | Ingested documentId chunksCreated totalTokens =>
        mkFile (name file) completed (Some documentId) (Some chunksCreated)
               (Some totalTokens) None
    | Failed message =>
        mkFile (name file) failed None None None (Some message)
    end
  else
    mkFile (name file) failed None None None (Some "Failed to initialize processor").

(** The entry [createJob] makes for a file name. *)
Definition pendingFile (filename : string) : FileResult :=
  mkFile filename pending None None None None.

(** What the loops keep of a job whose files were created with the names
    [names], of which the one at index [later] occurs before: the names,
    the number of files, the count of processed files, and the entry at
    [later], which stays as [createJob] made it. *)
Definition laterEntryPending (names : list string) (later : nat) (filename : string)
    (job : UploadJob) : Prop :=
  List.map JobManager.filename (files job) = names
  /\ files job !! later = Some (pendingFile filename)
  /\ length (files job) = totalFiles job
  /\ processedFiles job = length (List.filter isProcessed (files job)).

End Upload.

(* ===================================================================== *)
(** ** Properties of the rate limiter *)
(* ===================================================================== *)

Module RateLimitProps.
Import RateLimit.

Lemma checkRateLimit_fresh ip now (m : gmap string RateRecord) :
  opensWindow ip now m ->
  checkRateLimit ip now m = (<[ip := mkRate 1 (now + RATE_WINDOW)]> m, true).
Proof.
  unfold opensWindow, checkRateLimit.
  destruct (m !! ip) as [r|]; [|done].
  intros Hlt. apply Z.ltb_lt in Hlt. by rewrite Hlt.
Qed.

Lemma checkRateLimit_inside ip now (m : gmap string RateRecord) c R :
  m !! ip = Some (mkRate c R) -> now <= R ->
  checkRateLimit ip now m =
    if (RATE_LIMIT <=? c)%nat then (m, false)
    else (<[ip := mkRate (S c) R]> m, true).
Proof.
  intros Hm Hle. unfold checkRateLimit. rewrite Hm. simpl.
  destruct (R <? now) eqn:E; [apply Z.ltb_lt in E; lia | done].
Qed.

Lemma checkRateLimit_other ip ip' now (m : gmap string RateRecord) :
  ip' <> ip -> fst (checkRateLimit ip' now m) !! ip = m !! ip.
Proof.
  intros Hne. unfold checkRateLimit.
  destruct (m !! ip') as [r|]; cbn [fst].
  - destruct (resetAt r <? now); cbn [fst]; [by rewrite lookup_insert_ne|].
    destruct (RATE_LIMIT <=? count r)%nat; cbn [fst]; [done|].
    by rewrite lookup_insert_ne.
  - by rewrite lookup_insert_ne.
Qed.

(** Inside a window that already counts [c] requests, the next calls are
    accepted until the count reaches the limit. *)
Lemma runCalls_inside ip (times : list Z) :
  forall (m : gmap string RateRecord) c R,
  m !! ip = Some (mkRate c R) ->
  Forall (fun now => now <= R) times ->
  snd (runCalls ip times m) =
    replicate (Nat.min (length times) (RATE_LIMIT - c)) true ++
    replicate (length times - (RATE_LIMIT - c)) false
  /\ fst (runCalls ip times m) !! ip =
       Some (mkRate (Nat.max c (Nat.min (c + length times) RATE_LIMIT)) R).
Proof.
  induction times as [|now rest IH]; intros m c R Hm Hall.
  - simpl. split; [done|]. rewrite Hm. do 2 f_equal. lia.
  - apply Forall_cons in Hall as [Hnow Hrest]. cbn [runCalls].
    rewrite (checkRateLimit_inside _ _ _ _ _ Hm Hnow).
    destruct (RATE_LIMIT <=? c)%nat eqn:E.
    + apply Nat.leb_le in E.
      destruct (IH m c R Hm Hrest) as [IH1 IH2].
      destruct (runCalls ip rest m) as [m2 oks]. cbn [fst snd length] in *.
      replace (RATE_LIMIT - c)%nat with 0%nat in * by lia.
      rewrite Nat.min_0_r in *. rewrite Nat.sub_0_r in *.
      split; [by rewrite IH1|]. rewrite IH2. do 2 f_equal. lia.
    + apply Nat.leb_gt in E.
      assert (Hm' : <[ip := mkRate (S c) R]> m !! ip = Some (mkRate (S c) R))
        by apply lookup_insert_eq.
      destruct (IH _ _ _ Hm' Hrest) as [IH1 IH2].
      destruct (runCalls ip rest (<[ip := mkRate (S c) R]> m)) as [m2 oks].
      cbn [fst snd length] in *.
      replace (RATE_LIMIT - c)%nat with (S (RATE_LIMIT - S c)) by lia.
      rewrite <- Nat.succ_min_distr. cbn [replicate app Nat.sub].
      split; [by rewrite IH1|]. rewrite IH2. do 2 f_equal. lia.
Qed.

(** C4 (as amended). For every client address: a call that finds no record, or
    a record whose [resetAt] is strictly before the call's time, opens a
    fresh window with count 1 and is accepted; of that call and the calls
    that follow it at times up to and including the window's [resetAt],
    exactly the first 10 are accepted and all later ones are refused; calls
    for other addresses do not touch the record; and the routes answer 429
    exactly when the check refuses. *)
Theorem checkRateLimit_fixed_window ip t0 (later : list Z)
    (m : gmap string RateRecord) :
  opensWindow ip t0 m ->
  Forall (fun now => now <= t0 + RATE_WINDOW) later ->
  checkRateLimit ip t0 m = (<[ip := mkRate 1 (t0 + RATE_WINDOW)]> m, true)
  /\ snd (runCalls ip (t0 :: later) m) =
       replicate (Nat.min (S (length later)) 10) true ++
       replicate (S (length later) - 10) false
  /\ (forall ip' now (m' : gmap string RateRecord),
        ip' <> ip -> fst (checkRateLimit ip' now m') !! ip = m' !! ip)
  /\ (forall xff xri now rest (m' : gmap string RateRecord),
        clientIp xff xri = ip -> rest <> 429 ->
        (snd (rateLimitedPost xff xri now rest m') = 429 <->
         snd (checkRateLimit ip now m') = false)).
Proof.
  intros Hopen Hall.
  pose proof (checkRateLimit_fresh _ _ _ Hopen) as Hfirst.
  split; [exact Hfirst|]. split; [|split].
  - cbn [runCalls]. rewrite Hfirst.
    assert (Hm' : <[ip := mkRate 1 (t0 + RATE_WINDOW)]> m !! ip =
                  Some (mkRate 1 (t0 + RATE_WINDOW))) by apply lookup_insert_eq.
    destruct (runCalls_inside ip later _ _ _ Hm' Hall) as [H1 _].
    destruct (runCalls ip later _) as [m2 oks]. simpl in *.
    rewrite H1. unfold RATE_LIMIT. simpl.
    destruct (length later) as [|n]; [done|].
    simpl. do 2 f_equal.
  - intros. by apply checkRateLimit_other.
  - intros xff xri now rest m' Hip Hrest. unfold rateLimitedPost. rewrite Hip.
    destruct (checkRateLimit ip now m') as [m1 [|]]; simpl; split; intros; done.
Qed.

(** A window opened at time 0 on an empty map, then nine more calls at time
    0 and an eleventh at time 60000. *)
Lemma checkRateLimit_fixed_window_witness :
  snd (runCalls "10.0.0.1" (0 :: replicate 9 0 ++ [60000]) ∅) =
    replicate 10 true ++ [false].
Proof.
  assert (Hopen : opensWindow "10.0.0.1" 0 (∅ : gmap string RateRecord))
    by (unfold opensWindow; by rewrite lookup_empty).
  assert (Hall : Forall (fun now => now <= 0 + RATE_WINDOW) (replicate 9 0 ++ [60000]))
    by (repeat constructor; unfold RATE_WINDOW; lia).
  exact (proj1 (proj2 (checkRateLimit_fixed_window _ _ _ _ Hopen Hall))).
Defined.

(** C4 (as stated) fails at the boundary: after ten calls at time 0 the
    window's [resetAt] is 60000, and a call at exactly 60000 is refused
    instead of opening a fresh window. *)
Lemma checkRateLimit_at_resetAt_refused :
  let m := fst (runCalls "10.0.0.1" (replicate 10 0) ∅) in
  m !! "10.0.0.1" = Some (mkRate 10 60000)
  /\ checkRateLimit "10.0.0.1" 60000 m = (m, false).
Proof.
  assert (Hopen : opensWindow "10.0.0.1" 0 (∅ : gmap string RateRecord))
    by (unfold opensWindow; by rewrite lookup_empty).
  pose proof (checkRateLimit_fresh _ _ _ Hopen) as Hfirst.
  assert (Hm' : <["10.0.0.1" := mkRate 1 (0 + RATE_WINDOW)]>
                  (∅ : gmap string RateRecord) !! "10.0.0.1" =
                Some (mkRate 1 (0 + RATE_WINDOW))) by apply lookup_insert_eq.
  assert (Hall : Forall (fun now => now <= 0 + RATE_WINDOW) (replicate 9 0))
    by (repeat constructor; unfold RATE_WINDOW; lia).
  destruct (runCalls_inside "10.0.0.1" (replicate 9 0) _ _ _ Hm' Hall) as [_ H2].
  cbn zeta. change (replicate 10 0) with (0 :: replicate 9 0).
  cbn [runCalls]. rewrite Hfirst.
  destruct (runCalls "10.0.0.1" (replicate 9 0) _) as [m2 oks]. simpl in *.
  split; [exact H2|].
  by rewrite (checkRateLimit_inside _ _ _ 10%nat 60000 H2).
Qed.

(** *** Several addresses *)

(** A call's answer and the record it leaves depend on the record of its
    address only. *)
Lemma checkRateLimit_local ip now (m1 m2 : gmap string RateRecord) :
  m1 !! ip = m2 !! ip ->
  snd (checkRateLimit ip now m1) = snd (checkRateLimit ip now m2)
  /\ fst (checkRateLimit ip now m1) !! ip = fst (checkRateLimit ip now m2) !! ip.
Proof.
  intros Heq. unfold checkRateLimit. rewrite <- Heq.
  destruct (m1 !! ip) as [r|] eqn:E; cbn [fst snd].
  - destruct (resetAt r <? now); cbn [fst snd]; [by rewrite !lookup_insert_eq|].
    destruct (RATE_LIMIT <=? count r)%nat; cbn [fst snd]; [by rewrite E|].
    by rewrite !lookup_insert_eq.
  - by rewrite !lookup_insert_eq.
Qed.

Lemma runTrace_isolated ip (calls : list (string * Z)) :
  forall m1 m2 : gmap string RateRecord,
  m1 !! ip = m2 !! ip ->
  answersTo ip calls (snd (runTrace calls m1)) = snd (runCalls ip (timesOf ip calls) m2)
  /\ fst (runTrace calls m1) !! ip = fst (runCalls ip (timesOf ip calls) m2) !! ip.
Proof.
  induction calls as [|[ip' now] calls IH]; intros m1 m2 Heq; [done|].
  cbn [runTrace]. unfold timesOf. cbn [List.filter fst].
  destruct (decide (ip' = ip)) as [->|Hne].
  - rewrite bool_decide_eq_true_2 by done. cbn [fmap list_fmap snd runCalls].
    destruct (checkRateLimit_local ip now m1 m2 Heq) as [Hok Hrec].
    destruct (checkRateLimit ip now m1) as [m1' ok1].
    destruct (checkRateLimit ip now m2) as [m2' ok2]. cbn [fst snd] in *. subst ok2.
    specialize (IH m1' m2' Hrec). unfold timesOf in IH.
    destruct (runTrace calls m1') as [m1'' oks1].
    destruct (runCalls ip _ m2') as [m2'' oks2]. cbn [fst snd answersTo] in *.
    rewrite decide_True by done. destruct IH as [-> ->]. done.
  - rewrite bool_decide_eq_false_2 by done.
    pose proof (checkRateLimit_other ip ip' now m1 Hne) as Hother.
    destruct (checkRateLimit ip' now m1) as [m1' ok1]. cbn [fst] in Hother.
    specialize (IH m1' m2 ltac:(by rewrite Hother)). unfold timesOf in IH.
    destruct (runTrace calls m1') as [m1'' oks1]. cbn [fst snd answersTo] in *.
    by rewrite decide_False by done.
Qed.

(** X1. Addresses do not interfere: in
    any interleaving of calls of any addresses, the answers one address
    gets, and the record it is left with, are those it would get if its
    calls were the only ones. *)
Theorem rate_limit_addresses_independent ip (calls : list (string * Z))
    (m : gmap string RateRecord) :
  answersTo ip calls (snd (runTrace calls m)) = snd (runCalls ip (timesOf ip calls) m)
  /\ fst (runTrace calls m) !! ip = fst (runCalls ip (timesOf ip calls) m) !! ip.
Proof. by apply runTrace_isolated. Qed.

Lemma checkRateLimit_bounded ip now (m : gmap string RateRecord) :
  countsBounded m ->
  countsBounded (fst (checkRateLimit ip now m))
  /\ dom (fst (checkRateLimit ip now m)) = {[ip]} ∪ dom m.
Proof.
  intros Hb. unfold checkRateLimit.
  destruct (m !! ip) as [r|] eqn:E; cbn [fst].
  - assert (Hdom : {[ip]} ∪ dom m = dom m).
    { apply elem_of_dom_2 in E. set_solver. }
    pose proof (Hb _ _ E) as Hr. cbn beta in Hr.
    destruct (resetAt r <? now); cbn [fst].
    + split; [|by rewrite dom_insert_L].
      apply map_Forall_insert_2; [|done]. cbn. unfold RATE_LIMIT. lia.
    + destruct (RATE_LIMIT <=? count r)%nat eqn:El; cbn [fst]; [by rewrite Hdom|].
      apply Nat.leb_gt in El.
      split; [|by rewrite dom_insert_L].
      apply map_Forall_insert_2; [|done]. cbn. lia.
  - split; [|by rewrite dom_insert_L].
    apply map_Forall_insert_2; [|done]. cbn. unfold RATE_LIMIT. lia.
Qed.

(** X2. From the empty map, after any calls of any
    addresses at any times: every record counts between 1 and 10 requests,
    every address that called has a record (no record is ever removed), and
    a refused call leaves the map as it was. *)
Theorem requestCounts_reachable (calls : list (string * Z)) :
  countsBounded (fst (runTrace calls ∅))
  /\ dom (fst (runTrace calls ∅)) = list_to_set (fst <$> calls)
  /\ (forall ip now (m : gmap string RateRecord),
        snd (checkRateLimit ip now m) = false -> fst (checkRateLimit ip now m) = m).
Proof.
  assert (H : forall m : gmap string RateRecord, countsBounded m ->
            countsBounded (fst (runTrace calls m))
            /\ dom (fst (runTrace calls m)) = dom m ∪ list_to_set (fst <$> calls)).
  { induction calls as [|[ip now] calls IH]; intros m Hb; cbn [runTrace].
    - cbn. split; [done|set_solver].
    - destruct (checkRateLimit_bounded ip now m Hb) as [Hb1 Hd1].
      destruct (checkRateLimit ip now m) as [m1 ok]. cbn [fst] in *.
      destruct (IH m1 Hb1) as [Hb2 Hd2].
      destruct (runTrace calls m1) as [m2 oks]. cbn [fst] in *.
      split; [done|]. rewrite Hd2, Hd1. cbn [fmap list_fmap fst list_to_set].
      set_solver. }
  destruct (H ∅) as [Hb Hd]; [apply map_Forall_empty|].
  split; [done|]. split; [rewrite Hd, dom_empty_L; set_solver|].
  intros ip now m. unfold checkRateLimit.
  destruct (m !! ip) as [r|]; [|done].
  destruct (resetAt r <? now); [done|].
  by destruct (RATE_LIMIT <=? count r)%nat.
Qed.

(** X3. Calls that each come from an address
    of their own, none of which has a record, are all admitted, however
    many they are and whenever they are made: the limit counts per
    address. The address of a request is its [x-forwarded-for] header when
    that is present and not empty, otherwise its [x-real-ip] header when
    that is present and not empty, and otherwise [unknown], which all
    requests without a usable header share; a request whose address has no
    record is not answered 429 by the check. *)
Theorem fresh_addresses_never_refused (calls : list (string * Z))
    (m : gmap string RateRecord) :
  NoDup (fst <$> calls) ->
  (forall ip, ip ∈ fst <$> calls -> m !! ip = None) ->
  snd (runTrace calls m) = replicate (length calls) true
  /\ (forall address other, address <> "" -> clientIp (Some address) other = address)
  /\ (forall forwarded address,
        forwarded = None \/ forwarded = Some "" -> address <> "" ->
        clientIp forwarded (Some address) = address)
  /\ (forall forwarded real,
        forwarded = None \/ forwarded = Some "" ->
        real = None \/ real = Some "" ->
        clientIp forwarded real = "unknown")
  /\ (forall forwarded real now rest (requestCounts : gmap string RateRecord),
        requestCounts !! clientIp forwarded real = None ->
        snd (rateLimitedPost forwarded real now rest requestCounts) = rest).
Proof.
  intros Hnodup Hfresh. split.
  - revert m Hfresh. induction calls as [|[ip now] calls IH]; intros m Hfresh;
      cbn [runTrace]; [done|].
    cbn [fmap list_fmap fst] in Hnodup. apply NoDup_cons in Hnodup as [Hnotin Hnodup].
    unfold checkRateLimit. rewrite (Hfresh ip) by (cbn; left).
    specialize (IH Hnodup (<[ip := mkRate 1 (now + RATE_WINDOW)]> m)).
    destruct (runTrace calls _) as [m2 oks]. cbn [snd length replicate] in *.
    rewrite IH; [done|]. intros ip' Hin.
    rewrite lookup_insert_ne by (intros ->; done).
    apply Hfresh. cbn. by right.
  - split_and!.
    + intros address other Hne.
      unfold clientIp, truthyHeader. by destruct (decide (address = "")).
    + intros forwarded address Hforwarded Hne. unfold clientIp, truthyHeader.
      destruct (decide (address = "")); [done|].
      by destruct Hforwarded as [-> | ->].
    + intros forwarded real Hforwarded Hreal. unfold clientIp, truthyHeader.
      by destruct Hforwarded as [-> | ->], Hreal as [-> | ->].
    + intros forwarded real now rest requestCounts Hnone.
      unfold rateLimitedPost, checkRateLimit. by rewrite Hnone.
Qed.

Lemma fresh_addresses_never_refused_witness :
  snd (runTrace [("10.0.0.1", 0); ("10.0.0.2", 0); ("10.0.0.3", 0)] ∅)
  = replicate (length [("10.0.0.1", 0); ("10.0.0.2", 0); ("10.0.0.3", 0)]) true
  /\ clientIp (Some "10.0.0.1") (Some "10.0.0.2") = "10.0.0.1"
  /\ clientIp (Some "") (Some "10.0.0.2") = "10.0.0.2"
  /\ clientIp None (Some "") = "unknown".
Proof.
  destruct (fresh_addresses_never_refused
              [("10.0.0.1", 0); ("10.0.0.2", 0); ("10.0.0.3", 0)] ∅)
    as (Hall & Hforwarded & Hreal & Hunknown & _).
  - apply (bool_decide_unpack _). vm_compute. reflexivity.
  - intros ip _. apply lookup_empty.
  - split; [exact Hall|]. split; [by apply Hforwarded|].
    split; [apply Hreal; [by right|done]|]. apply Hunknown; [by left|by right].
Defined.

End RateLimitProps.

(* ===================================================================== *)
(** ** Properties of the diff analyzer and of the diff route *)
(* ===================================================================== *)

Module DiffProps.
Import Diff.

Section Merge.

(** The accumulator of [mergeDiffCategories], category by category. *)
Lemma merge_foldl_array (k : CategoryKey) (categories : list DiffCategory) :
  forall acc,
  categoryArray k
    (foldl (fun merged cat =>
              mkCategory (newFeatures merged ++ newFeatures cat)
                         (behaviorChanges merged ++ behaviorChanges cat)
                         (deprecated merged ++ deprecated cat)
                         (removed merged ++ removed cat)
                         (libraryChanges merged ++ libraryChanges cat))
           acc categories)
  = categoryArray k acc ++ concat (List.map (categoryArray k) categories).
Proof.
  induction categories as [|cat rest IH]; intros acc; cbn [foldl List.map concat].
  - by rewrite app_nil_r.
  - rewrite IH, app_assoc. f_equal. by destruct k.
Qed.

Lemma mergeDiffCategories_array k categories :
  categoryArray k (mergeDiffCategories categories)
  = concat (List.map (categoryArray k) categories).
Proof.
  unfold mergeDiffCategories. rewrite merge_foldl_array. by destruct k.
Qed.

Lemma categoriesOf_array k data :
  categoryArray k (categoriesOf data) = storedArray k data.
Proof. by destruct k. Qed.

Lemma loadAlongPath_loadedData readDiffFile path :
  forall (cache : gmap string ParsedFile) acc,
  snd (loadAlongPath readDiffFile path cache acc)
  = acc ++ List.map categoriesOf (loadedData readDiffFile path cache).
Proof.
  induction path as [|[src tgt] rest IH]; intros cache acc;
    cbn [loadAlongPath loadedData].
  - by rewrite app_nil_r.
  - destruct (loadDiffData readDiffFile src tgt cache) as [cache' [data|]].
    + rewrite IH. cbn [List.map]. by rewrite <- app_assoc.
    + apply IH.
Qed.

Lemma filterCategories_array k diff (filter : option (list RequestCategory)) :
  categoryArray k (filterCategories diff (List.map requestKey <$> filter))
  = if keeps filter k then categoryArray k diff else [].
Proof.
  destruct filter as [[|c cats]|]; [done| |done].
  unfold keeps. cbn [fmap option_fmap option_map List.map filterCategories].
  unfold includes. destruct k; cbn [categoryArray]; by case_bool_decide.
Qed.

(** With a cache that agrees with the files (the empty cache does), the data
    loaded for a path are the files of its steps that can be read and do
    not hold [null]. *)
Lemma loadedData_files readDiffFile path :
  forall cache : gmap string ParsedFile,
  cacheCoherent readDiffFile cache ->
  loadedData readDiffFile path cache
  = omap (fun step => default None (readDiffFile (getDiffKey (fst step) (snd step))))
         path.
Proof.
  induction path as [|[src tgt] rest IH]; intros cache Hco;
    cbn [loadedData omap list_omap fst snd]; [done|].
  unfold loadDiffData.
  destruct (cache !! getDiffKey src tgt) as [parsed|] eqn:E.
  - rewrite (Hco _ _ E). cbn [default from_option]. unfold id.
    destruct parsed as [data|]; [f_equal|]; by apply IH.
  - destruct (readDiffFile (getDiffKey src tgt)) as [parsed|] eqn:F;
      cbn [default from_option]; unfold id.
    + assert (Hco' : cacheCoherent readDiffFile (<[getDiffKey src tgt := parsed]> cache)).
      { intros key data' Hkey.
        destruct (decide (key = getDiffKey src tgt)) as [->|Hne].
        - rewrite lookup_insert_eq in Hkey. congruence.
        - rewrite lookup_insert_ne in Hkey by done. by apply Hco. }
      destruct parsed as [data|]; [f_equal|]; by apply IH.
    + by apply IH.
Qed.

End Merge.

(** C1 (as amended). For every request whose upgrade path is not empty,
    [analyzeDiff] returns, and every category array of the returned diff that
    the request's filter keeps (every category, when the request has no filter
    or an empty one) is the concatenation, in path order and keeping the order
    of the elements, of that category's arrays in the data loaded for the
    steps of the path; a category the filter leaves out is the empty array. *)
Theorem analyzeDiff_concatenates readDiffFile request
    (cache : gmap string ParsedFile) path :
  getUpgradePath (reqSource request) (reqTarget request) = Some path ->
  path <> [] ->
  exists result,
    snd (analyzeDiff readDiffFile request cache) = Returned result
    /\ forall k,
         categoryArray k (diff result) =
         if keeps (reqCategories request) k
         then stepsConcat k readDiffFile path cache
         else [].
Proof.
  intros Hpath Hne. unfold analyzeDiff. rewrite Hpath.
  destruct path as [|step rest]; [done|].
  pose proof (loadAlongPath_loadedData readDiffFile (step :: rest) cache []) as Hload.
  destruct (loadAlongPath readDiffFile (step :: rest) cache []) as [cache' cats].
  cbn [snd] in *. eexists; split; [reflexivity|].
  intros k. cbn [diff]. rewrite filterCategories_array.
  destruct (keeps (reqCategories request) k); [|done].
  rewrite mergeDiffCategories_array, Hload. cbn [app].
  unfold stepsConcat. rewrite List.map_map. f_equal.
  apply List.map_ext. intros data. apply categoriesOf_array.
Qed.

(** The theorem at the unfiltered request cpp11 -> cpp14 over [sampleFiles]. *)
Lemma analyzeDiff_concatenates_witness :
  exists result,
    snd (analyzeDiff sampleFiles (mkRequest cpp11 cpp14 None) ∅) = Returned result
    /\ forall k,
         categoryArray k (diff result) =
         if keeps None k
         then stepsConcat k sampleFiles [(cpp11, cpp14)] ∅
         else [].
Proof.
  apply (analyzeDiff_concatenates sampleFiles (mkRequest cpp11 cpp14 None) ∅
           [(cpp11, cpp14)]).
  - reflexivity.
  - discriminate.
Defined.

(** C1 (as stated) fails for a filtered request: with the filter
    [['newFeatures']] the upgrade path cpp11 -> cpp14 is not empty, the loaded
    step has one behavior change, and the returned diff has none. *)
Lemma analyzeDiff_filter_drops_category :
  getUpgradePath cpp11 cpp14 = Some [(cpp11, cpp14)]
  /\ exists result,
       snd (analyzeDiff sampleFiles (mkRequest cpp11 cpp14 (Some [RNewFeatures])) ∅)
         = Returned result
       /\ behaviorChanges (diff result) = []
       /\ stepsConcat KBehaviorChanges sampleFiles [(cpp11, cpp14)] ∅ = [sampleItem].
Proof.
  split; [reflexivity|]. eexists. split; [reflexivity|]. split; reflexivity.
Qed.

(** The paths of some requests: the path stops at cpp17, where the
    hardcoded pairs end, and nothing starts before cpp11. *)
Example getUpgradePath_examples :
  getUpgradePath cpp11 cpp17 = Some [(cpp11, cpp14); (cpp14, cpp17)]
  /\ getUpgradePath cpp11 cpp23 = Some [(cpp11, cpp14); (cpp14, cpp17)]
  /\ getUpgradePath cpp14 cpp20 = Some [(cpp14, cpp17)]
  /\ getUpgradePath cpp98 cpp11 = Some []
  /\ getUpgradePath cpp17 cpp20 = Some []
  /\ getUpgradePath cpp17 cpp14 = Some []
  /\ getUpgradePath cpp11 cpp26 = Some [].
Proof. repeat split; reflexivity. Qed.

Example diffPost_examples :
  let post body := snd (diffPost sampleFiles body ∅) in
  post None = Responded 500 []
  /\ post (Some (JObj [("sourceVersion", JStr "cpp11")])) = Responded 400 []
  /\ post (Some (JObj [("sourceVersion", JStr "cpp14");
                       ("targetVersion", JStr "cpp11")])) = Responded 400 []
  /\ post (Some (JObj [("sourceVersion", JStr "cpp11");
                       ("targetVersion", JStr "cpp14");
                       ("categories", JArr [JStr "removed"])])) = Responded 400 []
  /\ post (Some (JObj [("sourceVersion", JStr "cpp98");
                       ("targetVersion", JStr "cpp03")]))
     = Responded 500 [mkRequest cpp98 cpp03 None]
  /\ post (Some (JObj [("sourceVersion", JStr "cpp11");
                       ("targetVersion", JStr "cpp14");
                       ("categories", JArr [JStr "deprecated"])]))
     = Responded 200 [mkRequest cpp11 cpp14 (Some [RDeprecated])].
Proof. cbv zeta. repeat split; reflexivity. Qed.

(** *** When [analyzeDiff] throws *)

Lemma getUpgradePath_finishes s t : exists path, getUpgradePath s t = Some path.
Proof. destruct s, t; eexists; reflexivity. Qed.

Lemma getUpgradePath_empty_iff s t :
  getUpgradePath s t = Some [] <-> (~ strictlyPrecedes s t \/ noPairStartsAt s).
Proof.
  assert (H : bool_decide (getUpgradePath s t = Some []) =
              bool_decide (~ strictlyPrecedes s t \/ noPairStartsAt s))
    by (destruct s, t; vm_compute; reflexivity).
  split; intros Hx.
  - apply (bool_decide_unpack _). rewrite <- H. by apply bool_decide_pack.
  - apply (bool_decide_unpack _). rewrite H. by apply bool_decide_pack.
Qed.

Lemma analyzeDiff_thrown_iff readDiffFile request
    (cache : gmap string ParsedFile) :
  (exists message, snd (analyzeDiff readDiffFile request cache) = Thrown message)
  <-> getUpgradePath (reqSource request) (reqTarget request) = Some [].
Proof.
  unfold analyzeDiff.
  destruct (getUpgradePath (reqSource request) (reqTarget request))
    as [[|step rest]|] eqn:E.
  - split; [done|]. intros _. eexists. reflexivity.
  - destruct (loadAlongPath _ _ _ _). split; [intros [? ?]|]; done.
  - split; [intros [? ?]|]; done.
Qed.

Lemma analyzeDiff_finishes readDiffFile request
    (cache : gmap string ParsedFile) :
  snd (analyzeDiff readDiffFile request cache) <> OutOfFuel.
Proof.
  unfold analyzeDiff.
  destruct (getUpgradePath_finishes (reqSource request) (reqTarget request))
    as [path ->].
  destruct path; [done|]. by destruct (loadAlongPath _ _ _ _).
Qed.

(** C5. [analyzeDiff] always finishes, and it throws exactly when the upgrade
    path is empty, that is, exactly when the source does not strictly precede
    the target in the order cpp98, cpp03, cpp11, cpp14, cpp17, cpp20, cpp23 or
    no hardcoded pair starts at the source. [POST /api/diff] answers 400
    without calling [analyzeDiff] when the parsed body fails the schema or the
    source index is not strictly below the target index; otherwise it calls
    [analyzeDiff] once and answers 500 when that throws and 200 when it
    returns. *)
Theorem analyzeDiff_throws_iff_no_path readDiffFile
    (cache : gmap string ParsedFile) :
  (forall request,
     snd (analyzeDiff readDiffFile request cache) <> OutOfFuel
     /\ ((exists message,
            snd (analyzeDiff readDiffFile request cache) = Thrown message)
         <-> getUpgradePath (reqSource request) (reqTarget request) = Some [])
     /\ (getUpgradePath (reqSource request) (reqTarget request) = Some []
         <-> (~ strictlyPrecedes (reqSource request) (reqTarget request)
              \/ noPairStartsAt (reqSource request))))
  /\ (forall body,
        safeParse body = None ->
        diffPost readDiffFile (Some body) cache = (cache, Responded 400 []))
  /\ (forall body data,
        safeParse body = Some data ->
        ~ (indexOf versionOrder (reqSource data)
           < indexOf versionOrder (reqTarget data)) ->
        diffPost readDiffFile (Some body) cache = (cache, Responded 400 []))
  /\ (forall body data,
        safeParse body = Some data ->
        indexOf versionOrder (reqSource data)
          < indexOf versionOrder (reqTarget data) ->
        snd (diffPost readDiffFile (Some body) cache) =
          if throws (snd (analyzeDiff readDiffFile data cache))
          then Responded 500 [data] else Responded 200 [data]).
Proof.
  split; [|split; [|split]].
  - intros request. split; [apply analyzeDiff_finishes|].
    split; [apply analyzeDiff_thrown_iff | apply getUpgradePath_empty_iff].
  - intros body Hparse. unfold diffPost. by rewrite Hparse.
  - intros body data Hparse Hidx. unfold diffPost. rewrite Hparse.
    destruct (_ >=? _) eqn:E; [done|]. rewrite Z.geb_leb in E.
    apply Z.leb_gt in E. lia.
  - intros body data Hparse Hidx. unfold diffPost. rewrite Hparse.
    destruct (_ >=? _) eqn:E; [rewrite Z.geb_leb in E; apply Z.leb_le in E; lia|].
    pose proof (analyzeDiff_finishes readDiffFile data cache) as Hfin.
    destruct (analyzeDiff readDiffFile data cache) as [cache' [res|msg|]];
      cbn [snd throws] in *; done.
Qed.

(** *** The shape of an upgrade path *)

Lemma upgradeLoop_chain pairs target fuel :
  forall current acc path,
  upgradeLoop fuel pairs target current acc = Some path ->
  exists steps,
    path = acc ++ steps
    /\ chainFrom current steps
    /\ Forall (fun step => step ∈ pairs) steps
    /\ (pathEnd current steps = target
        \/ Forall (fun pair => fst pair <> pathEnd current steps) pairs).
Proof.
  induction fuel as [|fuel IH]; intros current acc path; cbn [upgradeLoop].
  - destruct (decide (current = target)) as [->|]; [|done].
    intros [= <-]. exists []. rewrite app_nil_r. cbn. eauto.
  - destruct (decide (current = target)) as [->|Hne].
    { intros [= <-]. exists []. rewrite app_nil_r. cbn. eauto. }
    destruct (List.find _ pairs) as [nextPair|] eqn:Hfind.
    + apply List.find_some in Hfind as [Hin Hfst].
      apply bool_decide_eq_true_1 in Hfst. apply list_elem_of_In in Hin.
      destruct (decide (snd nextPair = target)) as [Htgt|Hne'].
      * intros [= <-]. exists [nextPair]. cbn. eauto 10.
      * intros Hrun. destruct (IH _ _ _ Hrun) as (steps & -> & Hchain & Hall & Hend).
        exists (nextPair :: steps). rewrite <- app_assoc. cbn. eauto 10.
    + intros [= <-]. exists []. rewrite app_nil_r. cbn.
      split; [done|]. split; [done|]. split; [done|]. right.
      apply Forall_forall. intros pair Hin%list_elem_of_In Heq.
      eapply List.find_none in Hfind; [|exact Hin].
      cbn in Hfind. by apply bool_decide_eq_false_1 in Hfind.
Qed.

(** X4. Every upgrade path is a chain of hardcoded
    pairs: its first step starts at the source, every step starts where the
    one before it ends, every step is one of [getVersionPairs], and a
    non-empty path ends at the target or at a version from which no
    hardcoded pair starts (it does not have to reach the target). *)
Theorem getUpgradePath_is_chain source target path :
  getUpgradePath source target = Some path ->
  chainFrom source path
  /\ Forall (fun step => step ∈ getVersionPairs) path
  /\ (path <> [] ->
      pathEnd source path = target \/ noPairStartsAt (pathEnd source path)).
Proof.
  unfold getUpgradePath. destruct (_ || _).
  - intros [= <-]. cbn. split; [done|]. split; [done|]. intros H; by destruct H.
  - intros (steps & -> & Hchain & Hall & Hend)%upgradeLoop_chain.
    cbn [app]. split; [done|]. split; [done|]. intros _. exact Hend.
Qed.

Lemma getUpgradePath_is_chain_witness :
  chainFrom cpp11 [(cpp11, cpp14); (cpp14, cpp17)]
  /\ Forall (fun step => step ∈ getVersionPairs) [(cpp11, cpp14); (cpp14, cpp17)]
  /\ ([(cpp11, cpp14); (cpp14, cpp17)] <> [] ->
      pathEnd cpp11 [(cpp11, cpp14); (cpp14, cpp17)] = cpp23
      \/ noPairStartsAt (pathEnd cpp11 [(cpp11, cpp14); (cpp14, cpp17)])).
Proof. apply (getUpgradePath_is_chain cpp11 cpp23). reflexivity. Defined.

(** *** The cache of diff files *)

(** X5. Whatever a load parsed for a pair, the data or
    [null], is in the cache afterwards, and every later load of the pair
    returns it from the cache and leaves the cache as it is, whatever the
    file holds by then: a file that held [null] is not read again. Only a
    load whose read or parse throws leaves the cache as it was, so that
    the file is read again the next time. The other keys of the cache are
    never touched. *)
Theorem loadDiffData_cache readDiffFile source target
    (cache cache' : gmap string ParsedFile) result :
  loadDiffData readDiffFile source target cache = (cache', result) ->
  (forall parsed,
     cache' !! getDiffKey source target = Some parsed ->
     result = parsed
     /\ forall laterFiles,
          loadDiffData laterFiles source target cache' = (cache', parsed))
  /\ (cache !! getDiffKey source target = None ->
      cache' !! getDiffKey source target = readDiffFile (getDiffKey source target))
  /\ (cache' !! getDiffKey source target = None ->
      cache' = cache /\ result = None
      /\ forall laterFiles,
           loadDiffData laterFiles source target cache'
           = match laterFiles (getDiffKey source target) with
             | Some parsed => (<[getDiffKey source target := parsed]> cache, parsed)
             | None => (cache, None)
             end)
  /\ forall other,
       other <> getDiffKey source target -> cache' !! other = cache !! other.
Proof.
  unfold loadDiffData.
  destruct (cache !! getDiffKey source target) as [parsed|] eqn:E.
  - intros [= <- <-]. split_and!.
    + intros parsed' Hkey. rewrite E in Hkey. injection Hkey as <-.
      split; [done|]. intros laterFiles. by rewrite E.
    + by rewrite E.
    + by rewrite E.
    + done.
  - destruct (readDiffFile (getDiffKey source target)) as [parsed|] eqn:F.
    + intros [= <- <-]. split_and!.
      * intros parsed'. rewrite lookup_insert_eq. intros [= <-].
        by split.
      * intros _. by rewrite lookup_insert_eq.
      * by rewrite lookup_insert_eq.
      * intros other Hne. by rewrite lookup_insert_ne.
    + intros [= <- <-]. split_and!.
      * intros parsed'. by rewrite E.
      * done.
      * intros _. split; [done|]. split; [done|]. intros laterFiles. by rewrite E.
      * done.
Qed.

Lemma loadDiffData_cache_witness :
  loadDiffData sampleFiles cpp11 cpp14 ∅
  = ({[ "cpp11-cpp14" := Some sampleFile ]}, Some sampleFile)
  /\ (forall laterFiles,
        loadDiffData laterFiles cpp11 cpp14 {[ "cpp11-cpp14" := Some sampleFile ]}
        = ({[ "cpp11-cpp14" := Some sampleFile ]}, Some sampleFile))
  /\ loadDiffData (fun _ => Some None) cpp14 cpp17 ∅
     = ({[ "cpp14-cpp17" := None ]}, None)
  /\ (forall laterFiles,
        loadDiffData laterFiles cpp14 cpp17 {[ "cpp14-cpp17" := None ]}
        = ({[ "cpp14-cpp17" := None ]}, None)).
Proof.
  split; [reflexivity|]. split; [|split; [reflexivity|]].
  - exact (proj2 (proj1 (loadDiffData_cache sampleFiles cpp11 cpp14 ∅
                           {[ "cpp11-cpp14" := Some sampleFile ]} (Some sampleFile)
                           eq_refl)
                   (Some sampleFile) eq_refl)).
  - exact (proj2 (proj1 (loadDiffData_cache (fun _ => Some None) cpp14 cpp17 ∅
                           {[ "cpp14-cpp17" := None ]} None eq_refl)
                   None eq_refl)).
Defined.

Lemma loadAlongPath_coherent readDiffFile path :
  forall (cache : gmap string ParsedFile) acc,
  cacheCoherent readDiffFile cache ->
  cacheCoherent readDiffFile (fst (loadAlongPath readDiffFile path cache acc)).
Proof.
  induction path as [|[src tgt] rest IH]; intros cache acc Hco;
    cbn [loadAlongPath]; [done|].
  unfold loadDiffData.
  destruct (cache !! getDiffKey src tgt) as [parsed|] eqn:E;
    [destruct parsed; by apply IH|].
  destruct (readDiffFile (getDiffKey src tgt)) as [parsed|] eqn:F; [|by apply IH].
  assert (Hco' : cacheCoherent readDiffFile (<[getDiffKey src tgt := parsed]> cache)).
  { intros key data' Hkey.
    destruct (decide (key = getDiffKey src tgt)) as [->|Hne].
    - rewrite lookup_insert_eq in Hkey. congruence.
    - rewrite lookup_insert_ne in Hkey by done. by apply Hco. }
  destruct parsed; by apply IH.
Qed.

(** What a coherent cache changes: nothing in the answer. *)
Lemma analyzeDiff_coherent_cache readDiffFile request
    (cache : gmap string ParsedFile) :
  cacheCoherent readDiffFile cache ->
  snd (analyzeDiff readDiffFile request cache)
    = snd (analyzeDiff readDiffFile request ∅)
  /\ cacheCoherent readDiffFile (fst (analyzeDiff readDiffFile request cache)).
Proof.
  intros Hco. unfold analyzeDiff.
  destruct (getUpgradePath (reqSource request) (reqTarget request))
    as [[|step rest]|]; [done| |done].
  pose proof (loadAlongPath_loadedData readDiffFile (step :: rest) cache []) as H1.
  pose proof (loadAlongPath_loadedData readDiffFile (step :: rest) ∅ []) as H2.
  pose proof (loadAlongPath_coherent readDiffFile (step :: rest) cache [] Hco) as H3.
  rewrite loadedData_files in H1 by done.
  rewrite loadedData_files in H2 by (intros key data; by rewrite lookup_empty).
  destruct (loadAlongPath readDiffFile (step :: rest) cache []) as [c1 cats1].
  destruct (loadAlongPath readDiffFile (step :: rest) ∅ []) as [c2 cats2].
  cbn [fst snd] in *. subst. done.
Qed.

(** X6. As long as the cache holds what the
    files hold, the cache does not change what [analyzeDiff] answers: the
    answer is the one computed from the files alone, and the cache it
    leaves still holds what the files hold. *)
Theorem analyzeDiff_cache_transparent readDiffFile request
    (cache : gmap string ParsedFile) :
  cacheCoherent readDiffFile cache ->
  snd (analyzeDiff readDiffFile request cache)
    = snd (analyzeDiff readDiffFile request ∅)
  /\ cacheCoherent readDiffFile (fst (analyzeDiff readDiffFile request cache)).
Proof. apply analyzeDiff_coherent_cache. Qed.

Lemma analyzeDiff_cache_transparent_witness :
  snd (analyzeDiff sampleFiles (mkRequest cpp11 cpp14 None)
         {[ "cpp11-cpp14" := Some sampleFile ]})
    = snd (analyzeDiff sampleFiles (mkRequest cpp11 cpp14 None) ∅)
  /\ cacheCoherent sampleFiles
       (fst (analyzeDiff sampleFiles (mkRequest cpp11 cpp14 None)
               {[ "cpp11-cpp14" := Some sampleFile ]})).
Proof.
  apply analyzeDiff_cache_transparent.
  intros key data Hkey. apply lookup_singleton_Some in Hkey as [<- <-]. reflexivity.
Defined.

(** *** Counting the changes *)

Lemma countChanges_arrays (c : DiffCategory) :
  countChanges c
  = (length (categoryArray KNewFeatures c) + length (categoryArray KBehaviorChanges c)
     + length (categoryArray KDeprecated c) + length (categoryArray KRemoved c)
     + length (categoryArray KLibraryChanges c))%nat.
Proof. reflexivity. Qed.

Lemma length_concat_sum {A : Type} (ls : list (list A)) :
  length (concat ls) = foldr (fun l n => (length l + n)%nat) 0%nat ls.
Proof.
  induction ls as [|l ls IH]; [done|]. cbn [concat foldr].
  by rewrite length_app, IH.
Qed.

Lemma countChanges_merge (categories : list DiffCategory) :
  countChanges (mergeDiffCategories categories)
  = foldr (fun c n => (countChanges c + n)%nat) 0%nat categories.
Proof.
  rewrite countChanges_arrays, !mergeDiffCategories_array, !length_concat_sum.
  induction categories as [|c cs IH]; [done|].
  cbn [List.map foldr]. rewrite <- IH, countChanges_arrays. lia.
Qed.

(** X7. For a request without a filter,
    (or with an empty one) [totalChanges] is the sum, over the files loaded
    along the path, of the number of items each file holds; with a filter
    [totalChanges] is never larger than that. *)
Theorem analyzeDiff_totalChanges readDiffFile request
    (cache : gmap string ParsedFile) path result :
  getUpgradePath (reqSource request) (reqTarget request) = Some path ->
  snd (analyzeDiff readDiffFile request cache) = Returned result ->
  let loaded :=
    foldr (fun data n => (storedCount data + n)%nat) 0%nat
          (loadedData readDiffFile path cache) in
  (totalChanges result <= loaded)%nat
  /\ (reqCategories request = None \/ reqCategories request = Some [] ->
      totalChanges result = loaded).
Proof.
  intros Hpath. unfold analyzeDiff. rewrite Hpath.
  destruct path as [|step rest]; [done|].
  pose proof (loadAlongPath_loadedData readDiffFile (step :: rest) cache []) as Hload.
  destruct (loadAlongPath readDiffFile (step :: rest) cache []) as [cache' cats].
  cbn [snd app] in *. intros [= <-]. cbn [totalChanges]. cbv zeta.
  set (merged := mergeDiffCategories cats).
  assert (Hmerged : countChanges merged
            = foldr (fun data n => (storedCount data + n)%nat) 0%nat
                    (loadedData readDiffFile (step :: rest) cache)).
  { unfold merged. rewrite countChanges_merge, Hload. clear.
    generalize (loadedData readDiffFile (step :: rest) cache).
    intros ds. induction ds as [|d ds IH]; [done|].
    cbn [List.map foldr]. by rewrite IH. }
  rewrite <- Hmerged. rewrite (countChanges_arrays (filterCategories _ _)).
  rewrite !filterCategories_array, (countChanges_arrays merged).
  split.
  - repeat match goal with
           | |- context [keeps ?f ?k] => destruct (keeps f k)
           end; cbn [length]; lia.
  - intros [-> | ->]; cbn [keeps]; lia.
Qed.

Lemma analyzeDiff_totalChanges_witness :
  (totalChanges
     (mkResult cpp11 cpp14 (mkCategory [] [sampleItem] [] [] [])
        (generateSummary cpp11 cpp14 (mkCategory [] [sampleItem] [] [] [])) 1)
   <= 1)%nat
  /\ (reqCategories (mkRequest cpp11 cpp14 None) = None
      \/ reqCategories (mkRequest cpp11 cpp14 None) = Some [] ->
      totalChanges
        (mkResult cpp11 cpp14 (mkCategory [] [sampleItem] [] [] [])
           (generateSummary cpp11 cpp14 (mkCategory [] [sampleItem] [] [] [])) 1)
      = 1%nat).
Proof.
  exact (analyzeDiff_totalChanges sampleFiles (mkRequest cpp11 cpp14 None) ∅
           [(cpp11, cpp14)] _ eq_refl eq_refl).
Defined.

(** *** The two ways to ask for a diff *)

Lemma validVersion_name v :
  v ∈ versionOrder -> validVersion (versionName v) = Some v.
Proof.
  intros Hin. repeat (apply elem_of_cons in Hin as [->|Hin]; [reflexivity|]).
  by apply elem_of_nil in Hin.
Qed.

Lemma safeParse_postBody source target :
  source ∈ versionOrder -> target ∈ versionOrder ->
  safeParse (postBody source target) = Some (mkRequest source target None).
Proof.
  intros Hs Ht.
  repeat (apply elem_of_cons in Hs as [->|Hs];
          [repeat (apply elem_of_cons in Ht as [->|Ht]; [reflexivity|]);
           by apply elem_of_nil in Ht|]).
  by apply elem_of_nil in Hs.
Qed.

(** X8. [GET /api/diff/:source/:target] answers 400
    exactly when a parameter is not one of the seven version names. For two
    version names it answers 200 when [analyzeDiff] returns and 500 when it
    throws; in particular, where [POST /api/diff] refuses a source that is
    not older than the target with 400, the GET route calls [analyzeDiff]
    and answers 500, and where the POST route calls [analyzeDiff] the two
    routes answer alike. *)
Theorem diffGet_versus_diffPost readDiffFile (cache : gmap string ParsedFile) :
  (forall source target,
     snd (diffGet readDiffFile source target cache) = Responded 400 []
     <-> (validVersion source = None \/ validVersion target = None))
  /\ (forall source target,
        source ∈ versionOrder -> target ∈ versionOrder ->
        diffGet readDiffFile (versionName source) (versionName target) cache
        = (fst (analyzeDiff readDiffFile (mkRequest source target None) cache),
           if throws (snd (analyzeDiff readDiffFile (mkRequest source target None) cache))
           then Responded 500 [mkRequest source target None]
           else Responded 200 [mkRequest source target None])
        /\ (indexOf versionOrder source >= indexOf versionOrder target ->
            snd (diffPost readDiffFile (Some (postBody source target)) cache)
              = Responded 400 []
            /\ snd (diffGet readDiffFile (versionName source) (versionName target) cache)
              = Responded 500 [mkRequest source target None])
        /\ (indexOf versionOrder source < indexOf versionOrder target ->
            diffPost readDiffFile (Some (postBody source target)) cache
            = diffGet readDiffFile (versionName source) (versionName target) cache)).
Proof.
  split.
  - intros source target. unfold diffGet.
    destruct (validVersion source) as [sv|], (validVersion target) as [tv|];
      try (split; [eauto|done]).
    pose proof (analyzeDiff_finishes readDiffFile (mkRequest sv tv None) cache) as Hfin.
    destruct (analyzeDiff readDiffFile (mkRequest sv tv None) cache)
      as [cache' [res|msg|]]; cbn [snd] in *;
      (split; [done|intros [?|?]; done]).
  - intros source target Hs Ht.
    assert (Hget : diffGet readDiffFile (versionName source) (versionName target) cache
        = (fst (analyzeDiff readDiffFile (mkRequest source target None) cache),
           if throws (snd (analyzeDiff readDiffFile (mkRequest source target None) cache))
           then Responded 500 [mkRequest source target None]
           else Responded 200 [mkRequest source target None])).
    { unfold diffGet. rewrite !validVersion_name by done.
      pose proof (analyzeDiff_finishes readDiffFile (mkRequest source target None) cache)
        as Hfin.
      by destruct (analyzeDiff readDiffFile (mkRequest source target None) cache)
        as [cache' [res|msg|]]. }
    split; [exact Hget|]. split.
    + intros Hge. split.
      * unfold diffPost. rewrite safeParse_postBody by done. cbn [reqSource reqTarget].
        destruct (Z.geb_spec (indexOf versionOrder source) (indexOf versionOrder target));
          [done|lia].
      * rewrite Hget. cbn [snd].
        assert (Hempty : getUpgradePath source target = Some []).
        { unfold getUpgradePath.
          destruct (Z.geb_spec (indexOf versionOrder source) (indexOf versionOrder target));
            [|lia]. by rewrite orb_true_r. }
        apply (analyzeDiff_thrown_iff readDiffFile (mkRequest source target None) cache)
          in Hempty as [msg ->]. done.
    + intros Hlt. rewrite Hget. unfold diffPost.
      rewrite safeParse_postBody by done. cbn [reqSource reqTarget].
      destruct (Z.geb_spec (indexOf versionOrder source) (indexOf versionOrder target));
        [lia|].
      pose proof (analyzeDiff_finishes readDiffFile (mkRequest source target None) cache)
        as Hfin.
      by destruct (analyzeDiff readDiffFile (mkRequest source target None) cache)
        as [cache' [res|msg|]].
Qed.

(** X9. Every pair [GET /api/diff/pairs]
    lists can be analyzed: its upgrade path is the pair itself, and
    [analyzeDiff] returns for it whatever the files hold. When the load of
    the pair's file gives nothing, the answer is not an error but an empty
    diff with no changes: the cache is left as it was when the file cannot
    be read, and holds [null] for the pair from then on when that is what
    the file or the cache held. *)
Theorem available_pairs_are_analyzed readDiffFile
    (cache : gmap string ParsedFile) (pair : CppVersionId * CppVersionId) :
  pair ∈ getAvailableDiffPairs ->
  getUpgradePath (fst pair) (snd pair) = Some [pair]
  /\ exists result,
       snd (analyzeDiff readDiffFile (mkRequest (fst pair) (snd pair) None) cache)
       = Returned result
       /\ source result = fst pair /\ target result = snd pair
       /\ (cache !! getDiffKey (fst pair) (snd pair) = None ->
           readDiffFile (getDiffKey (fst pair) (snd pair)) = None ->
           diff result = emptyCategory /\ totalChanges result = 0%nat
           /\ fst (analyzeDiff readDiffFile (mkRequest (fst pair) (snd pair) None) cache)
              = cache)
       /\ (cache !! getDiffKey (fst pair) (snd pair) = None ->
           readDiffFile (getDiffKey (fst pair) (snd pair)) = Some None ->
           diff result = emptyCategory /\ totalChanges result = 0%nat
           /\ fst (analyzeDiff readDiffFile (mkRequest (fst pair) (snd pair) None) cache)
              = <[getDiffKey (fst pair) (snd pair) := None]> cache)
       /\ (cache !! getDiffKey (fst pair) (snd pair) = Some None ->
           diff result = emptyCategory /\ totalChanges result = 0%nat
           /\ fst (analyzeDiff readDiffFile (mkRequest (fst pair) (snd pair) None) cache)
              = cache).
Proof.
  intros Hin.
  assert (Hpath : getUpgradePath (fst pair) (snd pair) = Some [pair]).
  { unfold getAvailableDiffPairs, getVersionPairs in Hin. cbn in Hin.
    repeat (apply elem_of_cons in Hin as [->|Hin]; [reflexivity|]).
    by apply elem_of_nil in Hin. }
  split; [exact Hpath|]. unfold analyzeDiff. cbn [reqSource reqTarget reqCategories].
  rewrite Hpath. destruct pair as [src tgt]. cbn [fst snd loadAlongPath] in *.
  unfold loadDiffData.
  destruct (cache !! getDiffKey src tgt) as [[data|]|] eqn:E.
  - eexists. split; [reflexivity|]. cbn [source target]. by split_and!.
  - eexists. split; [reflexivity|]. cbn [source target diff totalChanges fst].
    by split_and!.
  - destruct (readDiffFile (getDiffKey src tgt)) as [[data|]|] eqn:F.
    + eexists. split; [reflexivity|]. cbn [source target]. by split_and!.
    + eexists. split; [reflexivity|]. cbn [source target diff totalChanges fst].
      by split_and!.
    + eexists. split; [reflexivity|]. cbn [source target diff totalChanges fst].
      by split_and!.
Qed.

Lemma available_pairs_are_analyzed_witness :
  getUpgradePath cpp14 cpp17 = Some [(cpp14, cpp17)]
  /\ exists result,
       snd (analyzeDiff sampleFiles (mkRequest cpp14 cpp17 None) ∅) = Returned result
       /\ source result = cpp14 /\ target result = cpp17
       /\ ((∅ : gmap string ParsedFile) !! getDiffKey cpp14 cpp17 = None ->
           sampleFiles (getDiffKey cpp14 cpp17) = None ->
           diff result = emptyCategory /\ totalChanges result = 0%nat
           /\ fst (analyzeDiff sampleFiles (mkRequest cpp14 cpp17 None) ∅) = ∅)
       /\ ((∅ : gmap string ParsedFile) !! getDiffKey cpp14 cpp17 = None ->
           sampleFiles (getDiffKey cpp14 cpp17) = Some None ->
           diff result = emptyCategory /\ totalChanges result = 0%nat
           /\ fst (analyzeDiff sampleFiles (mkRequest cpp14 cpp17 None) ∅)
              = <[getDiffKey cpp14 cpp17 := None]> ∅)
       /\ ((∅ : gmap string ParsedFile) !! getDiffKey cpp14 cpp17 = Some None ->
           diff result = emptyCategory /\ totalChanges result = 0%nat
           /\ fst (analyzeDiff sampleFiles (mkRequest cpp14 cpp17 None) ∅) = ∅).
Proof.
  apply (available_pairs_are_analyzed sampleFiles ∅ (cpp14, cpp17)).
  apply (bool_decide_unpack _). vm_compute. reflexivity.
Defined.

End DiffProps.
(* ===================================================================== *)
(** ** Properties of the text chunker *)
(* ===================================================================== *)

Module ChunkerProps.
Import JsString Chunker.

(** *** Slices, trimming and searching *)

Lemma slice_length_le {A : Type} (s : list A) (a b : Z) :
  0 <= a <= b -> Z.of_nat (length (slice s a b)) <= b - a.
Proof.
  intros Hab. unfold slice, sliceBound.
  rewrite length_take, length_drop.
  destruct (a <? 0) eqn:Ea; [apply Z.ltb_lt in Ea; lia|].
  destruct (b <? 0) eqn:Eb; [apply Z.ltb_lt in Eb; lia|].
  lia.
Qed.

Lemma trimStart_length (s : jsstring) : (length (trimStart s) <= length s)%nat.
Proof.
  induction s as [|c s IH]; cbn [trimStart length]; [lia|].
  destruct (isWhiteSpace c); cbn [length]; lia.
Qed.

Lemma trim_length (s : jsstring) : (length (trim s) <= length s)%nat.
Proof.
  unfold trim, trimEnd. rewrite length_rev.
  etransitivity; [apply trimStart_length|].
  rewrite length_rev. apply trimStart_length.
Qed.

Lemma startsWith_length (s pattern : jsstring) :
  startsWith s pattern = true -> (length pattern <= length s)%nat.
Proof.
  revert s. induction pattern as [|p pattern IH]; intros s; cbn [startsWith length].
  - lia.
  - destruct s as [|c s]; [done|]. intros H%andb_prop. cbn [length].
    destruct H as [_ H]. apply IH in H. lia.
Qed.

Lemma lastIndexOfFrom_within (pattern s : jsstring) :
  forall i found,
  0 <= i ->
  foundWithin pattern (i + Z.of_nat (length s)) found ->
  foundWithin pattern (i + Z.of_nat (length s)) (lastIndexOfFrom s pattern i found).
Proof.
  induction s as [|c s IH]; intros i found Hi Hfound; cbn [lastIndexOfFrom].
  - destruct (startsWith [] pattern) eqn:E; [|done].
    apply startsWith_length in E. right. lia.
  - replace (i + Z.of_nat (length (c :: s))) with ((i + 1) + Z.of_nat (length s))
      by (cbn [length]; lia).
    apply IH; [lia|].
    destruct (startsWith (c :: s) pattern) eqn:E.
    + apply startsWith_length in E. cbn [length] in E. right. lia.
    + destruct Hfound as [->|Hfound]; [by left|]. right. cbn [length] in Hfound. lia.
Qed.

Lemma lastIndexOf_within (s pattern : jsstring) :
  foundWithin pattern (Z.of_nat (length s)) (lastIndexOf s pattern).
Proof.
  unfold lastIndexOf.
  apply (lastIndexOfFrom_within pattern s 0 (-1)); [lia|by left].
Qed.

(** *** One iteration *)

(** With at least 200 characters per chunk, a chunk that starts at a
    non-negative index ends between 199 characters before and exactly at
    [startIndex + maxChars]. *)
Lemma findEndIndex_bounds (text : jsstring) (maxChars startIndex : Z) :
  200 <= maxChars -> 0 <= startIndex ->
  startIndex + maxChars - 199 <= findEndIndex text maxChars startIndex
    <= startIndex + maxChars.
Proof.
  intros Hmax Hstart. unfold findEndIndex.
  destruct (_ <? Z.of_nat (length text)); [|lia].
  rewrite Z.max_l by lia.
  set (searchStart := startIndex + maxChars - 200).
  set (searchText := slice text searchStart (startIndex + maxChars)).
  assert (Hlen : Z.of_nat (length searchText) <= 200).
  { pose proof (slice_length_le text searchStart (startIndex + maxChars)).
    unfold searchText, searchStart in *. lia. }
  pose proof (lastIndexOf_within searchText (lit (String "010" (String "010" "")))) as Hp.
  pose proof (lastIndexOf_within searchText (lit ". ")) as Hs1.
  pose proof (lastIndexOf_within searchText (lit (String "." (String "010" "")))) as Hs2.
  pose proof (lastIndexOf_within searchText (lit "? ")) as Hs3.
  pose proof (lastIndexOf_within searchText (lit "! ")) as Hs4.
  pose proof (lastIndexOf_within searchText (lit " ")) as Hw.
  unfold foundWithin in *. cbn [lit String.list_ascii_of_string List.map length] in *.
  repeat match goal with
         | |- context [negb (?x =? -1)] =>
             destruct (Z.eqb_spec x (-1)); cbn [negb]
         end; unfold searchStart; lia.
Qed.

(** *** The loop *)

(** A chunk the loop pushes is no longer than [maxChars]. *)
Lemma pushed_chunk_length (text : jsstring) (maxChars startIndex : Z) :
  200 <= maxChars -> 0 <= startIndex ->
  Z.of_nat (length (trim (slice text startIndex
                            (findEndIndex text maxChars startIndex))))
    <= maxChars.
Proof.
  intros Hmax Hstart.
  pose proof (findEndIndex_bounds text maxChars startIndex Hmax Hstart).
  pose proof (trim_length (slice text startIndex (findEndIndex text maxChars startIndex))).
  pose proof (slice_length_le text startIndex (findEndIndex text maxChars startIndex)).
  lia.
Qed.

(** When the overlap leaves every iteration some progress, the loop ends
    within as many iterations as there are characters left, and every chunk
    it pushes is no longer than [maxChars]. *)
Lemma chunkLoop_returns (text : jsstring) (maxChars overlapChars : Z) :
  200 <= maxChars -> 0 <= overlapChars <= maxChars - 200 ->
  forall fuel startIndex chunks,
  0 <= startIndex ->
  Z.of_nat (length text) - startIndex <= Z.of_nat fuel ->
  Forall (fun chunk => Z.of_nat (length chunk) <= maxChars) chunks ->
  exists chunks',
    chunkLoop fuel text maxChars overlapChars startIndex chunks = Some chunks'
    /\ Forall (fun chunk => Z.of_nat (length chunk) <= maxChars) chunks'.
Proof.
  intros Hmax Hover fuel.
  induction fuel as [|fuel IH]; intros startIndex chunks Hstart Hfuel Hall;
    cbn [chunkLoop].
  - destruct (Z.ltb_spec startIndex (Z.of_nat (length text))); [lia|eauto].
  - destruct (Z.ltb_spec startIndex (Z.of_nat (length text))); [|eauto].
    pose proof (findEndIndex_bounds text maxChars startIndex Hmax Hstart) as Hend.
    assert (Hall' : Forall (fun chunk => Z.of_nat (length chunk) <= maxChars)
              (chunks ++ [trim (slice text startIndex
                                  (findEndIndex text maxChars startIndex))])).
    { apply Forall_app. split; [done|]. constructor; [|constructor].
      by apply pushed_chunk_length. }
    destruct (_ >=? _); [eauto|].
    apply IH; [lia|lia|done].
Qed.

Lemma chunkLoop_more_fuel (text : jsstring) (maxChars overlapChars : Z) :
  forall fuel fuel' startIndex chunks result,
  chunkLoop fuel text maxChars overlapChars startIndex chunks = Some result ->
  (fuel <= fuel')%nat ->
  chunkLoop fuel' text maxChars overlapChars startIndex chunks = Some result.
Proof.
  induction fuel as [|fuel IH]; intros fuel' startIndex chunks result;
    cbn [chunkLoop].
  - destruct (_ <? _) eqn:E; [done|]. intros [= <-] _.
    destruct fuel'; cbn [chunkLoop]; by rewrite E.
  - destruct (_ <? _) eqn:E.
    + intros Hrun Hle. destruct fuel' as [|fuel']; [lia|]. cbn [chunkLoop].
      rewrite E. destruct (_ >=? _); [done|]. apply IH; [done|lia].
    + intros [= <-] _. destruct fuel'; cbn [chunkLoop]; by rewrite E.
Qed.

Lemma estimateTokenCount_le (chunk : jsstring) (n : Z) :
  Z.of_nat (length chunk) <= 4 * n -> estimateTokenCount chunk <= n.
Proof.
  intros H. unfold estimateTokenCount, CHARS_PER_TOKEN.
  enough ((Z.of_nat (length chunk) + 4 - 1) / 4 < n + 1) by lia.
  apply Z.div_lt_upper_bound; lia.
Qed.

(** C2. With the default options [chunkText] returns for every text, within
    as many iterations as the text has characters (and more fuel gives the
    same result): every chunk has at most 2000 characters, that is, at most
    500 estimated tokens, and a text of at most 2000 characters comes back
    as the one-element list that holds it unchanged. *)
Theorem chunkText_default_bounds (text : jsstring) (extra : nat) :
  exists chunks,
    chunkText (length text + extra) text defaultOptions = Some chunks
    /\ Forall (fun chunk => (length chunk <= 2000)%nat
                            /\ estimateTokenCount chunk <= 500) chunks
    /\ ((length text <= 2000)%nat -> chunks = [text]).
Proof.
  unfold chunkText, defaultOptions. cbv zeta.
  cbn [maxTokens overlapTokens default].
  change (DEFAULT_MAX_TOKENS * CHARS_PER_TOKEN) with 2000.
  change (DEFAULT_OVERLAP_TOKENS * CHARS_PER_TOKEN) with 200.
  destruct (Z.leb_spec (Z.of_nat (length text)) 2000) as [Hshort|Hlong].
  - eexists. split; [reflexivity|]. split; [|done].
    constructor; [|constructor]. split; [lia|].
    apply estimateTokenCount_le. lia.
  - destruct (chunkLoop_returns text 2000 200 ltac:(lia) ltac:(lia)
                (length text + extra) 0 [] ltac:(lia) ltac:(lia) ltac:(constructor))
      as (chunks & -> & Hall).
    cbn [mbind option_bind]. eexists. split; [reflexivity|]. split; [|lia].
    rewrite List.Forall_forall in *. intros chunk [Hin _]%List.filter_In.
    specialize (Hall _ Hin). split; [lia|]. apply estimateTokenCount_le. lia.
Qed.

(** A text of twenty characters cut with eight characters per chunk and no
    overlap: at the last space, after the sentence, and at the end. *)
Example chunkText_example :
  chunkText 3 (lit "hello world. this is") (mkOptions (Some 2) (Some 0))
  = Some [lit "hello"; lit "world."; lit "this is"]
  /\ startIndices 3 (lit "hello world. this is") 8 0 0 = [0; 6; 13].
Proof. split; reflexivity. Qed.

(** With four characters per chunk and an overlap of four, the loop on the
    text [abcde] is at start index 0 again after an iteration. *)
Lemma chunkLoop_abcde_stuck (fuel : nat) :
  forall chunks, chunkLoop fuel (lit "abcde") 4 4 0 chunks = None.
Proof.
  induction fuel as [|fuel IH]; intros chunks; [reflexivity|].
  cbn [chunkLoop].
  change (0 <? Z.of_nat (length (lit "abcde"))) with true. cbv iota.
  change (findEndIndex (lit "abcde") 4 0) with 4.
  change (4 - 4 >=? Z.of_nat (length (lit "abcde"))) with false. cbv iota.
  apply IH.
Qed.

(** C6 fails: with [maxTokens = 1] and [overlapTokens = 1] the loop on the
    five-character text [abcde] comes back to start index 0 after every
    iteration: the start index never increases, and no amount of fuel lets
    [chunkText] return. *)
Theorem chunkText_overlap_never_returns (fuel : nat) :
  chunkText fuel (lit "abcde") (mkOptions (Some 1) (Some 1)) = None
  /\ startIndices fuel (lit "abcde") 4 4 0 = replicate fuel 0.
Proof.
  split.
  - unfold chunkText. cbv zeta. cbn [maxTokens overlapTokens default].
    change (Z.of_nat (length (lit "abcde")) <=? 1 * CHARS_PER_TOKEN) with false.
    cbv iota. change (1 * CHARS_PER_TOKEN) with 4.
    by rewrite chunkLoop_abcde_stuck.
  - induction fuel as [|fuel IH]; [reflexivity|].
    cbn [startIndices replicate].
    change (0 <? Z.of_nat (length (lit "abcde"))) with true. cbv iota.
    change (findEndIndex (lit "abcde") 4 0 - 4) with 0.
    change (0 >=? Z.of_nat (length (lit "abcde"))) with false. cbv iota.
    by rewrite IH.
Qed.

(** *** Chunks of any size *)






(** *** What a chunk is *)

Lemma slice_substring {A : Type} (s : list A) (a b : Z) :
  exists before after, s = before ++ slice s a b ++ after.
Proof.
  unfold slice. cbv zeta.
  generalize (Z.to_nat (sliceBound (Z.of_nat (length s)) b
                        - sliceBound (Z.of_nat (length s)) a)).
  generalize (Z.to_nat (sliceBound (Z.of_nat (length s)) a)).
  intros from n.
  exists (take from s), (drop n (drop from s)).
  by rewrite !take_drop.
Qed.

Lemma trimStart_suffix (s : jsstring) :
  exists spaces, s = spaces ++ trimStart s.
Proof.
  induction s as [|c s [spaces IH]]; [by exists []|]. cbn [trimStart].
  destruct (isWhiteSpace c).
  - exists (c :: spaces). cbn [app]. by rewrite <- IH.
  - by exists [].
Qed.

Lemma trimStart_head_not_space (s : jsstring) :
  match trimStart s with [] => True | c :: _ => isWhiteSpace c = false end.
Proof.
  induction s as [|c s IH]; [done|]. cbn [trimStart].
  by destruct (isWhiteSpace c) eqn:E.
Qed.

Lemma trim_substring (s : jsstring) :
  exists before after, s = before ++ trim s ++ after.
Proof.
  unfold trim, trimEnd.
  destruct (trimStart_suffix s) as [before Hs].
  destruct (trimStart_suffix (rev (trimStart s))) as [after Hr].
  exists before, (rev after).
  rewrite <- rev_app_distr, <- Hr, rev_involutive. exact Hs.
Qed.

Lemma trim_trimmed (s : jsstring) : trimmed (trim s).
Proof.
  unfold trimmed, trim, trimEnd. rewrite rev_involutive.
  split; [|apply trimStart_head_not_space].
  pose proof (trimStart_head_not_space s) as Hhead.
  destruct (trimStart_suffix (rev (trimStart s))) as [spaces Hr].
  set (u := trimStart (rev (trimStart s))) in *.
  assert (Ht : trimStart s = rev u ++ rev spaces).
  { rewrite <- rev_app_distr, <- Hr. by rewrite rev_involutive. }
  destruct (rev u) as [|c w]; [done|].
  rewrite Ht in Hhead. exact Hhead.
Qed.

Lemma chunkLoop_chunks (text : jsstring) (maxChars overlapChars : Z) :
  forall fuel startIndex chunks result,
  chunkLoop fuel text maxChars overlapChars startIndex chunks = Some result ->
  Forall (fun chunk => substringOf chunk text /\ trimmed chunk) chunks ->
  Forall (fun chunk => substringOf chunk text /\ trimmed chunk) result.
Proof.
  induction fuel as [|fuel IH]; intros startIndex chunks result; cbn [chunkLoop].
  - destruct (_ <? _); [done|]. by intros [= <-].
  - destruct (_ <? _); [|by intros [= <-]].
    intros Hrun Hall.
    assert (Hall' : Forall (fun chunk => substringOf chunk text /\ trimmed chunk)
              (chunks ++ [trim (slice text startIndex
                                  (findEndIndex text maxChars startIndex))])).
    { apply Forall_app. split; [done|]. constructor; [|constructor].
      split; [|apply trim_trimmed].
      destruct (slice_substring text startIndex
                  (findEndIndex text maxChars startIndex)) as (b1 & a1 & H1).
      destruct (trim_substring (slice text startIndex
                  (findEndIndex text maxChars startIndex))) as (b2 & a2 & H2).
      exists (b1 ++ b2), (a2 ++ a1).
      rewrite H1 at 1. rewrite H2 at 1. by rewrite <- !app_assoc. }
    destruct (_ >=? _).
    + by injection Hrun as <-.
    + by eapply IH.
Qed.

(** X11. Every chunk [chunkText]
    returns is a contiguous part of the text. When the text is longer than
    [maxChars], every chunk is moreover non-empty and neither starts nor
    ends with white space; a text of at most [maxChars] characters comes
    back as it is, even when it is empty or padded with white space. *)
Theorem chunkText_chunks_are_trimmed_substrings (fuel : nat) (text : jsstring)
    (options : ChunkingOptions) (chunks : list jsstring) :
  chunkText fuel text options = Some chunks ->
  Forall (fun chunk => substringOf chunk text) chunks
  /\ (maxCharsOf options < Z.of_nat (length text) ->
      Forall (fun chunk => chunk <> [] /\ trimmed chunk) chunks)
  /\ (Z.of_nat (length text) <= maxCharsOf options -> chunks = [text]).
Proof.
  unfold chunkText. cbv zeta. fold (maxCharsOf options). fold (overlapCharsOf options).
  destruct (Z.leb_spec (Z.of_nat (length text)) (maxCharsOf options)) as [Hshort|Hlong].
  - intros [= <-]. split; [|split; [lia|done]].
    constructor; [|constructor]. exists [], []. by rewrite app_nil_r.
  - destruct (chunkLoop _ _ _ _ _ _) as [result|] eqn:Hrun; [|done].
    cbn [mbind option_bind]. intros [= <-].
    pose proof (chunkLoop_chunks _ _ _ _ _ _ _ Hrun ltac:(constructor)) as Hall.
    rewrite List.Forall_forall in Hall.
    split; [|split; [|lia]].
    + apply List.Forall_forall. intros chunk [Hin _]%List.filter_In.
      by apply Hall.
    + intros _. apply List.Forall_forall.
      intros chunk [Hin Hlen]%List.filter_In. split; [|by apply Hall].
      intros ->. cbn in Hlen. done.
Qed.

Lemma chunkText_chunks_are_trimmed_substrings_witness :
  Forall (fun chunk => substringOf chunk (lit "hello world. this is"))
         [lit "hello"; lit "world."; lit "this is"]
  /\ (maxCharsOf (mkOptions (Some 2) (Some 0))
      < Z.of_nat (length (lit "hello world. this is")) ->
      Forall (fun chunk => chunk <> [] /\ trimmed chunk)
             [lit "hello"; lit "world."; lit "this is"])
  /\ (Z.of_nat (length (lit "hello world. this is"))
      <= maxCharsOf (mkOptions (Some 2) (Some 0)) ->
      [lit "hello"; lit "world."; lit "this is"] = [lit "hello world. this is"]).
Proof.
  apply (chunkText_chunks_are_trimmed_substrings 3 (lit "hello world. this is")
           (mkOptions (Some 2) (Some 0))).
  reflexivity.
Defined.

(** *** What the chunks cover *)





End ChunkerProps.

(* ===================================================================== *)
(** ** Properties of the upload job manager *)
(* ===================================================================== *)

Module JobManagerProps.
Import JobManager.

Lemma filter_length_le {A : Type} (p : A -> bool) (l : list A) :
  (length (List.filter p l) <= length l)%nat.
Proof.
  induction l as [|x l IH]; cbn [List.filter length]; [lia|].
  destruct (p x); cbn [length]; lia.
Qed.

Lemma filter_all_length {A : Type} (p : A -> bool) (l : list A) :
  length (List.filter p l) = length l -> Forall (fun x => p x = true) l.
Proof.
  induction l as [|x l IH]; cbn [List.filter length]; intros Hlen; [constructor|].
  pose proof (filter_length_le p l).
  destruct (p x) eqn:E; cbn [length] in Hlen; [|lia].
  constructor; [done|]. apply IH. lia.
Qed.

Lemma createJob_invariant id now language version filenames
    (jobs : gmap string UploadJob) :
  jobInvariant (snd (createJob id now language version filenames jobs)).
Proof.
  unfold createJob, jobInvariant. cbn [snd files totalFiles processedFiles].
  split; [apply List.length_map|].
  induction filenames as [|f rest IH]; [done|]. cbn [List.map List.filter].
  unfold isProcessed at 1. cbn [status]. by rewrite !bool_decide_eq_false_2.
Qed.

Lemma perform_preserves op (jobs : gmap string UploadJob) :
  jobsInvariant jobs -> jobsInvariant (perform op jobs).
Proof.
  unfold jobsInvariant. intros Hinv.
  destruct op as [id now language version filenames | jobId | jobId st now
                 | jobId fname update now | jobId | jobId | jobId | ];
    cbn [perform]; try exact Hinv.
  - apply map_Forall_insert_2; [|exact Hinv].
    apply (createJob_invariant id now language version filenames jobs).
  - unfold updateJobStatus. destruct (jobs !! jobId) as [job|] eqn:E; [|exact Hinv].
    apply map_Forall_insert_2; [|exact Hinv]. exact (Hinv _ _ E).
  - unfold updateFileStatus. destruct (jobs !! jobId) as [job|] eqn:E; [|exact Hinv].
    destruct (findIndex _ (files job)) as [i|]; [|exact Hinv].
    apply map_Forall_insert_2; [|exact Hinv].
    unfold jobInvariant. cbn [files totalFiles processedFiles].
    split; [|reflexivity]. rewrite length_alter. exact (proj1 (Hinv _ _ E)).
  - unfold deleteJob. cbn [fst]. by apply map_Forall_delete.
  - unfold cleanupFired. by apply map_Forall_delete.
Qed.

(** Every state the manager reaches from the empty map. *)
Lemma reachable_invariant (ops : list operation) :
  jobsInvariant (foldl (fun jobs op => perform op jobs) ∅ ops).
Proof.
  assert (H : forall jobs, jobsInvariant jobs ->
            jobsInvariant (foldl (fun jobs op => perform op jobs) jobs ops)).
  { induction ops as [|op ops IH]; intros jobs Hinv; [done|].
    cbn [foldl]. apply IH. by apply perform_preserves. }
  apply H. unfold jobsInvariant. apply map_Forall_empty.
Qed.

Lemma Math_round_bounds (x : Q) :
  (0 <= x)%Q -> (x <= 100)%Q -> 0 <= Math_round x <= 100.
Proof.
  intros H0 H100. unfold Math_round. split.
  - change 0 with (Qfloor (0 + (1 # 2))%Q). apply Qfloor_resp_le.
    by apply Qplus_le_compat; [|apply Qle_refl].
  - change 100 with (Qfloor (100 + (1 # 2))%Q). apply Qfloor_resp_le.
    by apply Qplus_le_compat; [|apply Qle_refl].
Qed.

Lemma ratio_bounds (p t : nat) :
  (p <= t)%nat -> (0 < t)%nat ->
  (0 <= inject_Z (Z.of_nat p) / inject_Z (Z.of_nat t))%Q
  /\ (inject_Z (Z.of_nat p) / inject_Z (Z.of_nat t) <= 1)%Q.
Proof.
  intros Hle Hpos.
  assert (Ht : (0 < inject_Z (Z.of_nat t))%Q).
  { change 0%Q with (inject_Z 0). rewrite <- Zlt_Qlt. lia. }
  split.
  - apply Qle_shift_div_l; [exact Ht|]. rewrite Qmult_0_l.
    change 0%Q with (inject_Z 0). rewrite <- Zle_Qle. lia.
  - apply Qle_shift_div_r; [exact Ht|]. rewrite Qmult_1_l.
    rewrite <- Zle_Qle. lia.
Qed.

Lemma progress_bounds fl (p t : nat) :
  roundsToDouble fl -> (p <= t)%nat -> (0 < t)%nat ->
  0 <= Math_round (fl (fl (inject_Z (Z.of_nat p) / inject_Z (Z.of_nat t)) * 100)%Q)
    <= 100.
Proof.
  intros [Hmono H0 H1 H100] Hle Hpos.
  destruct (ratio_bounds p t Hle Hpos) as [Hlo Hhi].
  assert (H0' : (0 <= fl 0)%Q) by (apply Qle_lteq; right; symmetry; exact H0).
  assert (H1' : (fl 1 <= 1)%Q) by (apply Qle_lteq; right; exact H1).
  assert (H100' : (fl 100 <= 100)%Q) by (apply Qle_lteq; right; exact H100).
  pose proof (Qle_trans _ _ _ H0' (Hmono _ _ Hlo)) as Hlo'.
  pose proof (Qle_trans _ _ _ (Hmono _ _ Hhi) H1') as Hhi'.
  set (r := fl (inject_Z (Z.of_nat p) / inject_Z (Z.of_nat t))%Q) in *.
  assert (Ha : (0 <= r * 100)%Q) by (apply Qmult_le_0_compat; [exact Hlo'|done]).
  assert (Hb : (r * 100 <= 100)%Q).
  { apply Qle_trans with (1 * 100)%Q; [|done].
    apply Qmult_le_compat_r; [exact Hhi'|done]. }
  apply Math_round_bounds.
  - apply Qle_trans with (fl 0%Q); [exact H0' | by apply Hmono].
  - apply Qle_trans with (fl 100%Q); [by apply Hmono | exact H100'].
Qed.

(** C10. The empty job map satisfies, and every operation of the manager
    preserves, for every job: the files array is as long as [totalFiles] and
    [processedFiles] is the number of files whose status is completed or
    failed. On such a map [getJobProgress] reports a progress between 0 and
    100, and 0 when [totalFiles] is 0. When [updateFileStatus] finds the
    file and every file is completed or failed after the update, the job's
    status becomes completed, whether or not a file failed; and
    [updateFileStatus] never makes a job failed that was not failed before. *)
Theorem job_manager_invariants fl (jobs : gmap string UploadJob) :
  roundsToDouble fl ->
  jobsInvariant jobs ->
  jobsInvariant ∅
  /\ (forall op, jobsInvariant (perform op jobs))
  /\ (forall jobId report,
        getJobProgress fl jobId jobs = Some report ->
        0 <= progress report <= 100
        /\ (total report = 0%nat -> progress report = 0))
  /\ (forall jobId fname update now job job',
        jobs !! jobId = Some job ->
        updateFileStatus jobId fname update now jobs !! jobId = Some job' ->
        (fname ∈ List.map filename (files job) ->
         Forall (fun f => isProcessed f = true) (files job') ->
         jobStatus job' = completed)
        /\ (jobStatus job' = failed -> jobStatus job = failed)).
Proof.
  intros Hfl Hinv. split; [apply map_Forall_empty|].
  split; [intros op; by apply perform_preserves|]. split.
  - intros jobId report. unfold getJobProgress.
    destruct (jobs !! jobId) as [job|] eqn:E; [|done].
    intros [= <-]. cbn [progress total].
    destruct (Hinv _ _ E) as [Hlen Hproc].
    destruct (0 <? totalFiles job)%nat eqn:Hpos.
    + apply Nat.ltb_lt in Hpos. split; [|lia].
      apply progress_bounds; [done| |done].
      rewrite Hproc, <- Hlen. apply filter_length_le.
    + split; [lia|done].
  - intros jobId fname update now job job' Hjob. unfold updateFileStatus.
    rewrite Hjob. destruct (Hinv _ _ Hjob) as [Hlen Hproc].
    destruct (findIndex _ (files job)) as [i|] eqn:Hfind.
    + rewrite lookup_insert_eq. intros [= <-]. cbn [jobStatus files].
      set (files' := alter _ i (files job)).
      assert (Hlen' : length files' = totalFiles job)
        by (unfold files'; by rewrite length_alter).
      split.
      * intros _ Hall.
        assert (Hcount : length (List.filter isProcessed files') = length files').
        { clear -Hall. induction Hall as [|f l Hf _ IH]; [done|].
          cbn [List.filter]. rewrite Hf. cbn [length]. by rewrite IH. }
        rewrite Hcount, Hlen', Nat.eqb_refl. by destruct (existsb _ _).
      * destruct (_ =? _)%nat; [by destruct (existsb _ _)|].
        by destruct (existsb _ _).
    + rewrite Hjob. intros [= <-]. split; [|done].
      intros Hin. exfalso. clear -Hin Hfind.
      induction (files job) as [|f l IH]; cbn [List.map findIndex] in *.
      * by apply elem_of_nil in Hin.
      * case_bool_decide as Hf; [done|].
        destruct (findIndex _ l); [done|]. apply IH; [done|].
        apply elem_of_cons in Hin as [->|Hin]; done.
Qed.

(** The theorem with exact arithmetic for the rounding, on the map that
    holds one job of two files. *)
Lemma job_manager_invariants_witness :
  jobsInvariant (fst (createJob "job-1" 0 "cpp" "cpp17" ["a.pdf"; "b.pdf"] ∅))
  /\ forall op,
       jobsInvariant
         (perform op (fst (createJob "job-1" 0 "cpp" "cpp17" ["a.pdf"; "b.pdf"] ∅))).
Proof.
  assert (Hfl : roundsToDouble (fun x => x))
    by (constructor; [intros x y H; exact H | reflexivity ..]).
  assert (Hinv : jobsInvariant
            (fst (createJob "job-1" 0 "cpp" "cpp17" ["a.pdf"; "b.pdf"] ∅))).
  { apply map_Forall_insert_2; [|apply map_Forall_empty].
    split; reflexivity. }
  split; [exact Hinv|].
  exact (proj1 (proj2 (job_manager_invariants (fun x => x) _ Hfl Hinv))).
Defined.

(** A job of two files, one completed and then one failed: the job ends
    completed, with a progress of 50 and then 100 (exact arithmetic). *)
Example job_manager_example :
  let jobs0 := fst (createJob "job-1" 0 "cpp" "cpp17" ["a.pdf"; "b.pdf"] ∅) in
  let jobs1 :=
    updateFileStatus "job-1" "a.pdf"
      (mkUpdate None (Some completed) (Some "doc-1") (Some 3%nat) (Some 1200%nat) None)
      1 jobs0 in
  let jobs2 :=
    updateFileStatus "job-1" "b.pdf"
      (mkUpdate None (Some failed) None None None (Some "Unknown error")) 2 jobs1 in
  let report jobs :=
    (fun p => (progressStatus p, progress p, completedCount p, failedCount p))
      <$> getJobProgress (fun x => x) "job-1" jobs in
  report jobs0 = Some (pending, 0, 0%nat, 0%nat)
  /\ report jobs1 = Some (pending, 50, 1%nat, 0%nat)
  /\ report jobs2 = Some (completed, 100, 1%nat, 1%nat).
Proof. cbv zeta. repeat split; vm_compute; reflexivity. Qed.

(** *** One job at a time *)

(** X13. An operation of the manager leaves every
    job other than the one it addresses as it is, and only [createJob] adds
    a job: an update of a job that is not in the map does not create it.
    After [createJob], [getJob] gives the job created, which is pending with
    every file pending and none processed; after [deleteJob], which answers
    whether the job was there, or after the cleanup timer, [getJob] gives
    nothing. *)
Theorem job_operations_are_local (jobs : gmap string UploadJob) :
  (forall op jobId,
     target op <> Some jobId ->
     getJob jobId (perform op jobs) = getJob jobId jobs)
  /\ (forall op jobId,
        creates op = false -> getJob jobId jobs = None ->
        getJob jobId (perform op jobs) = None)
  /\ (forall id now language version filenames,
        let created := createJob id now language version filenames jobs in
        getJob id (fst created) = Some (snd created)
        /\ jobStatus (snd created) = pending
        /\ processedFiles (snd created) = 0%nat
        /\ List.map filename (files (snd created)) = filenames
        /\ Forall (fun file => status file = pending) (files (snd created)))
  /\ (forall jobId,
        getJob jobId (fst (deleteJob jobId jobs)) = None
        /\ getJob jobId (cleanupFired jobId jobs) = None
        /\ (snd (deleteJob jobId jobs) = true <-> is_Some (getJob jobId jobs))).
Proof.
  unfold getJob. split_and!.
  - intros op jobId Hne.
    destruct op as [id now language version filenames | j | j st now
                   | j fname update now | j | j | j | ];
      cbn [perform target] in *; try done.
    + unfold createJob. cbn [fst]. rewrite lookup_insert_ne; [done|congruence].
    + unfold updateJobStatus. destruct (jobs !! j); [|done].
      rewrite lookup_insert_ne; [done|congruence].
    + unfold updateFileStatus. destruct (jobs !! j) as [job|]; [|done].
      destruct (findIndex _ _); [|done].
      rewrite lookup_insert_ne; [done|congruence].
    + unfold deleteJob. cbn [fst]. rewrite lookup_delete_ne; [done|congruence].
    + unfold cleanupFired. rewrite lookup_delete_ne; [done|congruence].
  - intros op jobId Hop Hnone.
    destruct op as [id now language version filenames | j | j st now
                   | j fname update now | j | j | j | ];
      cbn [perform creates] in *; try done.
    + unfold updateJobStatus. destruct (jobs !! j) as [job|] eqn:E; [|done].
      rewrite lookup_insert_ne; [done|congruence].
    + unfold updateFileStatus. destruct (jobs !! j) as [job|] eqn:E; [|done].
      destruct (findIndex _ _); [|done].
      rewrite lookup_insert_ne; [done|congruence].
    + unfold deleteJob. cbn [fst]. by apply lookup_delete_None; right.
    + unfold cleanupFired. by apply lookup_delete_None; right.
  - intros id now language version filenames. cbv zeta. unfold createJob.
    cbn [fst snd jobStatus processedFiles files]. rewrite lookup_insert_eq.
    split_and!; try done.
    + rewrite List.map_map. cbn [filename]. apply List.map_id.
    + apply Forall_forall. intros file Hin. apply list_elem_of_In in Hin.
      apply List.in_map_iff in Hin as (name & <- & _). done.
  - intros jobId. unfold deleteJob, cleanupFired. cbn [fst snd].
    rewrite lookup_delete_eq. split_and!; try done.
    split; [apply bool_decide_eq_true_1|apply bool_decide_eq_true_2].
Qed.

(** *** What a progress report counts *)

Lemma filter_status_split (l : list FileResult) :
  (length (List.filter (fun f => bool_decide (status f = completed)) l)
   + length (List.filter (fun f => bool_decide (status f = failed)) l))%nat
  = length (List.filter isProcessed l).
Proof.
  induction l as [|f l IH]; [done|]. cbn [List.filter]. unfold isProcessed at 1.
  destruct (status f); repeat case_bool_decide; try done; cbn [orb length]; lia.
Qed.

Lemma fl_proper fl (x y : Q) :
  roundsToDouble fl -> Qeq x y -> Qeq (fl x) (fl y).
Proof.
  intros [Hmono _ _ _] Heq. apply Qle_antisym; apply Hmono;
    apply Qle_lteq; right; [done|by symmetry].
Qed.

Lemma Math_round_proper (x y : Q) : Qeq x y -> Math_round x = Math_round y.
Proof.
  intros Heq. unfold Math_round. apply Qfloor_comp.
  by apply Qplus_comp.
Qed.

Lemma progress_all fl (t : nat) :
  roundsToDouble fl -> (0 < t)%nat ->
  Math_round (fl (fl (inject_Z (Z.of_nat t) / inject_Z (Z.of_nat t)) * 100)%Q) = 100.
Proof.
  intros Hfl Hpos.
  assert (Hone : Qeq (inject_Z (Z.of_nat t) / inject_Z (Z.of_nat t))%Q 1%Q).
  { apply Qmult_inv_r. intros H. unfold Qeq in H. cbn in H. lia. }
  assert (H1 : Qeq (fl (inject_Z (Z.of_nat t) / inject_Z (Z.of_nat t))%Q) 1%Q).
  { etransitivity; [by apply fl_proper|]. by destruct Hfl. }
  assert (H2 : Qeq (fl (fl (inject_Z (Z.of_nat t) / inject_Z (Z.of_nat t)) * 100)%Q)
                   100%Q).
  { etransitivity; [apply (fl_proper fl _ 100%Q Hfl)|by destruct Hfl].
    rewrite H1. reflexivity. }
  by rewrite (Math_round_proper _ _ H2).
Qed.

Lemma progress_none fl (t : nat) :
  roundsToDouble fl ->
  Math_round (fl (fl (inject_Z (Z.of_nat 0) / inject_Z (Z.of_nat t)) * 100)%Q) = 0.
Proof.
  intros Hfl.
  assert (Hzero : Qeq (inject_Z (Z.of_nat 0) / inject_Z (Z.of_nat t))%Q 0%Q).
  { unfold Qdiv. cbn [Z.of_nat]. apply Qmult_0_l. }
  assert (H1 : Qeq (fl (inject_Z (Z.of_nat 0) / inject_Z (Z.of_nat t))%Q) 0%Q).
  { etransitivity; [by apply fl_proper|]. by destruct Hfl. }
  assert (H2 : Qeq (fl (fl (inject_Z (Z.of_nat 0) / inject_Z (Z.of_nat t)) * 100)%Q)
                   0%Q).
  { etransitivity; [apply (fl_proper fl _ 0%Q Hfl)|by destruct Hfl].
    rewrite H1. reflexivity. }
  by rewrite (Math_round_proper _ _ H2).
Qed.

(** X14. On a job map the manager can reach, a progress
    report counts every processed file once, as completed or as failed, and
    never more files than the job has; the progress is 100 when every file
    of a job that has files is counted and 0 when none is; and a job id
    that is not in the map gets no report. *)
Theorem getJobProgress_counts fl (jobs : gmap string UploadJob) jobId :
  roundsToDouble fl ->
  jobsInvariant jobs ->
  match getJobProgress fl jobId jobs with
  | None => getJob jobId jobs = None
  | Some report =>
      exists job,
        getJob jobId jobs = Some job
        /\ progressStatus report = jobStatus job
        /\ progressFiles report = files job
        /\ total report = length (files job)
        /\ (completedCount report + failedCount report)%nat = processedFiles job
        /\ (completedCount report + failedCount report <= total report)%nat
        /\ ((completedCount report + failedCount report)%nat = total report ->
            (0 < total report)%nat -> progress report = 100)
        /\ ((completedCount report + failedCount report)%nat = 0%nat ->
            progress report = 0)
  end.
Proof.
  intros Hfl Hinv. unfold getJobProgress, getJob.
  destruct (jobs !! jobId) as [job|] eqn:E; [|done].
  destruct (Hinv _ _ E) as [Hlen Hproc].
  exists job. cbn [progressStatus progressFiles total completedCount failedCount progress].
  rewrite filter_status_split, <- Hproc.
  split_and!; try done.
  - rewrite Hproc, <- Hlen. apply filter_length_le.
  - intros Hall Hpos. apply Nat.ltb_lt in Hpos as Hpos'. rewrite Hpos', Hall.
    by apply progress_all.
  - intros Hnone. rewrite Hnone. destruct (0 <? totalFiles job)%nat; [|done].
    by apply progress_none.
Qed.

Lemma getJobProgress_counts_witness :
  match getJobProgress (fun x => x) "job-1"
          (fst (createJob "job-1" 0 "cpp" "cpp17" ["a.pdf"; "b.pdf"] ∅)) with
  | None => getJob "job-1" (fst (createJob "job-1" 0 "cpp" "cpp17" ["a.pdf"; "b.pdf"] ∅))
            = None
  | Some report =>
      exists job,
        getJob "job-1" (fst (createJob "job-1" 0 "cpp" "cpp17" ["a.pdf"; "b.pdf"] ∅))
          = Some job
        /\ progressStatus report = jobStatus job
        /\ progressFiles report = files job
        /\ total report = length (files job)
        /\ (completedCount report + failedCount report)%nat = processedFiles job
        /\ (completedCount report + failedCount report <= total report)%nat
        /\ ((completedCount report + failedCount report)%nat = total report ->
            (0 < total report)%nat -> progress report = 100)
        /\ ((completedCount report + failedCount report)%nat = 0%nat ->
            progress report = 0)
  end.
Proof.
  apply (getJobProgress_counts (fun x => x)
           (fst (createJob "job-1" 0 "cpp" "cpp17" ["a.pdf"; "b.pdf"] ∅)) "job-1").
  - constructor; [intros x y H; exact H | reflexivity ..].
  - apply map_Forall_insert_2; [|apply map_Forall_empty]. split; reflexivity.
Defined.

End JobManagerProps.

(* ===================================================================== *)
(** ** Properties of batch ingestion *)
(* ===================================================================== *)

Module ProcessorProps.
Import Processor.

Section BatchFacts.

Context {World : Type}.
Variable ingestDocument : IngestDocumentInput -> World -> World * settlement.

Lemma fulfilledValues_app (s1 s2 : list settlement) :
  fulfilledValues (s1 ++ s2) = fulfilledValues s1 ++ fulfilledValues s2.
Proof.
  induction s1 as [|[value|reason] s1 IH]; cbn [app fulfilledValues]; [done| |done].
  by rewrite IH.
Qed.

Lemma rejectedEntries_app (i1 i2 : list IngestDocumentInput) (s1 s2 : list settlement) :
  length i1 = length s1 ->
  rejectedEntries (i1 ++ i2) (s1 ++ s2)
  = rejectedEntries i1 s1 ++ rejectedEntries i2 s2.
Proof.
  revert s1. induction i1 as [|input i1 IH]; intros [|[value|reason] s1] Hlen;
    try discriminate; cbn [app rejectedEntries].
  - done.
  - apply IH. by injection Hlen.
  - cbn [app]. f_equal. apply IH. by injection Hlen.
Qed.

(** Every settlement is counted once, on one side or the other. *)
Lemma settlements_split (inputs : list IngestDocumentInput) (s : list settlement) :
  length inputs = length s ->
  (length (fulfilledValues s) + length (rejectedEntries inputs s))%nat = length s.
Proof.
  revert s. induction inputs as [|input inputs IH]; intros [|[value|reason] s] Hlen;
    try discriminate; cbn [fulfilledValues rejectedEntries length]; [done| |].
  - injection Hlen as Hlen. specialize (IH s Hlen). lia.
  - injection Hlen as Hlen. specialize (IH s Hlen). lia.
Qed.

Lemma allSettled_spec (batch : list IngestDocumentInput) :
  forall r : Run,
  length (snd (allSettled ingestDocument batch r)) = length batch
  /\ ingested (fst (allSettled ingestDocument batch r)) = ingested r ++ batch.
Proof.
  induction batch as [|input rest IH]; intros r; cbn [allSettled].
  - cbn [fst snd length]. by rewrite app_nil_r.
  - unfold callIngestDocument.
    destruct (ingestDocument input (world r)) as [world' result].
    specialize (IH (mkRun world' (ingested r ++ [input]))).
    destruct (allSettled ingestDocument rest _) as [r2 results].
    cbn [fst snd length ingested] in *. destruct IH as [-> ->].
    by rewrite <- app_assoc.
Qed.

Lemma collectFrom_spec (batch : list IngestDocumentInput)
    (batchResults : list settlement) :
  forall index results,
  length batchResults = length (drop index batch) ->
  successful (collectFrom batch batchResults index results)
    = successful results ++ fulfilledValues batchResults
  /\ failed (collectFrom batch batchResults index results)
    = failed results ++ rejectedEntries (drop index batch) batchResults.
Proof.
  induction batchResults as [|result rest IH]; intros index results Hlen;
    cbn [collectFrom fulfilledValues].
  - destruct (drop index batch); [|done]. by rewrite !app_nil_r.
  - destruct (drop index batch) as [|input tail] eqn:Hdrop; [done|].
    assert (Hlookup : batch !! index = Some input).
    { rewrite <- (Nat.add_0_r index), <- lookup_drop, Hdrop. done. }
    assert (Htail : drop (S index) batch = tail).
    { change (S index) with (1 + index)%nat.
      rewrite Nat.add_comm, <- drop_drop, Hdrop. done. }
    specialize (IH (S index)). rewrite Htail in IH.
    destruct result as [value|reason]; cbn [rejectedEntries].
    + destruct (IH (mkBatch (successful results ++ [value]) (failed results)))
        as [-> ->]; [by injection Hlen|].
      cbn [successful failed]. by rewrite <- app_assoc.
    + rewrite Hlookup.
      destruct (IH (mkBatch (successful results)
                      (failed results ++ [mkFailed (Some input) (errorMessage reason)])))
        as [-> ->]; [by injection Hlen|].
      cbn [successful failed]. by rewrite <- app_assoc.
Qed.

End BatchFacts.

(** *** The batches taken together *)

Import JsString.

Section BatchAsOne.

Context {World : Type}.
Variable ingestDocument : IngestDocumentInput -> World -> World * settlement.

Lemma allSettled_app (batch1 batch2 : list IngestDocumentInput) :
  forall r : Run,
  allSettled ingestDocument (batch1 ++ batch2) r
  = (fst (allSettled ingestDocument batch2
            (fst (allSettled ingestDocument batch1 r))),
     snd (allSettled ingestDocument batch1 r)
     ++ snd (allSettled ingestDocument batch2
               (fst (allSettled ingestDocument batch1 r)))).
Proof.
  induction batch1 as [|input rest IH]; intros r; cbn [app allSettled].
  - cbn [fst snd app]. by destruct (allSettled ingestDocument batch2 r).
  - destruct (callIngestDocument ingestDocument input r) as [r1 result].
    rewrite IH. destruct (allSettled ingestDocument rest r1) as [r2 results].
    cbn [fst snd]. reflexivity.
Qed.

(** The calls of [allSettled] are those of [answersOf], in the same order
    and from the same states. *)
Lemma allSettled_answers (batch : list IngestDocumentInput) :
  forall r : Run,
  allSettled ingestDocument batch r
  = (mkRun (fst (answersOf ingestDocument batch (world r))) (ingested r ++ batch),
     snd (answersOf ingestDocument batch (world r))).
Proof.
  induction batch as [|input rest IH]; intros r; cbn [allSettled answersOf].
  - cbn [fst snd]. rewrite app_nil_r. by destruct r.
  - unfold callIngestDocument.
    destruct (ingestDocument input (world r)) as [world' answer].
    rewrite IH. cbn [world ingested].
    destruct (answersOf ingestDocument rest world') as [w2 answers].
    cbn [fst snd]. by rewrite <- app_assoc.
Qed.

(** The answer for the input at an index is the answer of [ingestDocument]
    on it, from the state left by the runs on the inputs before it. *)
Lemma answersOf_lookup (inputs : list IngestDocumentInput) :
  forall (w : World) i input,
  inputs !! i = Some input ->
  snd (answersOf ingestDocument inputs w) !! i
  = Some (snd (ingestDocument input
                 (fst (answersOf ingestDocument (take i inputs) w)))).
Proof.
  induction inputs as [|first rest IH]; intros w i input Hi; [done|].
  cbn [answersOf]. destruct i as [|i]; cbn [take].
  - injection Hi as ->. cbn [answersOf fst].
    destruct (ingestDocument input w) as [w1 answer].
    by destruct (answersOf ingestDocument rest w1).
  - cbn [answersOf]. destruct (ingestDocument first w) as [w1 answer].
    specialize (IH w1 i input Hi).
    destruct (answersOf ingestDocument rest w1) as [w2 answers].
    destruct (answersOf ingestDocument (take i rest) w1) as [w3 answers'].
    cbn [fst snd] in *. exact IH.
Qed.

(** The loop over the batches leaves the services as one pass over the
    inputs does, and collects the settlements of that pass. *)
Lemma batchLoop_allSettled (inputs : list IngestDocumentInput) (n : nat) :
  forall i (r : Run) results,
  (length inputs - i <= n)%nat ->
  fst (batchLoop ingestDocument inputs i r results)
  = fst (allSettled ingestDocument (drop i inputs) r)
  /\ successful (snd (batchLoop ingestDocument inputs i r results))
     = successful results
       ++ fulfilledValues (snd (allSettled ingestDocument (drop i inputs) r))
  /\ failed (snd (batchLoop ingestDocument inputs i r results))
     = failed results
       ++ rejectedEntries (drop i inputs)
            (snd (allSettled ingestDocument (drop i inputs) r)).
Proof.
  induction n as [|n IH]; intros i r results Hn; simp batchLoop;
    destruct (decide (i < length inputs)%nat) as [Hlt|Hge];
    cbn [batchLoop_unfold_clause_1]; try lia.
  - rewrite drop_ge by lia.
    cbn [allSettled fst snd fulfilledValues rejectedEntries].
    by rewrite !app_nil_r.
  - set (batch := take CONCURRENCY (drop i inputs)).
    assert (Hsplit : drop i inputs = batch ++ drop (i + CONCURRENCY) inputs).
    { unfold batch. rewrite <- drop_drop. by rewrite take_drop. }
    rewrite Hsplit, allSettled_app. cbn [fst snd].
    destruct (allSettled_spec ingestDocument batch r) as [Hlen _].
    destruct (collectFrom_spec batch (snd (allSettled ingestDocument batch r)) 0 results)
      as [Hs Hf]; [by rewrite drop_0|]. rewrite drop_0 in Hf.
    destruct (IH (i + CONCURRENCY)%nat (fst (allSettled ingestDocument batch r))
                (collectFrom batch (snd (allSettled ingestDocument batch r)) 0 results))
      as (Hworld & Hsuccessful & Hfailed); [unfold CONCURRENCY; lia|].
    split; [exact Hworld|]. split.
    + rewrite Hsuccessful, Hs, fulfilledValues_app. by rewrite <- app_assoc.
    + rewrite Hfailed, Hf, rejectedEntries_app by done. by rewrite <- app_assoc.
  - rewrite drop_ge by lia.
    cbn [allSettled fst snd fulfilledValues rejectedEntries].
    by rewrite !app_nil_r.
Qed.

End BatchAsOne.

(** C8. For every list of inputs, whatever [ingestDocument] does on each of
    them: [ingestDocument] is run on every input, once and in order, each
    run from the state of the services the runs before it left, whether
    they were fulfilled or rejected; the result holds, in that order, the
    value of every run that was fulfilled in [successful] and the input of
    every run that was rejected, with its error, in [failed], so that
    every input is in exactly one of the two lists and the two lengths add
    up to the number of inputs. *)
Theorem ingestBatch_partitions {World : Type}
    (ingestDocument : IngestDocumentInput -> World -> World * settlement)
    (inputs : list IngestDocumentInput) (w : World) :
  let r := ingestBatch ingestDocument inputs (mkRun w []) in
  let answers := answersOf ingestDocument inputs w in
  world (fst r) = fst answers
  /\ ingested (fst r) = inputs
  /\ length (snd answers) = length inputs
  /\ (forall i input,
        inputs !! i = Some input ->
        snd answers !! i
        = Some (snd (ingestDocument input
                       (fst (answersOf ingestDocument (take i inputs) w)))))
  /\ successful (snd r) = fulfilledValues (snd answers)
  /\ failed (snd r) = rejectedEntries inputs (snd answers)
  /\ (length (successful (snd r)) + length (failed (snd r)))%nat = length inputs.
Proof.
  cbv zeta. unfold ingestBatch.
  destruct (batchLoop_allSettled ingestDocument inputs (length inputs) 0 (mkRun w [])
              (mkBatch [] []) ltac:(lia)) as (Hrun & Hs & Hf).
  destruct (allSettled_spec ingestDocument inputs (mkRun w [])) as [Hlen _].
  rewrite drop_0 in *. rewrite allSettled_answers in Hrun, Hs, Hf, Hlen.
  cbn [successful failed ingested world app fst snd] in *.
  rewrite Hrun, Hs, Hf. cbn [world ingested].
  split_and!; try done.
  - apply answersOf_lookup.
  - by rewrite settlements_split.
Qed.

(** Seven documents of which those with an empty title are rejected: two
    batches, five values and two failures. *)
Example ingestBatch_example :
  let r := ingestBatch sampleIngest sampleInputs (mkRun 0%nat []) in
  world (fst r) = 7%nat
  /\ ingested (fst r) = sampleInputs
  /\ documentId <$> successful (snd r) = ["a"; "b"; "d"; "e"; "f"]
  /\ failed (snd r)
     = [ mkFailed (Some (mkInput Diff.cpp17 "" [] None))
                  "Failed to insert document: title";
         mkFailed (Some (mkInput Diff.cpp17 "" [] None))
                  "Failed to insert document: title" ].
Proof. cbv zeta. repeat split; reflexivity. Qed.

(** *** [ingestDocument] *)

Section IngestFacts.

Context {World Embedding : Type}.
Variable embed : jsstring -> World -> World * (Embedding + option string).
Variable embedBatch :
  list jsstring -> World -> World * (list Embedding + option string).
Variable insertSingle :
  Row Embedding -> World -> World * (option string * option string).
Variable insertMany :
  list (Row Embedding) -> World -> World * (option (list string) * option string).
Variable typeErrorMessage : string.

Lemma needsChunking_length (content : jsstring) :
  (500 <? Chunker.estimateTokenCount content) = (2000 <? Z.of_nat (length content)).
Proof.
  unfold Chunker.estimateTokenCount, Chunker.CHARS_PER_TOKEN.
  destruct (Z.ltb_spec 2000 (Z.of_nat (length content))) as [Hlong|Hshort].
  - apply Z.ltb_lt.
    enough (501 <= (Z.of_nat (length content) + 4 - 1) / 4) by lia.
    apply Z.div_le_lower_bound; lia.
  - apply Z.ltb_ge.
    enough ((Z.of_nat (length content) + 4 - 1) / 4 < 501) by lia.
    apply Z.div_lt_upper_bound; lia.
Qed.

Lemma insertDataFrom_spec (input : IngestDocumentInput) (metadata : PartialMetadata)
    (embeddings : list Embedding) (total : nat) (chunks : list jsstring) :
  forall index,
  List.map rowContent (insertDataFrom input metadata embeddings total chunks index)
  = chunks
  /\ forall position row,
       insertDataFrom input metadata embeddings total chunks index !! position
       = Some row ->
       numbered input total (index + position) row
       /\ version_id row = versionId input
       /\ embedding row = embeddings !! (index + position)%nat.
Proof.
  induction chunks as [|chunk rest IH]; intros index; cbn [insertDataFrom List.map].
  - split; [done|]. intros position row. by rewrite lookup_nil.
  - destruct (IH (S index)) as [Hcontents Hrows].
    split; [cbn [rowContent]; by rewrite Hcontents|].
    intros [|position] row; cbn [lookup list_lookup].
    + intros [= <-]. rewrite Nat.add_0_r. unfold numbered.
      cbn [rowTitle rowMetadata originalTitle version_id embedding withChunk
           chunkIndex totalChunks]. done.
    + intros Hrow. replace (index + S position)%nat with (S index + position)%nat by lia.
      by apply Hrows.
Qed.

(** The chunks of a content that needs chunking. *)
Lemma chunkText_of_long_content (content : jsstring) :
  2000 < Z.of_nat (length content) ->
  exists chunks,
    Chunker.chunkText (length content) content
      (Chunker.mkOptions (Some 500) (Some 50)) = Some chunks
    /\ Forall (fun chunk => (0 < length chunk <= 2000)%nat
                            /\ Chunker.substringOf chunk content
                            /\ Chunker.trimmed chunk) chunks.
Proof.
  intros Hlong. unfold Chunker.chunkText. cbv zeta.
  cbn [Chunker.maxTokens Chunker.overlapTokens default from_option]. unfold id.
  change (500 * Chunker.CHARS_PER_TOKEN) with 2000.
  change (50 * Chunker.CHARS_PER_TOKEN) with 200.
  destruct (Z.leb_spec (Z.of_nat (length content)) 2000); [lia|].
  destruct (ChunkerProps.chunkLoop_returns content 2000 200 ltac:(lia) ltac:(lia)
              (length content) 0 [] ltac:(lia) ltac:(lia) ltac:(constructor))
    as (chunks & Hrun & Hbound).
  pose proof (ChunkerProps.chunkLoop_chunks _ _ _ _ _ _ _ Hrun ltac:(constructor))
    as Hshape.
  rewrite Hrun. cbn [mbind option_bind]. eexists. split; [reflexivity|].
  rewrite List.Forall_forall in *. intros chunk [Hin Hlen]%List.filter_In.
  specialize (Hbound _ Hin). destruct (Hshape _ Hin) as [Hsub Htrim].
  apply Z.ltb_lt in Hlen. split; [lia|done].
Qed.

(** What one call of [ingestDocument] does, for the statements below. *)
Lemma ingestDocument_settles (input : IngestDocumentInput) (s : Store) :
  exists s' settled rows,
    ingestDocument embed embedBatch insertSingle insertMany typeErrorMessage input s
    = (s', Some settled)
    /\ inserted s' = inserted s ++ rows
    /\ (forall result, settled = fulfilled result ->
        chunksCreated result = length rows)
    /\ Forall (fun row => (length (rowContent row) <= 2000)%nat
                          /\ Chunker.estimateTokenCount (rowContent row) <= 500
                          /\ version_id row = versionId input) rows
    /\ ((length (content input) <= 2000)%nat ->
        rows = []
        \/ exists vector,
             rows = [mkRow Embedding (versionId input) (title input) (content input)
                       (Some vector)
                       (withChunk (default emptyMetadata (metadata input)) 0 1)
                       None])
    /\ ((2000 < length (content input))%nat ->
        Forall (fun row => rowContent row <> []
                           /\ Chunker.trimmed (rowContent row)
                           /\ Chunker.substringOf (rowContent row) (content input))
               rows).
Proof.
  unfold ingestDocument. cbv zeta. rewrite needsChunking_length.
  destruct (Z.ltb_spec 2000 (Z.of_nat (length (content input)))) as [Hlong|Hshort];
    cbn [negb].
  - destruct (chunkText_of_long_content (content input) Hlong) as (chunks & -> & Hchunks).
    destruct (embedBatch chunks (services s)) as [w [embeddings|reason]].
    + set (insertData := insertDataFrom _ _ _ _ _ _).
      destruct (insertMany insertData w) as [w' [data error]].
      exists (mkStore w' (inserted s ++ insertData)).
      eexists. exists insertData. split; [reflexivity|]. split; [reflexivity|].
      split.
      { intros result.
        assert (Hlen : length insertData = length chunks).
        { unfold insertData. generalize 0%nat.
          generalize (length chunks) at 1. clear.
          induction chunks as [|c cs IH]; intros total index; [done|].
          cbn [insertDataFrom length]. by rewrite IH. }
        destruct error as [message|]; [done|].
        destruct data as [[|id ids]|]; [done| |done].
        intros [= <-]. cbn [chunksCreated]. by rewrite Hlen. }
      destruct (insertDataFrom_spec input (default emptyMetadata (metadata input))
                  embeddings (length chunks) chunks 0%nat) as [Hcontents Hrows].
      fold insertData in Hcontents, Hrows.
      assert (Hall : Forall (fun row =>
                         ((0 < length (rowContent row) <= 2000)%nat
                          /\ Chunker.substringOf (rowContent row) (content input)
                          /\ Chunker.trimmed (rowContent row))
                         /\ version_id row = versionId input) insertData).
      { apply Forall_lookup. intros position row Hrow. split.
        - rewrite <- Hcontents in Hchunks.
          rewrite Forall_lookup in Hchunks. apply (Hchunks position).
          change (List.map ?f ?l) with (f <$> l).
          by rewrite list_lookup_fmap, Hrow.
        - by apply Hrows in Hrow as (_ & Hversion & _). }
      split; [|split; [lia|]].
      * eapply Forall_impl; [exact Hall|]. intros row [(Hlen & _ & _) Hversion].
        split; [lia|]. split; [|done]. apply ChunkerProps.estimateTokenCount_le. lia.
      * intros _. eapply Forall_impl; [exact Hall|].
        intros row [(Hlen & Hsub & Htrim) _]. split; [|done].
        intros Hnil. rewrite Hnil in Hlen. cbn in Hlen. lia.
    + exists (mkStore w (inserted s)). eexists. exists [].
      split; [reflexivity|]. cbn [inserted]. rewrite app_nil_r.
      split; [done|]. split; [done|].
      split; [constructor|]. split; [by left|]. intros _. constructor.
  - destruct (embed (content input) (services s)) as [w [vector|reason]].
    + set (row := mkRow _ _ _ _ _ _ _).
      destruct (insertSingle row w) as [w' [data error]].
      exists (mkStore w' (inserted s ++ [row])). eexists. exists [row].
      split; [reflexivity|]. split; [reflexivity|].
      split.
      { intros result. destruct error as [message|]; [done|].
        destruct data as [id|]; [|done]. by intros [= <-]. }
      split.
      * constructor; [|constructor]. cbn [rowContent version_id row].
        split; [lia|]. split; [|done]. apply ChunkerProps.estimateTokenCount_le. lia.
      * split; [|lia]. intros _. right. by exists vector.
    + exists (mkStore w (inserted s)). eexists. exists [].
      split; [reflexivity|]. cbn [inserted]. rewrite app_nil_r.
      split; [done|]. split; [done|].
      split; [constructor|]. split; [by left|]. intros _. constructor.
Qed.

(** X15. [ingestDocument] always settles, whatever the
    services answer, and every row it passes to an insert holds at most
    2000 characters (500 estimated tokens) and the version of the input. A
    content of at most 2000 characters is inserted as one row that holds it
    unchanged under the title of the input (when the embedding succeeds); a
    longer content only as rows that hold a non-empty, trimmed part of it. *)
Theorem ingestDocument_rows (input : IngestDocumentInput) (s : Store) :
  exists s' settled rows,
    ingestDocument embed embedBatch insertSingle insertMany typeErrorMessage input s
    = (s', Some settled)
    /\ inserted s' = inserted s ++ rows
    /\ Forall (fun row => (length (rowContent row) <= 2000)%nat
                          /\ Chunker.estimateTokenCount (rowContent row) <= 500
                          /\ version_id row = versionId input) rows
    /\ ((length (content input) <= 2000)%nat ->
        rows = []
        \/ exists vector,
             rows = [mkRow Embedding (versionId input) (title input) (content input)
                       (Some vector)
                       (withChunk (default emptyMetadata (metadata input)) 0 1)
                       None])
    /\ ((2000 < length (content input))%nat ->
        Forall (fun row => rowContent row <> []
                           /\ Chunker.trimmed (rowContent row)
                           /\ Chunker.substringOf (rowContent row) (content input))
               rows).
Proof.
  destruct (ingestDocument_settles input s)
    as (s' & settled & rows & Hrun & Hrows & _ & Hbound & Hshort & Hlong).
  by exists s', settled, rows.
Qed.

(** X16. When [ingestDocument] is fulfilled, the rows
    it inserted are, in order, the rows of the chunks: [chunksCreated] is
    their number, [totalTokens] is the estimate for the whole content (not
    the sum over the chunks), a content of at most 2000 characters gives
    one row, and for a longer content the row at position [i] of [n] is
    titled [<title> (Part i+1/n)] and carries chunk index [i], chunk count
    [n] and the original title. *)
Theorem ingestDocument_result (input : IngestDocumentInput) (s s' : Store)
    (result : IngestResult) :
  ingestDocument embed embedBatch insertSingle insertMany typeErrorMessage input s
  = (s', Some (fulfilled result)) ->
  exists rows,
    inserted s' = inserted s ++ rows
    /\ chunksCreated result = length rows
    /\ totalTokens result = Chunker.estimateTokenCount (content input)
    /\ ((length (content input) <= 2000)%nat -> length rows = 1%nat)
    /\ ((2000 < length (content input))%nat ->
        forall position row,
          rows !! position = Some row ->
          numbered input (length rows) position row).
Proof.
  unfold ingestDocument. cbv zeta. rewrite needsChunking_length.
  destruct (Z.ltb_spec 2000 (Z.of_nat (length (content input)))) as [Hlong|Hshort];
    cbn [negb].
  - destruct (Chunker.chunkText _ _ _) as [chunks|]; [|done].
    destruct (embedBatch chunks (services s)) as [w [embeddings|reason]]; [|done].
    set (insertData := insertDataFrom _ _ _ _ _ _).
    destruct (insertDataFrom_spec input (default emptyMetadata (metadata input))
                embeddings (length chunks) chunks 0%nat) as [Hcontents Hrows].
    fold insertData in Hcontents, Hrows.
    assert (Hlen : length insertData = length chunks)
      by (rewrite <- (List.length_map rowContent insertData); by rewrite Hcontents).
    destruct (insertMany insertData w) as [w' [data error]].
    destruct error as [message|]; [done|].
    destruct data as [[|id ids]|]; [done| |done].
    intros [= <- <-]. exists insertData. split; [reflexivity|].
    cbn [chunksCreated totalTokens]. split; [done|]. split; [done|].
    split; [lia|]. intros _ position row Hrow. rewrite Hlen.
    by apply Hrows in Hrow as (Hnumbered & _).
  - destruct (embed (content input) (services s)) as [w [vector|reason]]; [|done].
    set (row := mkRow _ _ _ _ _ _ _).
    destruct (insertSingle row w) as [w' [data error]].
    destruct error as [message|]; [done|]. destruct data as [id|]; [|done].
    intros [= <- <-]. exists [row]. split; [reflexivity|].
    cbn [chunksCreated totalTokens length]. split; [done|]. split; [done|].
    split; [done|]. lia.
Qed.

Lemma allSettled_rows (inputs : list IngestDocumentInput) :
  forall r : @Run (@Store World Embedding),
  let settled :=
    allSettled (ingestDocumentSettled embed embedBatch insertSingle insertMany
                  typeErrorMessage) inputs r in
  exists rows,
    inserted (world (fst settled)) = inserted (world r) ++ rows
    /\ Forall (fun row => (length (rowContent row) <= 2000)%nat
                          /\ exists input, input ∈ inputs
                                           /\ version_id row = versionId input) rows
    /\ (chunksReported (fulfilledValues (snd settled)) <= length rows)%nat.
Proof.
  induction inputs as [|input rest IH]; intros r; cbv zeta; cbn [allSettled].
  - exists []. cbn [fst snd fulfilledValues]. rewrite app_nil_r.
    split; [done|]. split; [constructor|]. unfold chunksReported. cbn. lia.
  - unfold callIngestDocument, ingestDocumentSettled.
    destruct (ingestDocument_settles input (world r))
      as (s' & settled & rows & Hrun & Hrows & Hcount & Hbound & _ & _).
    rewrite Hrun. cbn [default from_option]. unfold id.
    destruct (IH (mkRun s' (ingested r ++ [input]))) as (rows' & Hrows' & Hbound' & Hcount').
    cbv zeta in Hrows', Hbound', Hcount'.
    destruct (allSettled _ rest _) as [r2 results]. cbn [fst snd world] in *.
    exists (rows ++ rows'). split; [by rewrite Hrows', Hrows, <- app_assoc|]. split.
    + apply Forall_app. split.
      * eapply Forall_impl; [exact Hbound|]. intros row (Hlen & _ & Hversion).
        split; [done|]. exists input. split; [apply elem_of_cons; by left|done].
      * eapply Forall_impl; [exact Hbound'|]. intros row (Hlen & input' & Hin & Hversion).
        split; [done|]. exists input'. split; [apply elem_of_cons; by right|done].
    + rewrite length_app. destruct settled as [result|reason];
        cbn [fulfilledValues]; [|lia].
      change (chunksReported (result :: fulfilledValues results))
        with (chunksCreated result + chunksReported (fulfilledValues results))%nat.
      rewrite (Hcount result eq_refl). lia.
Qed.

(** X17. Whatever the services answer, every row the
    documents of a batch pass to an insert holds at most 2000 characters
    and the version of one of the inputs, and the documents reported as
    successful report no more chunks than rows were inserted. *)
Theorem ingestBatch_rows (inputs : list IngestDocumentInput) (s : Store) :
  let r :=
    ingestBatch (ingestDocumentSettled embed embedBatch insertSingle insertMany
                   typeErrorMessage) inputs (mkRun s []) in
  exists rows,
    inserted (world (fst r)) = inserted s ++ rows
    /\ Forall (fun row => (length (rowContent row) <= 2000)%nat
                          /\ exists input, input ∈ inputs
                                           /\ version_id row = versionId input) rows
    /\ (chunksReported (successful (snd r)) <= length rows)%nat.
Proof.
  cbv zeta. unfold ingestBatch.
  destruct (batchLoop_allSettled
              (ingestDocumentSettled embed embedBatch insertSingle insertMany
                 typeErrorMessage) inputs (length inputs) 0 (mkRun s [])
              (mkBatch [] []) ltac:(lia)) as (-> & -> & _).
  rewrite drop_0. cbn [successful app].
  apply (allSettled_rows inputs (mkRun s [])).
Qed.

End IngestFacts.

Lemma ingestDocument_result_witness :
  exists rows : list (Row nat),
    inserted (fst (ingestDocument sampleEmbed sampleEmbedBatch sampleInsertSingle
                     sampleInsertMany "TypeError"
                     (mkInput Diff.cpp17 "Lambdas" (lit "auto f = [] {};") None)
                     (mkStore tt [])))
    = [] ++ rows
    /\ chunksCreated (mkIngested "Lambdas" 1 4) = length rows
    /\ totalTokens (mkIngested "Lambdas" 1 4)
       = Chunker.estimateTokenCount (lit "auto f = [] {};")
    /\ ((length (lit "auto f = [] {};") <= 2000)%nat -> length rows = 1%nat)
    /\ ((2000 < length (lit "auto f = [] {};"))%nat ->
        forall position row,
          rows !! position = Some row ->
          numbered (mkInput Diff.cpp17 "Lambdas" (lit "auto f = [] {};") None)
                   (length rows) position row).
Proof.
  apply (ingestDocument_result sampleEmbed sampleEmbedBatch sampleInsertSingle
           sampleInsertMany "TypeError"
           (mkInput Diff.cpp17 "Lambdas" (lit "auto f = [] {};") None)
           (mkStore tt []) _ (mkIngested "Lambdas" 1 4)).
  reflexivity.
Defined.

End ProcessorProps.

(* ===================================================================== *)
(** ** Properties of the response cache of the document generator *)
(* ===================================================================== *)

Module GeneratorProps.
Import Diff Generator.

Section CacheFacts.

Variable sha256hex : string -> string.
Variable hoursLater : Z -> Z -> Z.
Context {DocType TargetLevel OutputLanguage OutputFormat Provider : Type}.
Variable getSystemPrompt : DocType -> string.
Variable getPromptBuilder :
  DocType -> @PromptContext TargetLevel OutputLanguage -> string.
Variable buildCodeModernizationPrompt :
  @CodeModernizationContext TargetLevel OutputLanguage -> string.
Variable stringifyDiff : DiffCategory -> string.
Variable readDiffFile : string -> option ParsedFile.
Variable retrieveContext : string -> CppVersionId -> CppVersionId -> Z -> string * nat.
Variable providerName : string.
Variable providerGenerate :
  string -> list string -> Provider -> Provider * (string + string).

Abbreviation Request := (@GenerationRequest DocType TargetLevel OutputLanguage OutputFormat).
Abbreviation prompts :=
  (buildPrompts getSystemPrompt getPromptBuilder buildCodeModernizationPrompt
                stringifyDiff readDiffFile retrieveContext).
Abbreviation run :=
  (generate sha256hex hoursLater getSystemPrompt getPromptBuilder
            buildCodeModernizationPrompt stringifyDiff readDiffFile
            retrieveContext providerName providerGenerate).
Abbreviation key systemPrompt userPrompt :=
  (hashPrompt sha256hex (fullPrompt systemPrompt userPrompt)).

(** The lookup returns the response of a row exactly when the row's expiry
    is strictly after the time of the lookup. *)
Lemma checkCache_live promptHash now (table : gmap string CacheRow) r :
  checkCache promptHash now table = Some r
  <-> exists row, liveRow promptHash now table row /\ response row = r.
Proof.
  unfold checkCache, liveRow. split.
  - destruct (table !! promptHash) as [row|]; [|done].
    destruct (expires_at row) as [expires|] eqn:E; [|done].
    destruct (Z.ltb_spec now expires); [|done]. intros [= <-].
    exists row. eauto.
  - intros (row & (-> & expires & -> & Hlt) & <-).
    by destruct (Z.ltb_spec now expires); [|lia].
Qed.

(** A row that has expired, or that has no expiry, is never returned. *)
Lemma checkCache_expired promptHash now (table : gmap string CacheRow) row :
  table !! promptHash = Some row ->
  (forall expires, expires_at row = Some expires -> expires <= now) ->
  checkCache promptHash now table = None.
Proof.
  intros Hrow Hexp. unfold checkCache. rewrite Hrow.
  destruct (expires_at row) as [expires|]; [|done].
  specialize (Hexp expires eq_refl).
  by destruct (Z.ltb_spec now expires); [lia|].
Qed.

(** A live row with a non-empty response is returned as it is: the provider
    is not called and the table is not written. *)
Lemma generate_cache_hit (request : Request) a (s s1 : Services)
    systemPrompt userPrompt sourcesUsed row :
  prompts request s = (s1, Returned (systemPrompt, userPrompt, sourcesUsed)) ->
  liveRow (key systemPrompt userPrompt) (lookupTime a) (llm_cache s1) row ->
  response row <> "" ->
  exists result,
    run request a s = (s1, Returned result)
    /\ content result = response row /\ cached result = true.
Proof.
  intros Hprompts Hlive Hne. unfold generate. rewrite Hprompts.
  unfold generateFromPrompts.
  assert (Hc : checkCache (key systemPrompt userPrompt) (lookupTime a) (llm_cache s1)
               = Some (response row)) by (apply checkCache_live; eauto).
  rewrite Hc. unfold truthy. destruct (decide (response row = "")); [done|].
  eexists. split; [reflexivity|]. done.
Qed.

(** When the lookup finds no live row, the provider is called once with the
    user prompt and the system prompt, its text is passed to [saveToCache]
    under the hash of the full prompt, and the result is not marked as
    cached. The save writes a row that expires 24 hours later on the local
    clock when the table has no row for the hash, and nothing otherwise. *)
Lemma generate_cache_miss (request : Request) a (s s1 : Services)
    systemPrompt userPrompt sourcesUsed provider' text :
  prompts request s = (s1, Returned (systemPrompt, userPrompt, sourcesUsed)) ->
  checkCache (key systemPrompt userPrompt) (lookupTime a) (llm_cache s1) = None ->
  providerGenerate userPrompt [systemPrompt] (provider s1) = (provider', inl text) ->
  exists result,
    run request a s =
      (mkServices (diffDataCache s1)
         (saveToCache hoursLater (key systemPrompt userPrompt) text providerName
                      (saveTime a) (llm_cache s1))
         provider' (providerCalls s1 ++ [(userPrompt, [systemPrompt])]),
       Returned result)
    /\ content result = text /\ cached result = false
    /\ (llm_cache s1 !! key systemPrompt userPrompt = None ->
        saveToCache hoursLater (key systemPrompt userPrompt) text providerName
                    (saveTime a) (llm_cache s1)
        = <[key systemPrompt userPrompt :=
              mkRow text providerName (Some (hoursLater (saveTime a) 24))]>
            (llm_cache s1)).
Proof.
  intros Hprompts Hmiss Hgen. unfold generate. rewrite Hprompts.
  unfold generateFromPrompts. rewrite Hmiss. cbn [truthy]. rewrite Hgen.
  eexists. split; [reflexivity|]. split; [done|]. split; [done|].
  intros Hnone. unfold saveToCache. by rewrite Hnone.
Qed.

(** C3 fails for a cached empty response. When the table holds, under the
    hash of the full prompt, a row whose expiry is strictly in the future
    and whose response is the empty string, [generate] does not return the
    row with [cached = true]: it calls the provider and returns the
    provider's text with [cached = false]. The row stays as it is (the
    save is refused for a hash the table has), so that the same happens at
    every call until the row expires. *)
Theorem generate_ignores_cached_empty_response (request : Request) a
    (s s1 : Services) systemPrompt userPrompt sourcesUsed row provider' text :
  prompts request s = (s1, Returned (systemPrompt, userPrompt, sourcesUsed)) ->
  liveRow (key systemPrompt userPrompt) (lookupTime a) (llm_cache s1) row ->
  response row = "" ->
  providerGenerate userPrompt [systemPrompt] (provider s1) = (provider', inl text) ->
  exists result,
    run request a s =
      (mkServices (diffDataCache s1) (llm_cache s1)
         provider' (providerCalls s1 ++ [(userPrompt, [systemPrompt])]),
       Returned result)
    /\ content result = text /\ cached result = false.
Proof.
  intros Hprompts Hlive Hempty Hgen. unfold generate. rewrite Hprompts.
  unfold generateFromPrompts.
  assert (Hc : checkCache (key systemPrompt userPrompt) (lookupTime a) (llm_cache s1)
               = Some "").
  { apply checkCache_live. exists row. by split. }
  rewrite Hc. cbn [truthy]. rewrite decide_True by done. rewrite Hgen.
  unfold saveToCache. destruct Hlive as [-> _].
  eexists. split; [reflexivity|]. done.
Qed.

End CacheFacts.

Lemma generate_ignores_cached_empty_response_witness :
  exists s' result,
    generate (fun prompt => prompt) utcHoursLater (fun _ => "system")
             (fun _ _ => "user")
             (fun _ => "code") (fun _ => "{}") (fun _ => None)
             (fun _ _ _ _ => ("", 0%nat)) "claude" constantProvider
             sampleRequest (mkAmbient 1000 1000 1000 1000 "id") sampleServices
      = (s', Returned result)
    /\ providerCalls s' = [("user", ["system"])]
    /\ content result = "# Migration guide" /\ cached result = false.
Proof.
  destruct (generate_ignores_cached_empty_response
              (fun prompt => prompt) utcHoursLater (fun _ => "system")
             (fun _ _ => "user")
              (fun _ => "code") (fun _ => "{}") (fun _ => None)
              (fun _ _ _ _ => ("", 0%nat)) "claude" constantProvider
              sampleRequest (mkAmbient 1000 1000 1000 1000 "id") sampleServices
              sampleServices "system" "user" 0%nat emptyRow 1%nat
              "# Migration guide")
    as (result & Hrun & Hcontent & Hcached).
  - reflexivity.
  - split; [reflexivity|]. exists 5000. split; [reflexivity|]. reflexivity.
  - reflexivity.
  - reflexivity.
  - eexists _, result. split; [exact Hrun|]. split; [reflexivity|]. by split.
Defined.

Section GenerationFacts.

Variable sha256hex : string -> string.
Variable hoursLater : Z -> Z -> Z.
Context {DocType TargetLevel OutputLanguage OutputFormat Provider : Type}.
Variable getSystemPrompt : DocType -> string.
Variable getPromptBuilder :
  DocType -> @PromptContext TargetLevel OutputLanguage -> string.
Variable buildCodeModernizationPrompt :
  @CodeModernizationContext TargetLevel OutputLanguage -> string.
Variable stringifyDiff : DiffCategory -> string.
Variable readDiffFile : string -> option ParsedFile.
Variable retrieveContext : string -> CppVersionId -> CppVersionId -> Z -> string * nat.
Variable providerName : string.
Variable providerGenerate :
  string -> list string -> Provider -> Provider * (string + string).

Abbreviation Asked := (@GenerationRequest DocType TargetLevel OutputLanguage OutputFormat).
Abbreviation promptsOf :=
  (buildPrompts getSystemPrompt getPromptBuilder buildCodeModernizationPrompt
                stringifyDiff readDiffFile retrieveContext).
Abbreviation generated :=
  (generate sha256hex hoursLater getSystemPrompt getPromptBuilder
            buildCodeModernizationPrompt stringifyDiff readDiffFile
            retrieveContext providerName providerGenerate).
Abbreviation hashOf systemPrompt userPrompt :=
  (hashPrompt sha256hex (fullPrompt systemPrompt userPrompt)).

(** A response saved under a hash the table has no row for is what the
    lookup of that hash gives until the expiry written with it, and the
    lookup gives nothing from then on. A save under a hash the table has a
    row for changes nothing, whatever that row holds: an expired row is
    never replaced. The rows of other hashes are not touched. *)
Lemma llm_cache_round_trip promptHash text modelName saved
    (table : gmap string CacheRow) :
  (table !! promptHash = None ->
   forall now,
     checkCache promptHash now
       (saveToCache hoursLater promptHash text modelName saved table)
     = if now <? hoursLater saved 24 then Some text else None)
  /\ (is_Some (table !! promptHash) ->
      saveToCache hoursLater promptHash text modelName saved table = table)
  /\ (forall other now,
        other <> promptHash ->
        checkCache other now
          (saveToCache hoursLater promptHash text modelName saved table)
        = checkCache other now table).
Proof.
  unfold checkCache, saveToCache. split_and!.
  - intros -> now. rewrite lookup_insert_eq. cbn [expires_at response]. done.
  - by intros [row ->].
  - intros other now Hne. destruct (table !! promptHash); [done|].
    by rewrite lookup_insert_ne.
Qed.

(** A lookup that finds no live row finds none later either, as long as
    the table is the same. *)
Lemma checkCache_none_later promptHash now later (table : gmap string CacheRow) :
  checkCache promptHash now table = None -> now <= later ->
  checkCache promptHash later table = None.
Proof.
  unfold checkCache. destruct (table !! promptHash) as [row|]; [|done].
  destruct (expires_at row) as [expires|]; [|done].
  destruct (Z.ltb_spec now expires); [done|]. intros _ Hle.
  by destruct (Z.ltb_spec later expires); [lia|].
Qed.

(** The prompts do not depend on what the cache of the diff analyzer holds,
    as long as it holds what the files hold. *)
Lemma buildPrompts_coherent (request : Asked) (s : @Services Provider) :
  cacheCoherent readDiffFile (diffDataCache s) ->
  snd (promptsOf request s)
  = snd (promptsOf request (mkServices ∅ (llm_cache s) (provider s) (providerCalls s)))
  /\ cacheCoherent readDiffFile (diffDataCache (fst (promptsOf request s)))
  /\ llm_cache (fst (promptsOf request s)) = llm_cache s
  /\ provider (fst (promptsOf request s)) = provider s
  /\ providerCalls (fst (promptsOf request s)) = providerCalls s.
Proof.
  intros Hco. unfold buildPrompts. cbn [diffDataCache llm_cache provider providerCalls].
  destruct (DiffProps.analyzeDiff_coherent_cache readDiffFile
              (mkRequest (sourceVersion request) (targetVersion request) None)
              (diffDataCache s) Hco) as [Hsame Hco'].
  destruct (analyzeDiff readDiffFile _ (diffDataCache s)) as [cache1 result1].
  destruct (analyzeDiff readDiffFile _ ∅) as [cache0 result0].
  cbn [fst snd] in *. subst result0.
  destruct result1 as [diffResult|message|]; cbn [fst snd]; try done.
  destruct (if negb _ then _ else _) as [ragContext sourcesUsed]. done.
Qed.

(** X18. After a call of [generate] that found no
    live row and got a non-empty text from the provider: when the table
    had no row at all for the hash of the prompt, the same request made
    again before the expiry written with the row (24 hours after the save
    on the local clock), with the diff files and the retriever answering
    as before, returns that text marked as cached, without calling the
    provider or writing the table. When the table had a row for the hash
    (one that has expired or has no expiry), the text is not saved: the
    table is left as it was and no later lookup finds a live row either. *)
Theorem generate_again_is_cached (request : Asked) a1 a2 (s s1 : @Services Provider)
    systemPrompt userPrompt sourcesUsed provider' text :
  cacheCoherent readDiffFile (diffDataCache s) ->
  promptsOf request s = (s1, Returned (systemPrompt, userPrompt, sourcesUsed)) ->
  checkCache (hashOf systemPrompt userPrompt) (lookupTime a1) (llm_cache s1) = None ->
  providerGenerate userPrompt [systemPrompt] (provider s1) = (provider', inl text) ->
  text <> "" ->
  exists s2 first,
    generated request a1 s = (s2, Returned first)
    /\ content first = text /\ cached first = false
    /\ providerCalls s2 = providerCalls s ++ [(userPrompt, [systemPrompt])]
    /\ match llm_cache s1 !! hashOf systemPrompt userPrompt with
       | None =>
           lookupTime a2 < hoursLater (saveTime a1) 24 ->
           exists s3 second,
             generated request a2 s2 = (s3, Returned second)
             /\ content second = text /\ cached second = true
             /\ ragSourcesUsed second = ragSourcesUsed first
             /\ llm_cache s3 = llm_cache s2
             /\ provider s3 = provider s2
             /\ providerCalls s3 = providerCalls s2
       | Some row =>
           llm_cache s2 = llm_cache s1
           /\ forall later,
                lookupTime a1 <= later ->
                checkCache (hashOf systemPrompt userPrompt) later (llm_cache s2) = None
       end.
Proof.
  intros Hco Hprompts Hmiss Hgen Hne.
  destruct (buildPrompts_coherent request s Hco)
    as (Hsame & Hco1 & Htable1 & Hprovider1 & Hcalls1).
  rewrite Hprompts in Hsame, Hco1, Htable1, Hprovider1, Hcalls1.
  cbn [fst snd] in Hsame, Hco1, Htable1, Hprovider1, Hcalls1.
  set (table2 := saveToCache hoursLater (hashOf systemPrompt userPrompt) text
                             providerName (saveTime a1) (llm_cache s1)).
  set (s2 := mkServices (diffDataCache s1) table2 provider'
                        (providerCalls s1 ++ [(userPrompt, [systemPrompt])])).
  assert (Hfirst : generated request a1 s
                   = (s2, Returned (mkGenResult (uuid a1) (sourceVersion request)
                                      (targetVersion request) (docType request) text
                                      "markdown" sourcesUsed (endTime a1 - startTime a1)
                                      false (endTime a1)))).
  { unfold generate. rewrite Hprompts. unfold generateFromPrompts.
    rewrite Hmiss. cbn [truthy]. by rewrite Hgen. }
  exists s2, (mkGenResult (uuid a1) (sourceVersion request) (targetVersion request)
                (docType request) text "markdown" sourcesUsed
                (endTime a1 - startTime a1) false (endTime a1)).
  split; [exact Hfirst|]. split; [done|]. split; [done|].
  split; [cbn [providerCalls s2]; by rewrite Hcalls1|].
  destruct (llm_cache s1 !! hashOf systemPrompt userPrompt) as [row|] eqn:Hrow.
  - assert (Hsame2 : table2 = llm_cache s1)
      by (unfold table2, saveToCache; by rewrite Hrow).
    cbn [llm_cache s2]. split; [exact Hsame2|]. intros later Hle. rewrite Hsame2.
    by apply (checkCache_none_later _ (lookupTime a1)).
  - intros Hlive.
    destruct (buildPrompts_coherent request s2 Hco1)
      as (Hsame2 & _ & Htable2 & Hprovider2 & Hcalls2).
    assert (Hprompts2 : snd (promptsOf request s2)
                        = Returned (systemPrompt, userPrompt, sourcesUsed)).
    { rewrite Hsame2, Hsame. unfold buildPrompts. cbn [diffDataCache].
      destruct (analyzeDiff readDiffFile _ ∅) as [cache0 [diffResult|message|]];
        cbn [snd]; try done.
      by destruct (if negb _ then _ else _). }
    destruct (promptsOf request s2) as [s2' prompts2] eqn:Hrun2.
    cbn [fst snd] in Hprompts2, Htable2, Hprovider2, Hcalls2. subst prompts2.
    exists s2', (mkGenResult (uuid a2) (sourceVersion request) (targetVersion request)
                   (docType request) text "markdown" sourcesUsed
                   (endTime a2 - startTime a2) true (endTime a2)).
    split.
    + unfold generate. rewrite Hrun2. unfold generateFromPrompts.
      rewrite Htable2. cbn [llm_cache s2]. unfold table2, checkCache, saveToCache.
      rewrite Hrow, lookup_insert_eq. cbn [expires_at response].
      destruct (Z.ltb_spec (lookupTime a2) (hoursLater (saveTime a1) CACHE_EXPIRY_HOURS));
        [|unfold CACHE_EXPIRY_HOURS in *; lia].
      unfold truthy. by destruct (decide (text = "")).
    + cbn [content cached ragSourcesUsed]. by rewrite Htable2, Hprovider2, Hcalls2.
Qed.

(** X19. When the source version does not
    strictly precede the target version, or no hardcoded pair starts at the
    source, [generate] throws the error of the diff analyzer before it
    touches anything: the table, the provider and the cache of the diff
    analyzer are as they were, and the provider is not called. *)
Theorem generate_throws_without_path (request : Asked) a (s : @Services Provider) :
  ~ strictlyPrecedes (sourceVersion request) (targetVersion request)
  \/ noPairStartsAt (sourceVersion request) ->
  generated request a s
  = (s, Thrown ("No upgrade path found from " +:+ versionName (sourceVersion request)
                +:+ " to " +:+ versionName (targetVersion request))).
Proof.
  intros Hpath%DiffProps.getUpgradePath_empty_iff.
  unfold generate, buildPrompts, analyzeDiff. cbn [reqSource reqTarget].
  rewrite Hpath. by destruct s.
Qed.

End GenerationFacts.

Lemma generate_again_is_cached_witness :
  exists s2 first,
    generate (fun prompt => prompt) utcHoursLater (fun _ => "system")
             (fun _ _ => "user") (fun _ => "code") (fun _ => "{}") sampleFiles
             (fun _ _ _ _ => ("", 0%nat)) "claude" constantProvider
             sampleRequest (mkAmbient 1000 1000 1000 1000 "id-1")
             (mkServices ∅ ∅ 0%nat [])
    = (s2, Returned first)
    /\ content first = "# Migration guide" /\ cached first = false
    /\ providerCalls s2 = [] ++ [("user", ["system"])]
    /\ (2000 < utcHoursLater 1000 24 ->
        exists s3 second,
          generate (fun prompt => prompt) utcHoursLater (fun _ => "system")
                   (fun _ _ => "user") (fun _ => "code") (fun _ => "{}") sampleFiles
                   (fun _ _ _ _ => ("", 0%nat)) "claude" constantProvider
                   sampleRequest (mkAmbient 2000 2000 2000 2000 "id-2") s2
          = (s3, Returned second)
          /\ content second = "# Migration guide" /\ cached second = true
          /\ ragSourcesUsed second = ragSourcesUsed first
          /\ llm_cache s3 = llm_cache s2
          /\ provider s3 = provider s2
          /\ providerCalls s3 = providerCalls s2).
Proof.
  destruct (generate_again_is_cached
              (fun prompt => prompt) utcHoursLater (fun _ => "system")
              (fun _ _ => "user") (fun _ => "code") (fun _ => "{}") sampleFiles
              (fun _ _ _ _ => ("", 0%nat)) "claude" constantProvider
              sampleRequest (mkAmbient 1000 1000 1000 1000 "id-1")
              (mkAmbient 2000 2000 2000 2000 "id-2")
              (mkServices ∅ ∅ 0%nat [])
              (mkServices {[ "cpp11-cpp14" := Some sampleFile ]} ∅ 0%nat [])
              "system" "user" 0%nat 1%nat "# Migration guide")
    as (s2 & first & Hfirst & Hcontent & Hcached & Hcalls & Hagain).
  - intros key data Hkey. cbn in Hkey. by rewrite lookup_empty in Hkey.
  - reflexivity.
  - reflexivity.
  - reflexivity.
  - discriminate.
  - exists s2, first. repeat (split; [assumption|]). exact Hagain.
Defined.

Lemma generate_throws_without_path_witness :
  generate (fun prompt => prompt) utcHoursLater (fun _ => "system")
             (fun _ _ => "user")
           (fun _ => "code") (fun _ => "{}") sampleFiles
           (fun _ _ _ _ => ("", 0%nat)) "claude" constantProvider
           (mkGenRequest cpp17 cpp20 tt (mkGenOptions tt tt tt None None) None None)
           (mkAmbient 1000 1000 1000 1000 "id-1") (mkServices ∅ ∅ 0%nat [])
  = (mkServices ∅ ∅ 0%nat [], Thrown "No upgrade path found from cpp17 to cpp20").
Proof.
  apply (generate_throws_without_path
           (fun prompt => prompt) utcHoursLater (fun _ => "system")
             (fun _ _ => "user")
           (fun _ => "code") (fun _ => "{}") sampleFiles
           (fun _ _ _ _ => ("", 0%nat)) "claude" constantProvider
           (mkGenRequest cpp17 cpp20 tt (mkGenOptions tt tt tt None None) None None)
           (mkAmbient 1000 1000 1000 1000 "id-1") (mkServices ∅ ∅ 0%nat [])).
  right. apply (bool_decide_unpack _). vm_compute. reflexivity.
Defined.

End GeneratorProps.

(* ===================================================================== *)
(** ** What a successful match of the backtracking matcher is *)
(* ===================================================================== *)

Module RegexProps.
Import JsString Regex.

#[local] Hint Constructors Matches : core.

Lemma starGreedy_sound class k rest :
  forall pre caps final,
  starGreedy class k pre rest caps = Some final ->
  exists st', Matches (Star true class) (mkState pre rest caps) st'
              /\ k st' = Some final.
Proof.
  induction rest as [|c rest IH]; intros pre caps final; cbn [starGreedy].
  - eauto.
  - destruct (class c) eqn:Ec; [|eauto].
    destruct (starGreedy class k (c :: pre) rest caps) as [f|] eqn:E; [|eauto].
    intros [= <-]. destruct (IH _ _ _ E) as (st' & HM & Hk). eauto.
Qed.

Lemma starLazy_sound class k rest :
  forall pre caps final,
  starLazy class k pre rest caps = Some final ->
  exists st', Matches (Star false class) (mkState pre rest caps) st'
              /\ k st' = Some final.
Proof.
  induction rest as [|c rest IH]; intros pre caps final; cbn [starLazy].
  - destruct (k _) eqn:E; [|done]. intros [= <-]. eauto.
  - destruct (k _) eqn:E; [intros [= <-]; eauto|].
    destruct (class c) eqn:Ec; [|done].
    intros H. destruct (IH _ _ _ H) as (st' & HM & Hk). eauto.
Qed.

(** Soundness of the matcher: a result comes from a match of the pattern
    followed by a success of the continuation. *)
Lemma rmatch_sound r :
  forall k st final,
  rmatch r k st = Some final ->
  exists st', Matches r st st' /\ k st' = Some final.
Proof.
  induction r as [|class|r1 IH1 r2 IH2|r1 IH1 r2 IH2|greedy class|n r IH|r IH| | | |];
    intros k st final; cbn [rmatch].
  - eauto.
  - destruct st as [pre [|c rest] caps]; cbn [Regex.rest Regex.pre Regex.caps]; [done|].
    destruct (class c) eqn:Ec; [eauto|done].
  - intros H. destruct (IH1 _ _ _ H) as (mid & H1 & H').
    destruct (IH2 _ _ _ H') as (st' & H2 & Hk). eauto.
  - destruct (rmatch r1 k st) as [f|] eqn:E.
    + intros [= <-]. destruct (IH1 _ _ _ E) as (st' & H1 & Hk). eauto.
    + intros H. destruct (IH2 _ _ _ H) as (st' & H2 & Hk). eauto.
  - destruct st as [pre rest caps]. cbn [Regex.rest Regex.pre Regex.caps].
    destruct greedy; [apply starGreedy_sound | apply starLazy_sound].
  - intros H. destruct (IH _ _ _ H) as (st' & HM & Hk). eauto.
  - destruct (rmatch r Some st) as [st'|] eqn:E; [|done].
    destruct (IH _ _ _ E) as (st'' & HM & [= ->]). eauto.
  - destruct (xorb _ _) eqn:E; [eauto|done].
  - destruct (headIsLineTerminator _) eqn:E; [eauto|done].
  - destruct (Regex.rest st) eqn:E; [eauto|done].
  - destruct (headIsLineTerminator _) eqn:E; [eauto|done].
Qed.

(** *** Inversion, pattern by pattern *)

Lemma Matches_Seq_inv r1 r2 st st' :
  Matches (Seq r1 r2) st st' ->
  exists mid, Matches r1 st mid /\ Matches r2 mid st'.
Proof. inversion 1; eauto. Qed.

Lemma Matches_Alt_inv r1 r2 st st' :
  Matches (Alt r1 r2) st st' -> Matches r1 st st' \/ Matches r2 st st'.
Proof. inversion 1; eauto. Qed.

Lemma Matches_Char_inv class st st' :
  Matches (Char class) st st' ->
  exists c, class c = true /\ rest st = c :: rest st' /\ caps st' = caps st.
Proof. inversion 1; subst; cbn; eauto. Qed.

Lemma Matches_Star_inv greedy class st st' :
  Matches (Star greedy class) st st' ->
  exists w, rest st = w ++ rest st'
            /\ Forall (fun c => class c = true) w /\ caps st' = caps st.
Proof.
  intros H. remember (Star greedy class) as r eqn:Hr.
  induction H as [| | | | |g cl st|g cl c pre rest caps st' Hc H IH| | | | | |];
    try discriminate; injection Hr as -> ->.
  - exists []. eauto.
  - destruct (IH eq_refl) as (w & Hw & Hall & Hcaps). cbn in *.
    exists (c :: w). rewrite Hw. eauto.
Qed.

Lemma Matches_Group_inv n r st st' :
  Matches (Group n r) st st' ->
  exists mid, Matches r st mid /\ st' = capture n st mid.
Proof. inversion 1; eauto. Qed.

Lemma Matches_Lookahead_inv r st st' :
  Matches (Lookahead r) st st' ->
  exists mid, Matches r st mid /\ st' = mkState (pre st) (rest st) (caps mid).
Proof. inversion 1; eauto. Qed.

Lemma Matches_InputEnd_inv st st' : Matches InputEnd st st' -> st' = st /\ rest st = [].
Proof. inversion 1; eauto. Qed.

(** One or more code units of a class. *)
Lemma Matches_plus_inv greedy class st st' :
  Matches (plus greedy class) st st' ->
  exists w, rest st = w ++ rest st' /\ w <> []
            /\ Forall (fun c => class c = true) w /\ caps st' = caps st.
Proof.
  intros (mid & H1 & H2)%Matches_Seq_inv.
  apply Matches_Char_inv in H1 as (c & Hc & Hrest & Hcaps).
  apply Matches_Star_inv in H2 as (w & Hw & Hall & Hcaps').
  exists (c :: w). rewrite Hrest, Hw, Hcaps', Hcaps. eauto.
Qed.

(** What a group captures when its pattern consumed the word [w]. *)
Lemma capture_word n st mid w :
  rest st = w ++ rest mid ->
  capture n st mid = mkState (pre mid) (rest mid) ((n, w) :: caps mid).
Proof.
  intros Hw. unfold capture. rewrite Hw, length_app.
  replace (length w + length (rest mid) - length (rest mid))%nat
    with (length w) by lia.
  by rewrite take_app_length.
Qed.

(** A literal under the flag [i] consumes a word that is the literal up to
    the case of its ASCII letters. *)
Lemma Matches_noCase_inv (cs : jsstring) :
  cs <> [] ->
  forall st st',
  Matches (seqAll (List.map (fun c => Char (noCase c)) cs)) st st' ->
  exists w, rest st = w ++ rest st' /\ caps st' = caps st
            /\ List.map asciiLower w = List.map asciiLower cs.
Proof.
  induction cs as [|c cs IH]; [done|]. intros _ st st'.
  destruct cs as [|c' cs].
  - cbn [List.map seqAll]. intros (x & Hx & Hrest & Hcaps)%Matches_Char_inv.
    exists [x]. unfold noCase in Hx. apply N.eqb_eq in Hx.
    cbn [List.map app]. by rewrite Hx.
  - change (seqAll (List.map (fun c => Char (noCase c)) (c :: c' :: cs)))
      with (Seq (Char (noCase c))
                (seqAll (List.map (fun c => Char (noCase c)) (c' :: cs)))).
    intros (mid & H1 & H2)%Matches_Seq_inv.
    apply Matches_Char_inv in H1 as (x & Hx & Hrest & Hcaps).
    destruct (IH ltac:(done) _ _ H2) as (w & Hw & Hcaps' & Hlower).
    exists (x :: w). unfold noCase in Hx. apply N.eqb_eq in Hx.
    rewrite Hrest, Hw, Hcaps', Hcaps. cbn [List.map app].
    by rewrite Hx, Hlower.
Qed.

(** *** Searching *)

Lemma matchAllFrom_Forall (P : MatchResult -> Prop) r :
  (forall before s m, matchHere r before s = Some m -> P m) ->
  forall s before skip, Forall P (matchAllFrom r before s skip).
Proof.
  intros HP s. induction s as [|c s IH]; intros before skip.
  - destruct skip; cbn [matchAllFrom]; [|constructor].
    destruct (matchHere r before []) eqn:E; [|constructor].
    constructor; [by eapply HP|constructor].
  - destruct skip; cbn [matchAllFrom]; [|apply IH].
    destruct (matchHere r before (c :: s)) eqn:E; [|apply IH].
    constructor; [by eapply HP|apply IH].
Qed.

(** *** What the matcher finds on a given text *)












(** *** Where the matches are *)






(** *** Where the search gets to *)


End RegexProps.

(* ===================================================================== *)
(** ** Properties of the sections of a document *)
(* ===================================================================== *)

Module SectionsProps.
Import JsString Regex RegexProps Sections.

(** A match of [sectionBreak] is empty, stands at the start of a line and
    before two number signs. *)
Lemma sectionBreak_match before s m :
  matchHere sectionBreak before s = Some m ->
  matched m = []
  /\ headIsLineTerminator before = true
  /\ exists after, s = 35%N :: 35%N :: after.
Proof.
  unfold matchHere.
  destruct (rmatch sectionBreak Some (mkState before s [])) as [final|] eqn:E; [|done].
  intros [= <-]. apply rmatch_sound in E as (st' & H & [= ->]).
  unfold sectionBreak in H.
  apply Matches_Lookahead_inv in H as (mid & H & ->). cbn [rest matched].
  split; [by rewrite Nat.sub_diag|].
  cbn [seqAll] in H.
  apply Matches_Seq_inv in H as (s0 & H0 & H).
  inversion H0 as [| | | | | | | | | |st Hstart| |]; subst. cbn [pre] in Hstart.
  split; [exact Hstart|].
  apply Matches_Seq_inv in H as (s1 & H1 & H).
  apply Matches_Char_inv in H1 as (c1 & Hc1 & Hr1 & _).
  apply Matches_Seq_inv in H as (s2 & H2 & _).
  apply Matches_Char_inv in H2 as (c2 & Hc2 & Hr2 & _).
  unfold exactly in Hc1, Hc2. apply N.eqb_eq in Hc1, Hc2. subst c1 c2.
  cbn [rest] in Hr1. exists (rest s2). by rewrite Hr1, Hr2.
Qed.

Lemma splitFrom_concat (s : jsstring) :
  forall before piece,
  concat (splitFrom sectionBreak before s piece 0) = rev piece ++ s.
Proof.
  induction s as [|c s IH]; intros before piece; cbn [splitFrom].
  - cbn [concat]. by rewrite !app_nil_r.
  - destruct (matchHere sectionBreak before (c :: s)) as [m|] eqn:E.
    + apply sectionBreak_match in E as (-> & _ & _). cbn [length].
      destruct piece as [|p piece].
      * rewrite IH. reflexivity.
      * cbn [concat]. rewrite IH. reflexivity.
    + rewrite IH. cbn [rev]. by rewrite <- app_assoc.
Qed.

Lemma splitFrom_first (s : jsstring) :
  forall before piece,
  exists more others,
    splitFrom sectionBreak before s piece 0 = (rev piece ++ more) :: others
    /\ (s <> [] -> rev piece ++ more <> []).
Proof.
  induction s as [|c s IH]; intros before piece; cbn [splitFrom].
  - exists [], []. by rewrite app_nil_r.
  - assert (Hgrow : forall piece' : list N,
              piece' <> [] -> forall more : list N, rev piece' ++ more <> []).
    { intros piece' Hne more Heq. apply app_eq_nil in Heq as [Heq _].
      apply (f_equal (@rev N)) in Heq. rewrite rev_involutive in Heq. done. }
    destruct (matchHere sectionBreak before (c :: s)) as [m|] eqn:E.
    + apply sectionBreak_match in E as (-> & _ & _). cbn [length].
      destruct piece as [|p piece].
      * destruct (IH (c :: before) [c]) as (more & others & -> & _).
        exists ([c] ++ more), others. split; [done|]. intros _. done.
      * exists [], (splitFrom sectionBreak (c :: before) s [c] 0).
        rewrite app_nil_r. split; [done|]. intros _.
        rewrite <- (app_nil_r (rev (p :: piece))). by apply Hgrow.
    + destruct (IH (c :: before) (c :: piece)) as (more & others & -> & _).
      exists ([c] ++ more), others. cbn [rev]. rewrite <- app_assoc.
      split; [done|]. intros _.
      rewrite app_assoc. change (rev piece ++ [c]) with (rev piece ++ [c]).
      intros Heq. apply app_eq_nil in Heq as [Heq _].
      apply app_eq_nil in Heq as [_ Heq]. done.
Qed.

Lemma splitFrom_later (s : jsstring) :
  forall before piece,
  Forall (fun later => exists tail, later = 35%N :: 35%N :: tail)
         (tail (splitFrom sectionBreak before s piece 0)).
Proof.
  induction s as [|c s IH]; intros before piece; cbn [splitFrom].
  - constructor.
  - destruct (matchHere sectionBreak before (c :: s)) as [m|] eqn:E; [|apply IH].
    apply sectionBreak_match in E as (-> & _ & after & Hs). cbn [length].
    destruct piece as [|p piece]; [apply IH|]. cbn [tail].
    injection Hs as -> ->.
    assert (Hnext : matchHere sectionBreak (35%N :: before) (35%N :: after) = None).
    { destruct (matchHere sectionBreak (35%N :: before) (35%N :: after)) as [m'|] eqn:E;
        [|done].
      by apply sectionBreak_match in E as (_ & Hline & _). }
    cbn [splitFrom]. rewrite Hnext.
    destruct (splitFrom_first after (35%N :: 35%N :: before) [35%N; 35%N])
      as (more & others & Hsplit & _).
    pose proof (IH (35%N :: before) [35%N]) as Hlater.
    cbn [splitFrom] in Hlater. rewrite Hnext in Hlater.
    rewrite Hsplit in Hlater |- *. cbn [tail] in Hlater.
    constructor; [|exact Hlater]. by exists more.
Qed.

Lemma Forall_nonempty_splitFrom (s : jsstring) :
  forall before piece,
  (s <> [] \/ piece <> []) ->
  Forall (fun part => part <> []) (splitFrom sectionBreak before s piece 0).
Proof.
  intros before piece Hne.
  destruct (splitFrom_first s before piece) as (more & others & Hsplit & Hfirst).
  pose proof (splitFrom_later s before piece) as Hlater.
  rewrite Hsplit in Hlater |- *. cbn [tail] in Hlater.
  constructor.
  - destruct s as [|c s]; [|by apply Hfirst].
    destruct Hne as [?|Hne]; [done|].
    intros Heq. apply app_eq_nil in Heq as [Heq _].
    apply (f_equal (@rev N)) in Heq. rewrite rev_involutive in Heq. done.
  - eapply Forall_impl; [exact Hlater|]. by intros part [tail' ->].
Qed.

Lemma concat_substring {A : Type} (parts : list (list A)) (part : list A) :
  part ∈ parts -> exists before after, concat parts = before ++ part ++ after.
Proof.
  intros (l1 & l2 & ->)%list_elem_of_split.
  exists (concat l1), (concat l2). by rewrite concat_app.
Qed.

(** X20. Splitting a document into sections loses
    nothing: the pieces of the split, put together, are the text. Every
    piece after the first starts with two number signs, at a line that
    starts with a header, and no piece of a non-empty text is empty. Every
    section returned is one of the pieces without the white space around
    it: it is not empty, neither starts nor ends with white space, and is a
    contiguous part of the text. *)
Theorem chunkBySection_sections (text : jsstring) :
  concat (split sectionBreak text) = text
  /\ Forall (fun piece => startsWith piece (lit "##") = true)
            (tail (split sectionBreak text))
  /\ (text <> [] -> Forall (fun piece => piece <> []) (split sectionBreak text))
  /\ Forall (fun section =>
               section <> [] /\ Chunker.trimmed section
               /\ Chunker.substringOf section text
               /\ exists piece, piece ∈ split sectionBreak text
                                /\ section = trim piece)
            (chunkBySection text)
  /\ (length (chunkBySection text) <= length (split sectionBreak text))%nat.
Proof.
  assert (Hconcat : concat (split sectionBreak text) = text).
  { destruct text as [|c text]; cbn [split].
    - by destruct (matchHere sectionBreak [] []).
    - apply (splitFrom_concat (c :: text) [] []). }
  split; [exact Hconcat|]. split; [|split; [|split]].
  - destruct text as [|c text]; cbn [split].
    + destruct (matchHere sectionBreak [] []); constructor.
    + eapply Forall_impl; [apply splitFrom_later|].
      intros piece [tail' ->]. by destruct tail'.
  - intros Hne. destruct text as [|c text]; [done|]. cbn [split].
    apply Forall_nonempty_splitFrom. by left.
  - unfold chunkBySection. apply Forall_forall.
    intros section Hin%list_elem_of_In. apply List.filter_In in Hin as [Hin Hlen].
    apply List.in_map_iff in Hin as (piece & <- & Hpiece).
    apply list_elem_of_In in Hpiece.
    split; [by destruct (trim piece)|]. split; [apply ChunkerProps.trim_trimmed|].
    split; [|eauto].
    destruct (concat_substring _ _ Hpiece) as (b1 & a1 & H1).
    destruct (ChunkerProps.trim_substring piece) as (b2 & a2 & H2).
    exists (b1 ++ b2), (a2 ++ a1). rewrite <- Hconcat, H1.
    rewrite H2 at 1. by rewrite <- !app_assoc.
  - unfold chunkBySection.
    etransitivity; [apply JobManagerProps.filter_length_le|].
    by rewrite List.length_map.
Qed.

(** A document with a preamble and two headers, the second one of level
    three; a line that only looks like a header inside it splits nothing. *)
Example chunkBySection_example :
  chunkBySection (lit "intro" ++ [10%N] ++ lit "## A" ++ [10%N] ++ lit "#tag ##no"
                  ++ [10%N; 10%N] ++ lit "### B" ++ [10%N])
  = [lit "intro"; lit "## A" ++ [10%N] ++ lit "#tag ##no"; lit "### B"]
  /\ chunkBySection (lit "## only") = [lit "## only"]
  /\ chunkBySection (lit "  ") = []
  /\ chunkBySection [] = [].
Proof. repeat split; vm_compute; reflexivity. Qed.

End SectionsProps.

(* ===================================================================== *)
(** ** Properties of the parser of compiler output *)
(* ===================================================================== *)

Module Judge0Props.
Import JsString JsNumber Regex RegexProps Judge0.

Lemma Matches_group_plus_inv n greedy class st st' :
  Matches (Group n (plus greedy class)) st st' ->
  exists w, rest st = w ++ rest st' /\ w <> []
            /\ Forall (fun c => class c = true) w
            /\ caps st' = (n, w) :: caps st.
Proof.
  intros (mid & H & ->)%Matches_Group_inv.
  apply Matches_plus_inv in H as (w & Hw & Hne & Hall & Hcaps).
  exists w. rewrite (capture_word n st mid w Hw). cbn. by rewrite Hcaps.
Qed.

Lemma Matches_colon_inv st st' :
  Matches (text ":") st st' ->
  exists c, rest st = c :: rest st' /\ caps st' = caps st.
Proof.
  change (text ":") with (Char (exactly 58)).
  intros (c & _ & Hrest & Hcaps)%Matches_Char_inv. eauto.
Qed.

Lemma Matches_type_inv st st' :
  Matches (Group 3 (Alt (textNoCase "warning") (textNoCase "error"))) st st' ->
  exists w, rest st = w ++ rest st' /\ caps st' = (3%nat, w) :: caps st
            /\ (toLowerCase w = lit "warning" \/ toLowerCase w = lit "error").
Proof.
  intros (mid & H & ->)%Matches_Group_inv.
  apply Matches_Alt_inv in H as [H|H];
    apply Matches_noCase_inv in H as (w & Hw & Hcaps & Hlower); try done;
    exists w; rewrite (capture_word 3 st mid w Hw); cbn; rewrite Hcaps;
    (split; [done|split; [done|]]); [left|right]; exact Hlower.
Qed.

Lemma Matches_lineEnd_inv st st' :
  Matches (Lookahead (Alt (Char (exactly 10)) InputEnd)) st st' ->
  rest st' = rest st /\ caps st' = caps st.
Proof.
  intros (mid & H & ->)%Matches_Lookahead_inv. cbn. split; [done|].
  apply Matches_Alt_inv in H as [H|H].
  - by apply Matches_Char_inv in H as (c & _ & _ & Hcaps).
  - by apply Matches_InputEnd_inv in H as [-> _].
Qed.




(** Every match the matcher finds for [gccMessage] is structured. *)
Lemma gccMessage_structured before s m :
  matchHere gccMessage before s = Some m -> structured m.
Proof.
  unfold matchHere.
  destruct (rmatch gccMessage Some (mkState before s [])) as [final|] eqn:E; [|done].
  intros [= <-]. apply rmatch_sound in E as (st' & H & [= ->]).
  unfold gccMessage in H. cbn [seqAll] in H.
  apply Matches_Seq_inv in H as (s1 & H1 & H).
  apply Matches_plus_inv in H1 as (w1 & Hr1 & Hne1 & _ & Hc1).
  apply Matches_Seq_inv in H as (s2 & H2 & H).
  apply Matches_colon_inv in H2 as (c2 & Hr2 & Hc2).
  apply Matches_Seq_inv in H as (s3 & H3 & H).
  apply Matches_group_plus_inv in H3 as (lineStr & Hr3 & Hne3 & Hd3 & Hc3).
  apply Matches_Seq_inv in H as (s4 & H4 & H).
  apply Matches_colon_inv in H4 as (c4 & Hr4 & Hc4).
  apply Matches_Seq_inv in H as (s5 & H5 & H).
  apply Matches_group_plus_inv in H5 as (colStr & Hr5 & Hne5 & Hd5 & Hc5).
  apply Matches_Seq_inv in H as (s6 & H6 & H).
  apply Matches_colon_inv in H6 as (c6 & Hr6 & Hc6).
  apply Matches_Seq_inv in H as (s7 & H7 & H).
  apply Matches_Star_inv in H7 as (w7 & Hr7 & _ & Hc7).
  apply Matches_Seq_inv in H as (s8 & H8 & H).
  apply Matches_type_inv in H8 as (type & Hr8 & Hc8 & Htype).
  apply Matches_Seq_inv in H as (s9 & H9 & H).
  apply Matches_colon_inv in H9 as (c9 & Hr9 & Hc9).
  apply Matches_Seq_inv in H as (s10 & H10 & H).
  apply Matches_Star_inv in H10 as (w10 & Hr10 & _ & Hc10).
  apply Matches_Seq_inv in H as (s11 & H11 & H).
  apply Matches_group_plus_inv in H11 as (message & Hr11 & Hne11 & _ & Hc11).
  apply Matches_lineEnd_inv in H as [Hr12 Hc12].
  cbn [rest caps] in *. split.
  - cbn [matched].
    assert (Hlen : (length (rest final) < length s)%nat).
    { rewrite Hr1, Hr2, Hr3, Hr4, Hr5, Hr6, Hr7, Hr8, Hr9, Hr10, Hr11, Hr12.
      destruct w1; [done|].
      repeat first [rewrite length_app | rewrite length_cons]. lia. }
    intros Hnil%(f_equal length). rewrite length_take in Hnil. cbn in Hnil. lia.
  - exists lineStr, colStr, type, message. cbn [groups].
    rewrite Hc12, Hc11, Hc10, Hc9, Hc8, Hc7, Hc6, Hc5, Hc4, Hc3, Hc2, Hc1.
    by repeat split.
Qed.

(** *** Numerals *)

Lemma digit_not_space c : isDigit c = true -> isWhiteSpace c = false.
Proof.
  unfold isDigit, isWhiteSpace. intros [H1 H2]%andb_prop.
  apply N.leb_le in H1, H2.
  repeat match goal with
         | |- context [(?a <=? ?b)%N] => destruct (N.leb_spec a b)
         | |- context [(?a =? ?b)%N] => destruct (N.eqb_spec a b)
         end; cbn; lia.
Qed.

Lemma takeWhile_all p (s : jsstring) :
  Forall (fun c => p c = true) s -> takeWhile p s = s.
Proof.
  induction 1 as [|c s Hc _ IH]; cbn [takeWhile]; [done|]. by rewrite Hc, IH.
Qed.

Lemma parseInt_numeral (s : jsstring) :
  isNumeral s -> parseInt s = Some (roundToDouble (digitsValue s)).
Proof.
  intros [Hne Hall]. destruct s as [|c s]; [done|].
  pose proof (Forall_inv Hall) as Hc. cbn beta in Hc.
  unfold parseInt. cbn [trimStart]. rewrite (digit_not_space c Hc).
  assert (Hsign : c <> 45%N /\ c <> 43%N).
  { unfold isDigit in Hc. apply andb_prop in Hc as [H1 H2].
    apply N.leb_le in H1, H2. lia. }
  destruct Hsign as [H45 H43].
  assert (Hdigits : takeWhile isDigit (c :: s) = c :: s) by by apply takeWhile_all.
  destruct c as [|p]; [by rewrite Hdigits|].
  destruct p as [p|p|]; try (by rewrite Hdigits).
  - destruct p as [p|p|]; try (by rewrite Hdigits).
    + destruct p as [p|p|]; try (by rewrite Hdigits).
      destruct p as [p|p|]; try (by rewrite Hdigits).
      destruct p as [p|p|]; try (by rewrite Hdigits).
      destruct p as [p|p|]; try (by rewrite Hdigits). done.
    + destruct p as [p|p|]; try (by rewrite Hdigits).
      destruct p as [p|p|]; try (by rewrite Hdigits).
      destruct p as [p|p|]; try (by rewrite Hdigits).
      destruct p as [p|p|]; try (by rewrite Hdigits). done.
Qed.

(** An integer of at most 53 binary digits is its own Number value. *)
Lemma roundToDouble_exact (n : Z) :
  Z.abs n < 2 ^ 53 -> roundToDouble n = Finite n.
Proof.
  intros Hn. unfold roundToDouble. cbv zeta.
  destruct (Z.leb_spec (Z.log2 (Z.abs n) - 52) 0) as [|Hlog]; [done|].
  assert (Hpos : 0 < Z.abs n) by (destruct (Z.abs n) eqn:E; [cbn in Hlog|..]; lia).
  pose proof (proj1 (Z.log2_lt_pow2 (Z.abs n) 53 Hpos) Hn). lia.
Qed.

Lemma digitsValue_nonneg (digits : jsstring) :
  Forall (fun c => isDigit c = true) digits -> 0 <= digitsValue digits.
Proof.
  unfold digitsValue. intros Hall.
  assert (Hgen : forall acc, 0 <= acc ->
            0 <= foldl (fun acc c => 10 * acc + (Z.of_N c - 48)) acc digits).
  { induction Hall as [|c digits Hc _ IH]; intros acc Hacc; cbn [foldl]; [done|].
    apply IH. unfold isDigit in Hc. apply andb_prop in Hc as [H1 H2].
    apply N.leb_le in H1, H2. lia. }
  by apply Hgen.
Qed.

(** *** Trimming and the fallback *)







(** *** The loop over the matches *)


Lemma execLoop_gccMessage (output : jsstring) :
  execLoop gccMessage output = Some (matchAll gccMessage output)
  /\ Forall structured (matchAll gccMessage output).
Proof.
  assert (Hall : Forall structured (matchAll gccMessage output))
    by (apply matchAllFrom_Forall; apply gccMessage_structured).
  split; [|done]. unfold execLoop.
  replace (forallb _ _) with true; [done|]. symmetry.
  apply forallb_forall. intros m Hin.
  rewrite List.Forall_forall in Hall. destruct (Hall m Hin) as [Hne _].
  apply Nat.ltb_lt. destruct (matched m); [done|cbn; lia].
Qed.

(** *** What the pattern finds on a message of the compiler *)
















(** Two lines of compiler output, and a line that ends in a carriage return,
    which the pattern does not match. *)
Example parseCompilerOutput_examples :
  parseCompilerOutput
    (lit "main.cpp:3:5: warning: unused variable" ++ [10%N]
     ++ lit "main.cpp:10:1: Error:   expected ;" ++ [10%N])
  = Some (mkParsed
            [mkMessage (lit "warning") (Some (Finite 3)) (Some (Finite 5))
                       (lit "unused variable")]
            [mkMessage (lit "error") (Some (Finite 10)) (Some (Finite 1))
                       (lit "expected ;")])
  /\ parseCompilerOutput (lit "a.c:1:2: error: foo" ++ [13%N; 10%N])
     = Some (generalError (lit "a.c:1:2: error: foo"))
  /\ parseCompilerOutput (lit "compiled without messages") = Some (mkParsed [] []).
Proof. repeat split; vm_compute; reflexivity. Qed.



End Judge0Props.

(* ===================================================================== *)
(** ** Properties of the Wandbox provider *)
(* ===================================================================== *)

Module WandboxProps.
Import JsString JsNumber Regex RegexProps CompilerTypes Wandbox.
Import Judge0 (CompilerMessage, mkMessage, ParsedOutput, mkParsed, parseInt,
               toLowerCase, isNumeral, digitsValue).

(** *** Searching a text *)

Lemma startsWith_app (pattern s : jsstring) : startsWith (pattern ++ s) pattern = true.
Proof.
  induction pattern as [|p pattern IH]; [by destruct s|]. cbn [app startsWith].
  by rewrite N.eqb_refl, IH.
Qed.

Lemma includes_app_r (before s pattern : jsstring) :
  includes s pattern = true -> includes (before ++ s) pattern = true.
Proof.
  intros H. induction before as [|c before IH]; [exact H|].
  cbn [app includes]. rewrite IH. apply orb_true_r.
Qed.

Lemma includes_middle (before pattern after : jsstring) :
  includes (before ++ pattern ++ after) pattern = true.
Proof.
  apply includes_app_r. pose proof (startsWith_app pattern after) as H.
  destruct (pattern ++ after); cbn [includes]; by rewrite H.
Qed.

Lemma startsWith_lower (s pattern : jsstring) :
  startsWith s pattern = true ->
  startsWith (toLowerCase s) (toLowerCase pattern) = true.
Proof.
  revert s. induction pattern as [|p pattern IH]; intros s; [by destruct s|].
  destruct s as [|c s]; [done|]. cbn [startsWith toLowerCase List.map].
  intros [->%N.eqb_eq H]%andb_prop. rewrite N.eqb_refl. by apply IH.
Qed.

Lemma includes_lower (s pattern : jsstring) :
  includes s pattern = true ->
  includes (toLowerCase s) (toLowerCase pattern) = true.
Proof.
  induction s as [|c s IH]; cbn [includes toLowerCase List.map].
  - rewrite !orb_false_r. apply (startsWith_lower [] pattern).
  - intros [H|H]%orb_prop.
    + apply (startsWith_lower (c :: s) pattern) in H.
      cbn [toLowerCase List.map] in H. by rewrite H.
    + fold (toLowerCase s). rewrite (IH H). apply orb_true_r.
Qed.

Lemma includes_prefix_of (s pattern extra : jsstring) :
  includes s (pattern ++ extra) = true -> includes s pattern = true.
Proof.
  assert (Hstarts : forall s, startsWith s (pattern ++ extra) = true ->
                              startsWith s pattern = true).
  { clear s. induction pattern as [|p pattern IH]; intros s; [by destruct s|].
    destruct s as [|c s]; [done|]. cbn [app startsWith].
    intros [-> H]%andb_prop. by rewrite (IH _ H). }
  induction s as [|c s IH]; cbn [includes].
  - rewrite !orb_false_r. apply Hstarts.
  - intros [H|H]%orb_prop; [by rewrite (Hstarts _ H)|].
    rewrite (IH H). apply orb_true_r.
Qed.

(** *** What the pattern matches *)

Lemma Matches_exactly_inv (cs : jsstring) :
  cs <> [] ->
  forall st st',
  Matches (seqAll (List.map (fun c => Char (exactly c)) cs)) st st' ->
  rest st = cs ++ rest st' /\ caps st' = caps st.
Proof.
  induction cs as [|c cs IH]; [done|]. intros _ st st'.
  destruct cs as [|c' cs].
  - cbn [List.map seqAll]. intros (x & Hx & Hrest & Hcaps)%Matches_Char_inv.
    unfold exactly in Hx. apply N.eqb_eq in Hx. by subst.
  - change (seqAll (List.map (fun c => Char (exactly c)) (c :: c' :: cs)))
      with (Seq (Char (exactly c))
                (seqAll (List.map (fun c => Char (exactly c)) (c' :: cs)))).
    intros (mid & H1 & H2)%Matches_Seq_inv.
    apply Matches_Char_inv in H1 as (x & Hx & Hrest & Hcaps).
    unfold exactly in Hx. apply N.eqb_eq in Hx. subst x.
    apply IH in H2 as [Hrest' Hcaps']; [|done].
    split; [|congruence]. rewrite Hrest, Hrest'. reflexivity.
Qed.

Lemma Matches_LineStart_inv st st' : Matches LineStart st st' -> st' = st.
Proof. by inversion 1. Qed.

Lemma Matches_LineEnd_inv st st' : Matches LineEnd st st' -> st' = st.
Proof. by inversion 1. Qed.

Lemma Matches_kind_inv st st' :
  Matches (Group 3 (Alt (text "warning") (text "error"))) st st' ->
  exists w, rest st = w ++ rest st' /\ caps st' = (3%nat, w) :: caps st
            /\ (w = lit "warning" \/ w = lit "error").
Proof.
  intros (mid & H & ->)%Matches_Group_inv.
  apply Matches_Alt_inv in H as [H|H];
    apply Matches_exactly_inv in H as [Hw Hcaps]; try done;
    eexists; rewrite (capture_word 3 st mid _ Hw); cbn; rewrite Hcaps;
    (split; [done|split; [done|]]); [by left|by right].
Qed.

(** What every match of [lineRegex] is: it is not empty and it captured a
    line numeral, a column numeral, the word warning or error, and a
    message; when it captured error, the text from the match on contains
    the word. *)
Lemma lineRegex_structured before s m :
  matchHere lineRegex before s = Some m ->
  matched m <> []
  /\ exists line column kind message,
       groups m = [(4%nat, message); (3%nat, kind); (2%nat, column); (1%nat, line)]
       /\ isNumeral line /\ isNumeral column
       /\ (kind = lit "warning"
           \/ (kind = lit "error" /\ includes s (lit "error") = true)).
Proof.
  unfold matchHere.
  destruct (rmatch lineRegex Some (mkState before s [])) as [final|] eqn:E; [|done].
  intros [= <-]. apply rmatch_sound in E as (st' & H & [= ->]).
  unfold lineRegex in H. cbn [seqAll] in H.
  apply Matches_Seq_inv in H as (s0 & H0 & H).
  apply Matches_LineStart_inv in H0 as ->.
  apply Matches_Seq_inv in H as (s1 & H1 & H).
  apply Matches_Star_inv in H1 as (w1 & Hr1 & _ & Hc1).
  apply Matches_Seq_inv in H as (s2 & H2 & H).
  apply Judge0Props.Matches_colon_inv in H2 as (c2 & Hr2 & Hc2).
  apply Matches_Seq_inv in H as (s3 & H3 & H).
  apply Judge0Props.Matches_group_plus_inv in H3 as (line & Hr3 & Hne3 & Hd3 & Hc3).
  apply Matches_Seq_inv in H as (s4 & H4 & H).
  apply Judge0Props.Matches_colon_inv in H4 as (c4 & Hr4 & Hc4).
  apply Matches_Seq_inv in H as (s5 & H5 & H).
  apply Judge0Props.Matches_group_plus_inv in H5 as (column & Hr5 & Hne5 & Hd5 & Hc5).
  apply Matches_Seq_inv in H as (s6 & H6 & H).
  apply Judge0Props.Matches_colon_inv in H6 as (c6 & Hr6 & Hc6).
  apply Matches_Seq_inv in H as (s7 & H7 & H).
  apply Matches_Star_inv in H7 as (w7 & Hr7 & _ & Hc7).
  apply Matches_Seq_inv in H as (s8 & H8 & H).
  apply Matches_kind_inv in H8 as (kind & Hr8 & Hc8 & Hkind).
  apply Matches_Seq_inv in H as (s9 & H9 & H).
  apply Judge0Props.Matches_colon_inv in H9 as (c9 & Hr9 & Hc9).
  apply Matches_Seq_inv in H as (s10 & H10 & H).
  apply Matches_Star_inv in H10 as (w10 & Hr10 & _ & Hc10).
  apply Matches_Seq_inv in H as (s11 & H11 & H).
  apply Judge0Props.Matches_group_plus_inv in H11 as (message & Hr11 & Hne11 & _ & Hc11).
  apply Matches_LineEnd_inv in H as ->.
  cbn [rest caps] in *. split.
  - cbn [matched].
    assert (Hlen : (length (rest s11) < length s)%nat).
    { rewrite Hr1, Hr2, Hr3, Hr4, Hr5, Hr6, Hr7, Hr8, Hr9, Hr10, Hr11.
      repeat first [rewrite length_app | rewrite length_cons]. lia. }
    intros Hnil%(f_equal length). rewrite length_take in Hnil. cbn in Hnil. lia.
  - exists line, column, kind, message. cbn [groups].
    rewrite Hc11, Hc10, Hc9, Hc8, Hc7, Hc6, Hc5, Hc4, Hc3, Hc2, Hc1.
    split; [done|]. split; [done|]. split; [done|].
    destruct Hkind as [->| ->]; [by left|right]. split; [done|].
    assert (Hs : s = (w1 ++ c2 :: line ++ c4 :: column ++ c6 :: w7)
                     ++ lit "error" ++ rest s8).
    { rewrite Hr1, Hr2, Hr3, Hr4, Hr5, Hr6, Hr7, Hr8.
      repeat (rewrite <- ?app_assoc; cbn [app]; f_equal). }
    rewrite Hs. apply includes_middle.
Qed.

Lemma matchAllFrom_within (P : jsstring -> MatchResult -> Prop) r :
  (forall before s m, matchHere r before s = Some m -> P s m) ->
  (forall c s m, P s m -> P (c :: s) m) ->
  forall s before skip, Forall (P s) (matchAllFrom r before s skip).
Proof.
  intros HP Hmono s. induction s as [|c s IH]; intros before skip.
  - destruct skip; cbn [matchAllFrom]; [|constructor].
    destruct (matchHere r before []) eqn:E; [|constructor].
    constructor; [by eapply HP|constructor].
  - assert (Hrest : forall before skip,
              Forall (P (c :: s)) (matchAllFrom r before s skip)).
    { intros before' skip'. eapply Forall_impl; [apply IH|]. intros m. apply Hmono. }
    destruct skip; cbn [matchAllFrom]; [|apply Hrest].
    destruct (matchHere r before (c :: s)) eqn:E; [|apply Hrest].
    constructor; [by eapply HP|apply Hrest].
Qed.

(** The structured messages of an output. *)
Lemma execLoop_lineRegex (output : jsstring) :
  execLoop lineRegex output = Some (matchAll lineRegex output)
  /\ Forall (fun m =>
       exists line column kind message,
         groups m = [(4%nat, message); (3%nat, kind); (2%nat, column); (1%nat, line)]
         /\ isNumeral line /\ isNumeral column
         /\ (kind = lit "warning"
             \/ (kind = lit "error" /\ includes output (lit "error") = true)))
       (matchAll lineRegex output).
Proof.
  assert (Hall : Forall (fun m =>
            matched m <> []
            /\ exists line column kind message,
                 groups m = [(4%nat, message); (3%nat, kind);
                             (2%nat, column); (1%nat, line)]
                 /\ isNumeral line /\ isNumeral column
                 /\ (kind = lit "warning"
                     \/ (kind = lit "error" /\ includes output (lit "error") = true)))
            (matchAll lineRegex output)).
  { apply (matchAllFrom_within
             (fun s m =>
                matched m <> []
                /\ exists line column kind message,
                     groups m = [(4%nat, message); (3%nat, kind);
                                 (2%nat, column); (1%nat, line)]
                     /\ isNumeral line /\ isNumeral column
                     /\ (kind = lit "warning"
                         \/ (kind = lit "error" /\ includes s (lit "error") = true)))).
    - apply lineRegex_structured.
    - intros c s m (Hne & line & column & kind & message & Hg & Hl & Hc & Hkind).
      split; [done|]. exists line, column, kind, message.
      repeat (split; [done|]). destruct Hkind as [?|[? Hin]]; [by left|right].
      split; [done|]. by apply (includes_app_r [c]). }
  split.
  - unfold execLoop. replace (forallb _ _) with true; [done|]. symmetry.
    apply forallb_forall. intros m Hin.
    rewrite List.Forall_forall in Hall. destruct (Hall m Hin) as [Hne _].
    apply Nat.ltb_lt. destruct (matched m); [done|cbn; lia].
  - eapply Forall_impl; [exact Hall|]. by intros m [_ H].
Qed.

Lemma foldl_pushMatch_split (ms : list MatchResult) :
  forall acc,
  Judge0.warnings (foldl pushMatch acc ms)
    = Judge0.warnings acc ++ (messageOf <$> List.filter isWarning ms)
  /\ Judge0.errors (foldl pushMatch acc ms)
    = Judge0.errors acc ++ (messageOf <$> List.filter (fun m => negb (isWarning m)) ms).
Proof.
  induction ms as [|m ms IH]; intros acc; cbn [foldl List.filter].
  - cbn. by rewrite !app_nil_r.
  - destruct (IH (pushMatch acc m)) as [-> ->].
    unfold pushMatch, isWarning. fold (messageOf m).
    case_bool_decide; cbn [negb Judge0.warnings Judge0.errors fmap list_fmap];
      by rewrite <- ?app_assoc.
Qed.

Lemma mentionsError_of_includes (text : jsstring) :
  includes text (lit "error") = true -> mentionsError text = true.
Proof. intros H. unfold mentionsError. by apply (includes_lower text (lit "error")). Qed.

(** What [parseCompilerOutput] answers. *)
Lemma parseCompilerOutput_spec (output : jsstring) :
  exists parsed,
    parseCompilerOutput output = Some parsed
    /\ (Judge0.errors parsed <> [] <-> mentionsError output = true)
    /\ Judge0.warnings parsed
       = (if bool_decide (output = []) then []
          else messageOf <$> List.filter isWarning (matchAll lineRegex output))
    /\ (List.filter (fun m => negb (isWarning m)) (matchAll lineRegex output) = [] ->
        mentionsError output = true ->
        Judge0.errors parsed
        = [mkMessage (lit "error") None None (slice (trim output) 0 500)]).
Proof.
  unfold parseCompilerOutput. case_bool_decide as Hempty.
  { subst. eexists. split; [reflexivity|]. cbn [Judge0.errors Judge0.warnings].
    split; [|split; [done|]].
    - split; [done|]. intros H. vm_compute in H. done.
    - intros _ H. vm_compute in H. done. }
  destruct (execLoop_lineRegex output) as [-> Hall].
  cbn [mbind option_bind].
  set (ms := matchAll lineRegex output) in *.
  destruct (foldl_pushMatch_split ms (mkParsed [] [])) as [Hw He].
  cbn [Judge0.warnings Judge0.errors app] in Hw, He.
  fold (mentionsError output).
  destruct (List.filter (fun m => negb (isWarning m)) ms) as [|m others] eqn:Hfilter.
  - cbn [fmap list_fmap] in He. rewrite He.
    rewrite (bool_decide_eq_true_2 ([] = [])) by done. cbn [andb].
    destruct (mentionsError output) eqn:Hmentions.
    + eexists. split; [reflexivity|]. cbn [Judge0.errors Judge0.warnings app].
      split; [done|]. split; [by rewrite Hw|]. done.
    + eexists. split; [reflexivity|]. rewrite He. split; [done|].
      split; [by rewrite Hw|]. done.
  - assert (Hin : m ∈ List.filter (fun m => negb (isWarning m)) ms)
      by (rewrite Hfilter; by left).
    apply list_elem_of_In, List.filter_In in Hin as [Hin Hkind].
    rewrite List.Forall_forall in Hall.
    destruct (Hall m Hin) as (line & column & kind & message & Hg & _ & _ & Hcases).
    assert (Hmentions : mentionsError output = true).
    { destruct Hcases as [-> | [_ Hincl]]; [|by apply mentionsError_of_includes].
      unfold isWarning, group in Hkind. rewrite Hg in Hkind. cbn in Hkind.
      by rewrite bool_decide_eq_true_2 in Hkind. }
    rewrite He. cbn [fmap list_fmap].
    rewrite (bool_decide_eq_false_2 (_ :: _ = [])) by done. cbn [andb].
    eexists. split; [reflexivity|]. rewrite He, Hw. cbn [fmap list_fmap].
    split; [done|]. split; [done|]. done.
Qed.

(** X21. Parsing a Wandbox response always ends, and
    the compilation is reported as failed, with exit code 1, exactly when
    the text of the compiler (its output, or else its message, followed by
    its error text) contains the word error in some case, wherever it
    stands, also inside a warning; otherwise it is reported as successful
    with exit code 0. The errors of the result are empty exactly when the
    status is successful, and the run result is absent. *)
Theorem wandbox_compile_status (response : WandboxResponse) (compileTimeMs : Z) :
  exists result,
    parseCompileResult response compileTimeMs = Some result
    /\ (status result = error <-> mentionsError (compilerText response) = true)
    /\ (status result = success <-> mentionsError (compilerText response) = false)
    /\ exitCode result = (if mentionsError (compilerText response) then 1 else 0)
    /\ (errors result = [] <-> status result = success)
    /\ runResult result = None.
Proof.
  unfold parseCompileResult. fold (compilerText response).
  destruct (parseCompilerOutput_spec (compilerText response))
    as (parsed & -> & Herrors & _ & _).
  cbn [mbind option_bind]. eexists. split; [reflexivity|].
  cbn [status exitCode errors runResult].
  assert (Hsecond : includes (orString (compiler_error response) []) (lit "error:")
                    = true ->
                    mentionsError (compilerText response) = true).
  { intros H. apply mentionsError_of_includes. unfold compilerText.
    apply includes_app_r. by apply (includes_prefix_of _ (lit "error") (lit ":")). }
  destruct (mentionsError (compilerText response)) eqn:Hmentions.
  - assert (Hne : Judge0.errors parsed <> []) by by apply Herrors.
    rewrite (bool_decide_eq_false_2 _ Hne). cbn [negb orb].
    split_and!; done.
  - assert (Hnil : Judge0.errors parsed = []).
    { destruct (Judge0.errors parsed) as [|e es] eqn:E; [done|].
      assert (H : false = true) by by apply Herrors.
      done. }
    rewrite (bool_decide_eq_true_2 _ Hnil). cbn [negb orb].
    destruct (includes (orString (compiler_error response) []) (lit "error:")) eqn:E;
      [specialize (Hsecond eq_refl); done|].
    split_and!; done.
Qed.


(** X23. [execute] gives a run result exactly
    when the compilation is not reported as failed. The exit code of the
    run is what [parseInt] reads at the start of the status of the
    response, a Number (for a status that is a numeral, its value rounded
    to a double, which is the value below 2^53), and 0 when the status is
    absent, empty or no number; the run is successful exactly when that
    exit code is 0 and the response has no signal, and a runtime error
    otherwise. A response that is not ok, an abort and any other thrown
    value all come out as a [CompilerError]. *)
Theorem wandbox_execute_run_result (answer : ApiAnswer) (startTime endTime : Z) :
  match execute answer startTime endTime with
  | Unfinished => False
  | Throws e =>
      (exists httpStatus, answer = NotOk httpStatus /\ Validation.code e = Validation.API_ERROR)
      \/ (answer = Aborted /\ Validation.code e = Validation.COMPILE_TIMEOUT)
      \/ (exists thrown, answer = Threw thrown /\ Validation.code e = Validation.API_ERROR)
  | Result result =>
      exists response,
        answer = Answered response
        /\ compile answer startTime endTime
           = Result (mkCompileResult (status result) (exitCode result) (stdout result)
                       (stderr result) (compileTimeMs result) (warnings result)
                       (errors result) None)
        /\ (runResult result = None <-> status result = error)
        /\ forall run,
             runResult result = Some run ->
             runExitCode run
             = default (Finite 0)
                       (parseInt (orString (responseStatus response) (lit "0")))
             /\ (forall digits,
                   responseStatus response = Some digits -> isNumeral digits ->
                   runExitCode run = roundToDouble (digitsValue digits)
                   /\ (digitsValue digits < 2 ^ 53 ->
                       runExitCode run = Finite (digitsValue digits)))
             /\ (runStatus run = success
                 <-> runExitCode run = Finite 0
                     /\ (signal response = None \/ signal response = Some []))
             /\ (runStatus run = success \/ runStatus run = runtime_error)
  end.
Proof.
  unfold execute, compile.
  destruct answer as [response|httpStatus| |thrown]; cbn [callWandboxApi].
  - destruct (wandbox_compile_status response (endTime - startTime))
      as (compileResult & -> & _ & _ & _ & _ & Hrun).
    destruct compileResult as [st code out err time ws es run].
    cbn [status exitCode stdout stderr compileTimeMs warnings errors runResult] in *.
    subst run. case_bool_decide as Hstatus.
    + exists response. cbn [status exitCode stdout stderr compileTimeMs warnings
                            errors runResult].
      split; [done|]. split; [done|]. split; [done|]. intros run [=].
    + exists response. cbn [status exitCode stdout stderr compileTimeMs warnings
                            errors runResult].
      split; [done|]. split; [done|]. split; [split; [done|intros; done]|].
      intros run [= <-]. unfold parseRunResult. cbn [runExitCode runStatus].
      split; [done|]. split.
      { intros digits -> Hnumeral.
        assert (Hstatus' : orString (Some digits) (lit "0") = digits)
          by (destruct Hnumeral as [Hne _]; by destruct digits).
        rewrite Hstatus', (Judge0Props.parseInt_numeral _ Hnumeral).
        cbn [default from_option]. unfold id. split; [done|].
        intros Hsmall. apply Judge0Props.roundToDouble_exact.
        pose proof (Judge0Props.digitsValue_nonneg digits (proj2 Hnumeral)). lia. }
      set (code' := default (Finite 0) _).
      destruct (signal response) as [[|c s]|]; cbn [length Nat.ltb Nat.leb];
        case_bool_decide as Hcode; cbn [negb orb];
        (split; [naive_solver|eauto]).
  - left. eauto.
  - right. left. eauto.
  - right. right. eauto.
Qed.

End WandboxProps.

(* ===================================================================== *)
(** ** Properties of the Judge0 provider *)
(* ===================================================================== *)

Module Judge0ProviderProps.
Import JsString JsNumber Regex CompilerTypes Judge0Provider.

Section ProviderFacts.

Variable CPP_STANDARD_FLAGS : Diff.CppVersionId -> option jsstring.
Variable toBase64 fromBase64 : jsstring -> jsstring.
Variable parseFloat : jsstring -> option Q.
Variable fl : Q -> Q.
Variable providerTimeout : Z.
Variable submit : Judge0Submission -> SubmitAnswer.
Variable polls : nat -> PollAnswer.

Lemma pollLoop_spec (remaining : nat) :
  forall attempt,
  match pollLoop fromBase64 polls attempt remaining with
  | Finished result =>
      exists last raw,
        (attempt <= last < attempt + remaining)%nat
        /\ polls last = Polled raw
        /\ statusId raw <> IN_QUEUE /\ statusId raw <> PROCESSING
        /\ result = mkJudge0Result (token raw)
                      (decoded fromBase64 (resultStdout raw))
                      (decoded fromBase64 (resultStderr raw))
                      (decoded fromBase64 (compile_output raw))
                      (resultMessage raw) (statusId raw) (time raw) (memory raw)
        /\ forall earlier, (attempt <= earlier < last)%nat -> pending (polls earlier)
  | Raise e =>
      (Validation.code e = Validation.COMPILE_TIMEOUT
       /\ forall earlier,
            (attempt <= earlier < attempt + remaining)%nat -> pending (polls earlier))
      \/ (Validation.code e = Validation.API_ERROR
          /\ exists last,
               (attempt <= last < attempt + remaining)%nat
               /\ polls last = PollNotOk
               /\ forall earlier, (attempt <= earlier < last)%nat ->
                                  pending (polls earlier))
  | RaiseOther thrown =>
      exists last,
        (attempt <= last < attempt + remaining)%nat
        /\ polls last = PollThrew thrown
        /\ forall earlier, (attempt <= earlier < last)%nat -> pending (polls earlier)
  end.
Proof.
  induction remaining as [|remaining IH]; intros attempt; cbn [pollLoop].
  - left. split; [done|]. intros earlier Hearlier. lia.
  - destruct (polls attempt) as [raw| |thrown] eqn:Hpoll.
    + destruct (Z.eqb_spec (statusId raw) IN_QUEUE) as [Hqueue|Hqueue];
        [|destruct (Z.eqb_spec (statusId raw) PROCESSING) as [Hrun|Hrun]];
        cbn [negb andb].
      1, 2: specialize (IH (S attempt));
            assert (Hhere : pending (polls attempt))
              by (exists raw; split; [done|]; eauto);
            assert (Hext : forall last,
                      (forall earlier, (S attempt <= earlier < last)%nat ->
                                       pending (polls earlier)) ->
                      forall earlier, (attempt <= earlier < last)%nat ->
                                      pending (polls earlier))
              by (intros last Hall earlier Hearlier;
                  destruct (decide (earlier = attempt)) as [->|Hne];
                  [exact Hhere|apply Hall; lia]);
            destruct (pollLoop fromBase64 polls (S attempt) remaining)
              as [result|e|thrown];
            [ destruct IH as (last & raw' & Hlast & Hraw & H1 & H2 & Hresult & Hearlier);
              exists last, raw'; split; [lia|]; repeat (split; [done|]);
              by apply Hext
            | destruct IH as [[Hcode Hall]|(Hcode & last & Hlast & Hnot & Hall)];
              [ left; split; [done|];
                replace (attempt + S remaining)%nat with (S attempt + remaining)%nat
                  by lia; by apply Hext
              | right; split; [done|]; exists last; split; [lia|]; split; [done|];
                by apply Hext ]
            | destruct IH as (last & Hlast & Hthrew & Hall);
              exists last; split; [lia|]; split; [done|]; by apply Hext ].
      exists attempt, raw. split; [lia|]. repeat (split; [done|]).
      intros earlier Hearlier. lia.
    + right. split; [done|]. exists attempt. split; [lia|]. split; [done|].
      intros earlier Hearlier. lia.
    + exists attempt. split; [lia|]. split; [done|]. intros earlier Hearlier. lia.
Qed.

(** X24. After an accepted submission
    [submitAndWait] polls at most 30 times and stops at the first poll
    that is not an answer saying in queue or processing: it returns that
    answer's result with its three outputs decoded, or fails with
    [API_ERROR] when that response is not ok. It fails with
    [COMPILE_TIMEOUT] exactly when all 30 polls say in queue or
    processing, and with [RATE_LIMITED] exactly when the submission is
    refused with status 429. *)
Theorem judge0_submitAndWait_polls (submission : Judge0Submission) :
  match submitAndWait fromBase64 submit polls submission with
  | Finished result =>
      exists last raw,
        (last < 30)%nat
        /\ polls last = Polled raw
        /\ statusId result = statusId raw
        /\ statusId result <> IN_QUEUE /\ statusId result <> PROCESSING
        /\ resultStdout result = decoded fromBase64 (resultStdout raw)
        /\ resultStderr result = decoded fromBase64 (resultStderr raw)
        /\ compile_output result = decoded fromBase64 (compile_output raw)
        /\ forall earlier, (earlier < last)%nat -> pending (polls earlier)
  | Raise e =>
      (Validation.code e = Validation.RATE_LIMITED
       <-> exists errorText, submit submission = Refused 429 errorText)
      /\ (Validation.code e = Validation.COMPILE_TIMEOUT
          <-> (exists token, submit submission = Accepted token)
              /\ forall attempt, (attempt < 30)%nat -> pending (polls attempt))
      /\ (Validation.code e = Validation.RATE_LIMITED
          \/ Validation.code e = Validation.COMPILE_TIMEOUT
          \/ Validation.code e = Validation.API_ERROR)
  | RaiseOther thrown =>
      submit submission = SubmitThrew thrown
      \/ exists last,
           (last < 30)%nat /\ polls last = PollThrew thrown
           /\ forall earlier, (earlier < last)%nat -> pending (polls earlier)
  end.
Proof.
  unfold submitAndWait.
  destruct (submit submission) as [token|httpStatus errorText|thrown] eqn:Hsubmit.
  - pose proof (pollLoop_spec 30 0) as Hloop.
    destruct (pollLoop fromBase64 polls 0 30) as [result|e|thrown].
    + destruct Hloop as (last & raw & Hlast & Hraw & H1 & H2 & -> & Hearlier).
      exists last, raw. cbn [statusId resultStdout resultStderr compile_output].
      split; [lia|]. repeat (split; [done|]).
      intros earlier Hlt. apply Hearlier. lia.
    + destruct Hloop as [[Hcode Hall]|(Hcode & last & Hlast & Hnot & Hall)].
      * rewrite Hcode. split; [split; [done|by intros [? ?]]|].
        split; [|eauto]. split; [|done]. intros _. split; [eauto|].
        intros attempt Hlt. apply Hall. lia.
      * rewrite Hcode. split; [split; [done|by intros [? ?]]|].
        split; [|eauto]. split; [done|]. intros [_ Hall'].
        destruct (Hall' last ltac:(lia)) as (result & Hpolled & _). congruence.
    + destruct Hloop as (last & Hlast & Hthrew & Hall). right.
      exists last. split; [lia|]. split; [done|].
      intros earlier Hlt. apply Hall. lia.
  - destruct (Z.eqb_spec httpStatus 429) as [->|Hne]; cbn [Validation.code].
    + split; [split; [eauto|done]|]. split; [|eauto].
      split; [done|]. by intros [[? ?] _].
    + split; [split; [done|]|].
      * intros [text [= ? _]]. done.
      * split; [|eauto]. split; [done|]. by intros [[? ?] _].
  - by left.
Qed.

Lemma parseCompilerOutput_returns (output : jsstring) :
  is_Some (Judge0.parseCompilerOutput output).
Proof.
  unfold Judge0.parseCompilerOutput.
  destruct (Judge0Props.execLoop_gccMessage output) as [-> _].
  cbn [mbind option_bind]. destruct (_ && _); [|eauto]. destruct (includes _ _); eauto.
Qed.

Lemma submitAndWait_raises (submission : Judge0Submission) (e : Validation.CompilerError) :
  submitAndWait fromBase64 submit polls submission = Raise e ->
  (Validation.code e = Validation.RATE_LIMITED
   <-> exists errorText, submit submission = Refused 429 errorText)
  /\ (Validation.code e = Validation.RATE_LIMITED
      \/ Validation.code e = Validation.COMPILE_TIMEOUT
      \/ Validation.code e = Validation.API_ERROR).
Proof.
  unfold submitAndWait.
  destruct (submit submission) as [token|httpStatus errorText|thrown] eqn:Hsubmit.
  - pose proof (pollLoop_spec 30 0) as Hloop. intros Hwait.
    rewrite Hwait in Hloop.
    destruct Hloop as [[Hcode _]|[Hcode _]]; rewrite Hcode;
      (split; [split; [done|by intros [? ?]]|eauto]).
  - destruct (Z.eqb_spec httpStatus 429) as [->|Hne]; intros [= <-];
      cbn [Validation.code].
    + split; [split; eauto|eauto].
    + split; [split; [done|]|eauto]. intros [text [= ? _]]. done.
  - done.
Qed.

(** X25. The source [compile] submits always
    contains the text [int main]: it is the code of the request when that
    contains the text anywhere (also in a comment or inside a longer
    name), and the code followed by a line with an empty [main] otherwise.
    [compile] then returns or throws a [CompilerError]. What it returns
    reports the compilation as failed exactly for the verdict
    [COMPILATION_ERROR], carries the compile output as [stderr] and has no
    run result. What it throws is answered by the routes with status 429
    exactly when the submission was refused with status 429, and with
    status 500 otherwise; a thrown value that is not a [CompilerError] is
    wrapped as an [API_ERROR] whose message starts with
    [Compilation failed: ]. *)
Theorem judge0_compile_outcomes (request : ExecuteRequest) (startTime endTime : Z) :
  (exists source,
     source_code (compileSubmission CPP_STANDARD_FLAGS toBase64 providerTimeout request)
     = toBase64 source
     /\ includes source (lit "int main") = true
     /\ (includes (code request) (lit "int main") = true -> source = code request)
     /\ (includes (code request) (lit "int main") = false ->
         source = code request ++ lit (String "010" "int main() { return 0; }")))
  /\ match compile CPP_STANDARD_FLAGS toBase64 fromBase64 providerTimeout submit polls
             request startTime endTime with
     | Result compiled =>
         exists result,
           submitAndWait fromBase64 submit polls
             (compileSubmission CPP_STANDARD_FLAGS toBase64 providerTimeout request)
           = Finished result
           /\ (status compiled = error <-> statusId result = COMPILATION_ERROR)
           /\ (status compiled = success <-> statusId result <> COMPILATION_ERROR)
           /\ stderr compiled = orString (compile_output result) []
           /\ compileTimeMs compiled = endTime - startTime
           /\ runResult compiled = None
     | Throws e =>
         (Validation.statusOfCompilerError e = 429
          <-> exists errorText,
                submit (compileSubmission CPP_STANDARD_FLAGS toBase64 providerTimeout
                          request) = Refused 429 errorText)
         /\ (Validation.statusOfCompilerError e = 429
             \/ Validation.statusOfCompilerError e = 500)
         /\ forall thrown,
              submitAndWait fromBase64 submit polls
                (compileSubmission CPP_STANDARD_FLAGS toBase64 providerTimeout request)
              = RaiseOther thrown ->
              e = Validation.mkError ("Compilation failed: " +:+ messageOfThrown thrown)
                                     Validation.API_ERROR
     | Unfinished => False
     end.
Proof.
  split.
  { unfold compileSubmission. cbv zeta. cbn [source_code].
    destruct (includes (code request) (lit "int main")) eqn:Hmain; cbn [negb].
    - exists (code request). by split_and!.
    - eexists. split; [reflexivity|]. split_and!; try done.
      by apply WandboxProps.includes_app_r. }
  unfold compile.
  destruct (submitAndWait _ _ _ _) as [result|e|thrown] eqn:Hwait.
  - unfold parseCompileResult.
    destruct (parseCompilerOutput_returns (orString (compile_output result) []))
      as [parsed ->].
    cbn [mbind option_bind]. exists result. split; [done|].
    cbn [status stderr compileTimeMs runResult].
    unfold COMPILATION_ERROR.
    destruct (Z.eqb_spec (statusId result) 6); by split_and!.
  - destruct (submitAndWait_raises _ _ Hwait) as [Hrate Hcodes].
    unfold Validation.statusOfCompilerError.
    split_and!; [| |done].
    + rewrite <- Hrate. destruct Hcodes as [Hcode|[Hcode|Hcode]]; by rewrite Hcode.
    + destruct Hcodes as [Hcode|[Hcode|Hcode]]; rewrite Hcode; cbn; eauto.
  - unfold Validation.statusOfCompilerError. cbn [Validation.code].
    split_and!.
    + split; [done|]. intros [errorText Hsubmit].
      unfold submitAndWait in Hwait. rewrite Hsubmit in Hwait. done.
    + by right.
    + by intros ? [= <-].
Qed.

(** X26. For a result [submitAndWait] returns,
    [execute] reports the compilation as failed exactly for the verdict
    [COMPILATION_ERROR], and gives a run result exactly otherwise. The run
    is a timeout for [TIME_LIMIT_EXCEEDED], a runtime error for the six
    runtime verdicts, successful with exit code 0 for [ACCEPTED] and for
    [WRONG_ANSWER], and an error with exit code 1 for every other
    verdict. A compilation is reported as successful for every verdict
    other than [COMPILATION_ERROR], whatever the compile output holds. *)
Theorem judge0_execute_classifies (request : ExecuteRequest) (startTime endTime : Z)
    (result : Judge0Result) :
  submitAndWait fromBase64 submit polls
    (executeSubmission CPP_STANDARD_FLAGS toBase64 request) = Finished result ->
  exists executed,
    execute CPP_STANDARD_FLAGS toBase64 fromBase64 parseFloat fl submit polls
      request startTime endTime = Result executed
    /\ (status executed = error <-> statusId result = COMPILATION_ERROR)
    /\ (status executed = success <-> statusId result <> COMPILATION_ERROR)
    /\ exitCode executed = (if statusId result =? COMPILATION_ERROR then 1 else 0)
    /\ (runResult executed = None <-> statusId result = COMPILATION_ERROR)
    /\ forall run,
         runResult executed = Some run ->
         (runStatus run = timeout <-> statusId result = TIME_LIMIT_EXCEEDED)
         /\ (runStatus run = runtime_error
             <-> RUNTIME_ERROR_SIGSEGV <= statusId result <= RUNTIME_ERROR_OTHER)
         /\ (runStatus run = success
             <-> statusId result = ACCEPTED \/ statusId result = WRONG_ANSWER)
         /\ runExitCode run = (if bool_decide (runStatus run = success) then 0 else 1).
Proof.
  intros Hwait. unfold execute. rewrite Hwait. unfold parseCompileResult.
  destruct (parseCompilerOutput_returns (orString (compile_output result) []))
    as [parsed ->].
  cbn [mbind option_bind status exitCode stdout stderr compileTimeMs warnings errors].
  unfold COMPILATION_ERROR, TIME_LIMIT_EXCEEDED, RUNTIME_ERROR_SIGSEGV,
    RUNTIME_ERROR_OTHER, ACCEPTED, WRONG_ANSWER in *.
  destruct (Z.eqb_spec (statusId result) 6) as [Hsix|Hsix]; cbn [negb].
  - eexists. split; [reflexivity|].
    cbn [status exitCode runResult]. split_and!; try done.
  - eexists. split; [reflexivity|].
    cbn [status exitCode runResult]. split_and!; try done.
    intros run [= <-]. unfold parseRunResult.
    unfold COMPILATION_ERROR, TIME_LIMIT_EXCEEDED, RUNTIME_ERROR_SIGSEGV,
      RUNTIME_ERROR_OTHER, ACCEPTED, WRONG_ANSWER.
    cbn [runStatus runExitCode].
    destruct (Z.eqb_spec (statusId result) 5) as [Hfive|Hfive].
    { split_and!; try done; split; try done; lia. }
    destruct (Z.leb_spec 7 (statusId result)), (Z.leb_spec (statusId result) 12);
      cbn [andb];
      try (split_and!; try done; split; try done; lia);
      destruct (Z.eqb_spec (statusId result) 3), (Z.eqb_spec (statusId result) 4);
      cbn [negb andb]; split_and!; try done; split; try done; lia.
Qed.

End ProviderFacts.

Lemma judge0_execute_classifies_witness :
  exists executed,
    execute (fun _ => None) (fun s => s) (fun s => s) (fun _ => None) (fun x => x)
      sampleSubmit (samplePolls WRONG_ANSWER)
      (mkRequest (lit "int main() {}") Diff.cpp17 None None None None) 0 3000
    = Result executed
    /\ (status executed = error <-> WRONG_ANSWER = COMPILATION_ERROR)
    /\ (status executed = success <-> WRONG_ANSWER <> COMPILATION_ERROR)
    /\ exitCode executed = (if WRONG_ANSWER =? COMPILATION_ERROR then 1 else 0)
    /\ (runResult executed = None <-> WRONG_ANSWER = COMPILATION_ERROR)
    /\ forall run,
         runResult executed = Some run ->
         (runStatus run = timeout <-> WRONG_ANSWER = TIME_LIMIT_EXCEEDED)
         /\ (runStatus run = runtime_error
             <-> RUNTIME_ERROR_SIGSEGV <= WRONG_ANSWER <= RUNTIME_ERROR_OTHER)
         /\ (runStatus run = success
             <-> WRONG_ANSWER = ACCEPTED \/ WRONG_ANSWER = WRONG_ANSWER)
         /\ runExitCode run = (if bool_decide (runStatus run = success) then 0 else 1).
Proof.
  apply (judge0_execute_classifies (fun _ => None) (fun s => s) (fun s => s)
           (fun _ => None) (fun x => x) sampleSubmit (samplePolls WRONG_ANSWER)
           (mkRequest (lit "int main() {}") Diff.cpp17 None None None None) 0 3000
           (mkJudge0Result "token-1" None None None None WRONG_ANSWER None None)).
  reflexivity.
Defined.

End Judge0ProviderProps.

(* ===================================================================== *)
(** ** Properties of the code validator *)
(* ===================================================================== *)

Module ValidationProps.
Import JsString Regex Validation.

Lemma firstForbidden_Some_iff (patterns : list (regex * string)) (code : jsstring) :
  is_Some (firstForbidden patterns code)
  <-> Exists (fun pattern => test (fst pattern) code = true) patterns.
Proof.
  induction patterns as [|[pattern reason] patterns IH]; cbn [firstForbidden].
  - split; [intros [? [=]]|intros H; inversion H].
  - destruct (test pattern code) eqn:E.
    + split; [intros _; by left|eauto].
    + rewrite IH. split; [by right|].
      intros H. inversion H as [? ? Hhd|]; subst; [|done].
      cbn in Hhd. congruence.
Qed.

Lemma collectWarnings_filter (patterns : list (regex * string)) (code : jsstring) :
  forall acc : list string,
  foldl (fun warnings pw =>
           if test (fst pw) code then warnings ++ [snd pw] else warnings)
        acc patterns
  = acc ++ (snd <$> List.filter (fun pw => test (fst pw) code) patterns).
Proof.
  induction patterns as [|pw patterns IH]; intros acc; cbn [foldl List.filter].
  - cbn. by rewrite app_nil_r.
  - rewrite IH. destruct (test (fst pw) code); [|done].
    cbn [fmap list_fmap]. by rewrite <- app_assoc.
Qed.

Lemma trim_nil_iff (code : jsstring) :
  bool_decide (code = []) || bool_decide (length (trim code) = 0%nat) = true
  <-> emptyOrWhitespace code.
Proof.
  unfold emptyOrWhitespace. split.
  - intros [H|H]%orb_prop; apply bool_decide_eq_true_1 in H.
    + by subst.
    + by destruct (trim code).
  - intros H. rewrite H. cbn [length]. rewrite (bool_decide_eq_true_2 (0%nat = 0%nat)) by done.
    apply orb_true_r.
Qed.

(** What [validateCode] answers, case by case in the order of its checks. *)
Lemma validateCode_cases (code : jsstring) :
  (emptyOrWhitespace code /\
   validateCode code =
     mkValidation false (Some "Code cannot be empty") (Some VALIDATION_FAILED) [])
  \/ (~ emptyOrWhitespace code /\ tooLong code /\
      validateCode code =
        mkValidation false
          (Some ("Code exceeds maximum length of " +:+ pretty MAX_CODE_LENGTH
                 +:+ " characters"))
          (Some VALIDATION_FAILED) [])
  \/ (~ emptyOrWhitespace code /\ ~ tooLong code /\ matchesForbidden code /\
      exists reason,
        validateCode code =
          mkValidation false (Some reason) (Some FORBIDDEN_CODE) [])
  \/ (~ emptyOrWhitespace code /\ ~ tooLong code /\ ~ matchesForbidden code /\
      validateCode code = mkValidation true None None (styleWarnings code)).
Proof.
  unfold validateCode.
  destruct (bool_decide (code = []) || bool_decide (length (trim code) = 0%nat)) eqn:E.
  { left. split; [by apply trim_nil_iff|done]. }
  assert (Hne : ~ emptyOrWhitespace code).
  { intros H%trim_nil_iff. congruence. }
  right. unfold tooLong.
  destruct (Z.ltb_spec MAX_CODE_LENGTH (Z.of_nat (length code))) as [Hlong|Hshort].
  { left. done. }
  right.
  pose proof (firstForbidden_Some_iff FORBIDDEN_PATTERNS code) as Hforbidden.
  destruct (firstForbidden FORBIDDEN_PATTERNS code) as [reason|].
  - left. split; [done|]. split; [lia|]. split; [|eauto].
    apply Hforbidden. eauto.
  - right. split; [done|]. split; [lia|]. split.
    + intros H. apply Hforbidden in H as [? [=]].
    + unfold collectWarnings, styleWarnings. by rewrite collectWarnings_filter.
Qed.

(** C9. [prepareCode] throws exactly when the sanitized code is empty or
    white space only, is longer than 100000 characters, or matches a
    forbidden pattern. The error's code is [VALIDATION_FAILED] in the first
    two cases and [FORBIDDEN_CODE] when only the third holds (the checks are
    made in this order). Otherwise it returns the sanitized code with the
    warnings of the warning patterns it matches. The routes answer an error
    of either code with status 400. *)
Theorem prepareCode_raises_iff (code : jsstring) :
  let sanitized := sanitizeCode code in
  ((exists e, prepareCode code = inl e)
   <-> (emptyOrWhitespace sanitized \/ tooLong sanitized \/ matchesForbidden sanitized))
  /\ (forall e, prepareCode code = inl e ->
        ((emptyOrWhitespace sanitized \/ tooLong sanitized) ->
         Validation.code e = VALIDATION_FAILED)
        /\ (~ (emptyOrWhitespace sanitized \/ tooLong sanitized) ->
            Validation.code e = FORBIDDEN_CODE)
        /\ statusOfCompilerError e = 400
        /\ prepareInRoute code = inl 400)
  /\ (forall prepared, prepareCode code = inr prepared ->
        prepared = mkPrepared sanitized (styleWarnings sanitized)).
Proof.
  cbv zeta. unfold prepareInRoute, prepareCode.
  destruct (validateCode_cases (sanitizeCode code))
    as [(H1 & ->) | [(H1 & H2 & ->) | [(H1 & H2 & H3 & reason & ->)
        | (H1 & H2 & H3 & ->)]]]; cbn [valid negb error errorCode orElse default
                                      from_option warnings].
  - split; [split; eauto|]. split; [|done].
    intros e [= <-]. cbn. repeat split; tauto.
  - split; [split; eauto|]. split; [|done].
    intros e [= <-]. cbn. repeat split; tauto.
  - split; [split; eauto|]. split; [|done].
    intros e [= <-]. cbn [Validation.code]. unfold statusOfCompilerError.
    cbn [Validation.code]. repeat split; try tauto; done.
  - split; [|split; [done|by intros prepared [= <-]]].
    split; [intros [e [=]]|tauto].
Qed.

(** Forbidden and accepted sources, and the style warnings of one. *)
Example prepareCode_examples :
  List.map (fun source => thrownCode (prepareCode (lit source)))
    [ "int main() { system(_); }"; "if (fork () == 0) {}"; "popen(cmd, mode);";
      "execvp(a, b);"; "int s = socket(1, 2, 3);"; "__asm nop";
      "#include <fstream>"; "#include <filesystem>"; "#include <sys/stat.h>";
      "#include <unistd.h>"; "#include <windows.h>"; "   "; "int main() {}" ]
  = replicate 11 (Some FORBIDDEN_CODE) ++ [Some VALIDATION_FAILED; None]
  /\ prepareCode (lit "void *p = NULL; p = malloc(4); free(p); goto end;")
     = inr (mkPrepared
              (lit "void *p = NULL; p = malloc(4); free(p); goto end;")
              [ "Using goto statement - consider using structured control flow";
                "Using void pointer - consider using typed pointers or templates";
                "Using malloc - consider using new or smart pointers in modern C++";
                "Using free - consider using delete or smart pointers in modern C++";
                "Using NULL - consider using nullptr in modern C++" ]).
Proof. split; vm_compute; reflexivity. Qed.

(** *** Sanitized code *)

Lemma searchFrom_none_matchAll r (s : jsstring) :
  forall before, searchFrom r before s = None -> matchAllFrom r before s 0 = [].
Proof.
  induction s as [|c s IH]; intros before; cbn [searchFrom matchAllFrom].
  - by destruct (matchHere r before []).
  - destruct (matchHere r before (c :: s)); [done|]. apply IH.
Qed.

Lemma replaceCRLF_clean (s : jsstring) :
  Forall (fun c => c <> 13%N) s -> replaceCRLF s = s.
Proof.
  induction 1 as [|c s Hc Hs IH]; [done|]. cbn [replaceCRLF].
  destruct s as [|d s]; [done|].
  destruct (N.eqb_spec c 13); [done|]. cbn [andb]. by rewrite IH.
Qed.

Lemma replaceCR_clean (s : jsstring) :
  Forall (fun c => c <> 13%N) s -> replaceCR s = s.
Proof.
  induction 1 as [|c s Hc Hs IH]; [done|]. unfold replaceCR in *. cbn [List.map].
  destruct (N.eqb_spec c 13); [done|]. by rewrite IH.
Qed.

Lemma replaceCR_no_return (s : jsstring) : Forall (fun c => c <> 13%N) (replaceCR s).
Proof.
  unfold replaceCR. induction s as [|c s IH]; cbn [List.map]; [constructor|].
  constructor; [|exact IH]. by destruct (N.eqb_spec c 13).
Qed.

(** X27. The code [prepareCode] returns is
    the sanitized code: it holds no carriage return, is not blank, has at
    most 100000 code units and matches no forbidden pattern, and the
    warnings returned are those of the sanitized code. Sanitizing leaves a
    code as it is when it holds no carriage return and no line that starts
    with [#!]. *)
Theorem prepareCode_hands_over_clean_code (code : jsstring) :
  Forall (fun c => c <> 13%N) (sanitizeCode code)
  /\ (Forall (fun c => c <> 13%N) code -> test shebangLine code = false ->
      sanitizeCode code = code)
  /\ forall prepared,
       prepareCode code = inr prepared ->
       preparedCode prepared = sanitizeCode code
       /\ preparedWarnings prepared = styleWarnings (sanitizeCode code)
       /\ ~ emptyOrWhitespace (preparedCode prepared)
       /\ Z.of_nat (length (preparedCode prepared)) <= MAX_CODE_LENGTH
       /\ ~ matchesForbidden (preparedCode prepared).
Proof.
  split; [apply replaceCR_no_return|]. split.
  - intros Hclean Htest. unfold sanitizeCode, replaceAll.
    assert (Hnone : matchAll shebangLine code = []).
    { apply searchFrom_none_matchAll. unfold test, exec in Htest.
      apply bool_decide_eq_false_1 in Htest.
      destruct (searchFrom shebangLine [] code); [|done].
      exfalso. apply Htest. eauto. }
    rewrite Hnone. cbn [replaceFrom].
    by rewrite (replaceCRLF_clean _ Hclean), (replaceCR_clean _ Hclean).
  - intros prepared. unfold prepareCode.
    destruct (validateCode_cases (sanitizeCode code))
      as [[_ ->]|[(_ & _ & ->)|[(_ & _ & _ & reason & ->)|(Hne & Hlen & Hok & ->)]]];
      cbn [valid negb]; try done.
    intros [= <-]. cbn [preparedCode preparedWarnings warnings].
    unfold tooLong in Hlen. split_and!; try done. lia.
Qed.

(** *** The choice of the provider *)

(** X28. The default provider is never
    null, so that the status route always answers available. It is Judge0
    exactly when [COMPILER_PROVIDER] is [judge0] and [JUDGE0_API_KEY] is
    set and not empty, and Wandbox with a timeout of 30000 in every other
    case: also for a provider name for which [createCompilerProvider]
    throws, and for Judge0 without a key. *)
Theorem getDefaultCompilerProvider_never_null (env : gmap string string) :
  exists chosen,
    getDefaultCompilerProvider env = Some chosen
    /\ ((exists key,
           env !! "COMPILER_PROVIDER" = Some "judge0"
           /\ env !! "JUDGE0_API_KEY" = Some key /\ key <> ""
           /\ chosen = Judge0Provider key (env !! "JUDGE0_BASE_URL") None)
        \/ (~ (env !! "COMPILER_PROVIDER" = Some "judge0"
               /\ exists key, env !! "JUDGE0_API_KEY" = Some key /\ key <> "")
            /\ chosen = newWandboxProvider 30000))
    /\ forall name,
         env !! "COMPILER_PROVIDER" = Some name ->
         name <> "" ->
         match createCompilerProvider (mkConfig name (env !! "JUDGE0_API_KEY")
                                                (env !! "JUDGE0_BASE_URL") None) with
         | inl created => chosen = created
         | inr _ => chosen = newWandboxProvider 30000
         end.
Proof.
  unfold getDefaultCompilerProvider, createCompilerProvider, orElse. cbv zeta.
  cbn [provider apiKey baseUrl timeout].
  destruct (env !! "COMPILER_PROVIDER") as [name|] eqn:Hname.
  - destruct (decide (name = "")) as [->|Hne].
    { rewrite decide_True by done. eexists. split; [reflexivity|].
      split; [right; split; [by intros [[=] _]|done]|].
      intros name [= <-] Hne. done. }
    destruct (decide (name = "wandbox")) as [->|Hw].
    { eexists. split; [reflexivity|].
      split; [right; split; [by intros [[=] _]|done]|].
      by intros name [= <-] _. }
    destruct (decide (name = "judge0")) as [->|Hj].
    + destruct (env !! "JUDGE0_API_KEY") as [key|] eqn:Hkey.
      * destruct (decide (key = "")) as [->|Hk].
        -- eexists. split; [reflexivity|]. split.
           { right. split; [|done]. intros [_ (key & [= <-] & Hk)]. done. }
           by intros name [= <-] _.
        -- eexists. split; [reflexivity|]. split; [left; eauto 10|].
           by intros name [= <-] _.
      * eexists. split; [reflexivity|]. split.
        { right. split; [|done]. by intros [_ (key & [=] & _)]. }
        by intros name [= <-] _.
    + eexists. split; [reflexivity|]. split.
      { right. split; [|done]. intros [[= ->] _]. done. }
      intros name' [= <-] _. by repeat destruct (decide _).
  - rewrite decide_True by done. eexists. split; [reflexivity|].
    split; [right; split; [by intros [[=] _]|done]|]. by intros name [=].
Qed.

End ValidationProps.

(* ===================================================================== *)
(** ** Properties of the processing of uploaded files *)
(* ===================================================================== *)

Module UploadProps.
Import JobManager Upload.

(** *** One update of a file *)

Lemma findIndex_app {A : Type} (p : A -> bool) (l1 l2 : list A) (x : A) :
  Forall (fun y => p y = false) l1 -> p x = true ->
  findIndex p (l1 ++ x :: l2) = Some (length l1).
Proof.
  intros Hall Hx. induction Hall as [|y l1 Hy _ IH]; cbn [app findIndex length].
  - by rewrite Hx.
  - by rewrite Hy, IH.
Qed.

Lemma findIndex_first {A : Type} (p : A -> bool) (l : list A) (k : nat) :
  findIndex p l = Some k ->
  (exists x, l !! k = Some x /\ p x = true)
  /\ forall i y, (i < k)%nat -> l !! i = Some y -> p y = false.
Proof.
  revert k. induction l as [|x l IH]; intros k; cbn [findIndex]; [done|].
  destruct (p x) eqn:Hx.
  - intros [= <-]. split; [by exists x|]. intros i y Hi. lia.
  - destruct (findIndex p l) as [k'|]; [|done]. intros [= <-].
    destruct (IH k' eq_refl) as [Hat Hbefore]. split; [exact Hat|].
    intros [|i] y Hi; cbn [lookup list_lookup].
    + by intros [= <-].
    + apply Hbefore. lia.
Qed.

Lemma findIndex_none {A : Type} (p : A -> bool) (l : list A) :
  findIndex p l = None -> Forall (fun y => p y = false) l.
Proof.
  induction l as [|x l IH]; cbn [findIndex]; [constructor|].
  destruct (p x) eqn:Hx; [done|].
  destruct (findIndex p l); [done|]. intros _. constructor; [done|by apply IH].
Qed.

(** The job after an update of the file that follows [before], when no
    entry of [before] has its name. *)
Lemma updateFileStatus_at (jobs : gmap string UploadJob) jobId job update now
    (before after : list FileResult) (file : FileResult) :
  jobs !! jobId = Some job ->
  files job = before ++ file :: after ->
  Forall (fun f => filename f <> filename file) before ->
  exists job',
    updateFileStatus jobId (filename file) update now jobs = <[jobId := job']> jobs
    /\ files job' = before ++ assign file update :: after
    /\ totalFiles job' = totalFiles job
    /\ processedFiles job' = length (List.filter isProcessed (files job')).
Proof.
  intros Hjob Hfiles Hbefore. unfold updateFileStatus. rewrite Hjob, Hfiles.
  rewrite (findIndex_app _ before after file).
  - eexists. split; [reflexivity|]. cbn [files totalFiles processedFiles].
    assert (Halter : alter (fun f => assign f update) (length before)
                       (before ++ file :: after)
                     = before ++ assign file update :: after).
    { rewrite alter_app_r_alt by lia. by rewrite Nat.sub_diag. }
    rewrite Halter. done.
  - eapply Forall_impl; [exact Hbefore|]. intros f Hf. cbn beta.
    by apply bool_decide_eq_false_2.
  - by apply bool_decide_eq_true_2.
Qed.

(** *** Files with distinct names *)

Lemma processEach_distinct jobId (clock : nat -> Z) (todo : list UploadedFile) :
  forall tick (jobs : gmap string UploadJob) job (done' : list FileResult),
  jobs !! jobId = Some job ->
  files job = done' ++ List.map (fun file => pendingFile (name file)) todo ->
  NoDup (List.map name todo) ->
  Forall (fun f => filename f ∉ List.map name todo) done' ->
  processedFiles job = length (List.filter isProcessed (files job)) ->
  exists job',
    fst (processEach jobId todo clock tick jobs) !! jobId = Some job'
    /\ files job' = done' ++ List.map (settledFile true) todo
    /\ totalFiles job' = totalFiles job
    /\ processedFiles job' = length (List.filter isProcessed (files job')).
Proof.
  induction todo as [|file rest IH]; intros tick jobs job done' Hjob Hfiles Hnodup
    Hdone Hproc; cbn [processEach List.map] in *.
  - exists job. cbn [fst]. done.
  - apply NoDup_cons in Hnodup as [Hfresh Hnodup].
    assert (Hbefore : Forall (fun f => filename f <> filename (pendingFile (name file)))
                             done').
    { eapply Forall_impl; [exact Hdone|]. intros f Hf Heq. cbn beta in Hf.
      apply Hf. cbn [pendingFile filename] in Heq. rewrite Heq. apply elem_of_cons.
      by left. }
    destruct (updateFileStatus_at jobs jobId job
                (mkUpdate None (Some processing) None None None None) (clock tick)
                done' (List.map (fun file => pendingFile (name file)) rest)
                (pendingFile (name file)) Hjob Hfiles Hbefore)
      as (job1 & Hrun1 & Hfiles1 & Htotal1 & Hproc1).
    cbn [pendingFile filename] in Hrun1. rewrite Hrun1.
    set (file1 := assign (pendingFile (name file))
                    (mkUpdate None (Some processing) None None None None)) in *.
    assert (Hbefore1 : Forall (fun f => filename f <> filename file1) done') by done.
    destruct (updateFileStatus_at (<[jobId := job1]> jobs) jobId job1
                (settledUpdate (ingestion file)) (clock (S tick))
                done' (List.map (fun file => pendingFile (name file)) rest)
                file1 (lookup_insert_eq _ _ _) Hfiles1 Hbefore1)
      as (job2 & Hrun2 & Hfiles2 & Htotal2 & Hproc2).
    change (filename file1) with (name file) in Hrun2. rewrite Hrun2.
    destruct (IH (S (S tick)) (<[jobId := job2]> (<[jobId := job1]> jobs)) job2
                (done' ++ [settledFile true file])) as (job' & Hrun & Hfiles' & Htotal' & Hproc').
    + apply lookup_insert_eq.
    + rewrite Hfiles2, <- app_assoc. cbn [app]. f_equal. f_equal.
      unfold file1, settledFile, assign, pendingFile, settledUpdate.
      by destruct (ingestion file).
    + exact Hnodup.
    + apply Forall_app. split.
      * eapply Forall_impl; [exact Hdone|]. intros f Hf Hin. cbn beta in Hf.
        apply Hf. apply elem_of_cons. by right.
      * constructor; [|constructor].
        assert (Hname : filename (settledFile true file) = name file)
          by (unfold settledFile; by destruct (ingestion file)).
        by rewrite Hname.
    + exact Hproc2.
    + exists job'. split; [exact Hrun|]. split.
      * rewrite Hfiles', <- app_assoc. reflexivity.
      * split; [congruence|exact Hproc'].
Qed.

Lemma failEach_distinct jobId (clock : nat -> Z) (todo : list UploadedFile) :
  forall tick (jobs : gmap string UploadJob) job (done' : list FileResult),
  jobs !! jobId = Some job ->
  files job = done' ++ List.map (fun file => pendingFile (name file)) todo ->
  NoDup (List.map name todo) ->
  Forall (fun f => filename f ∉ List.map name todo) done' ->
  processedFiles job = length (List.filter isProcessed (files job)) ->
  exists job',
    fst (failEach jobId todo clock tick jobs) !! jobId = Some job'
    /\ files job' = done' ++ List.map (settledFile false) todo
    /\ totalFiles job' = totalFiles job
    /\ processedFiles job' = length (List.filter isProcessed (files job')).
Proof.
  induction todo as [|file rest IH]; intros tick jobs job done' Hjob Hfiles Hnodup
    Hdone Hproc; cbn [failEach List.map] in *.
  - exists job. cbn [fst]. done.
  - apply NoDup_cons in Hnodup as [Hfresh Hnodup].
    assert (Hbefore : Forall (fun f => filename f <> filename (pendingFile (name file)))
                             done').
    { eapply Forall_impl; [exact Hdone|]. intros f Hf Heq. cbn beta in Hf.
      apply Hf. cbn [pendingFile filename] in Heq. rewrite Heq. apply elem_of_cons.
      by left. }
    destruct (updateFileStatus_at jobs jobId job
                (mkUpdate None (Some failed) None None None
                          (Some "Failed to initialize processor")) (clock tick)
                done' (List.map (fun file => pendingFile (name file)) rest)
                (pendingFile (name file)) Hjob Hfiles Hbefore)
      as (job1 & Hrun1 & Hfiles1 & Htotal1 & Hproc1).
    cbn [pendingFile filename] in Hrun1. rewrite Hrun1.
    destruct (IH (S tick) (<[jobId := job1]> jobs) job1
                (done' ++ [settledFile false file])) as (job' & Hrun & Hfiles' & Htotal' & Hproc').
    + apply lookup_insert_eq.
    + rewrite Hfiles1, <- app_assoc. reflexivity.
    + exact Hnodup.
    + apply Forall_app. split.
      * eapply Forall_impl; [exact Hdone|]. intros f Hf Hin. cbn beta in Hf.
        apply Hf. apply elem_of_cons. by right.
      * constructor; [|constructor]. exact Hfresh.
    + exact Hproc1.
    + exists job'. split; [exact Hrun|]. split.
      * rewrite Hfiles', <- app_assoc. reflexivity.
      * split; [congruence|exact Hproc'].
Qed.

Lemma settledFile_processed ready file : isProcessed (settledFile ready file) = true.
Proof. unfold settledFile. destruct ready; [destruct (ingestion file)|]; done. Qed.

Lemma filter_all {A : Type} (p : A -> bool) (l : list A) :
  Forall (fun x => p x = true) l -> List.filter p l = l.
Proof.
  induction 1 as [|x l Hx _ IH]; [done|]. cbn [List.filter]. by rewrite Hx, IH.
Qed.

(** X29. When the files of a
    freshly created job have distinct names, processing them leaves every
    file completed with the result of its ingestion, or failed with the
    message of its error, in the order of the upload; every file is counted
    as processed and the job is completed, also when files failed. When the
    processor cannot be initialized, every file is failed with that message
    and the job is failed. *)
Theorem processFilesInBackground_settles_every_file
    (jobs : gmap string UploadJob) jobId now language version
    (uploads : list UploadedFile) (processorReady : bool) (clock : nat -> Z) :
  NoDup (List.map name uploads) ->
  exists job,
    getJob jobId
      (processFilesInBackground jobId uploads processorReady clock
         (fst (createJob jobId now language version (List.map name uploads) jobs)))
    = Some job
    /\ files job = List.map (settledFile processorReady) uploads
    /\ totalFiles job = length uploads
    /\ processedFiles job = length uploads
    /\ jobStatus job = (if processorReady then completed else failed).
Proof.
  intros Hnodup. unfold processFilesInBackground, getJob, createJob. cbn [fst].
  rewrite lookup_insert_eq.
  set (created := mkJob jobId language version pending _ _ _ _ _).
  assert (Hstart :
            updateJobStatus jobId processing (clock 0%nat) (<[jobId := created]> jobs)
            = <[jobId := mkJob jobId language version processing
                           (totalFiles created) 0 (files created) now (clock 0%nat)]>
                (<[jobId := created]> jobs)).
  { unfold updateJobStatus. by rewrite lookup_insert_eq. }
  rewrite Hstart. clear Hstart.
  set (job0 := mkJob jobId language version processing _ _ _ _ _).
  set (jobs0 := <[jobId := job0]> _).
  assert (Hjob0 : jobs0 !! jobId = Some job0) by apply lookup_insert_eq.
  assert (Hfiles0 : files job0
                    = [] ++ List.map (fun file => pendingFile (name file)) uploads).
  { cbn [app]. unfold job0, created. cbn [files]. by rewrite List.map_map. }
  assert (Hproc0 : processedFiles job0 = length (List.filter isProcessed (files job0))).
  { rewrite Hfiles0. cbn [app]. unfold job0. cbn [processedFiles]. clear.
    generalize uploads. clear. intros uploads.
    induction uploads as [|u us IH]; [done|]. cbn [List.map List.filter].
    unfold isProcessed at 1. cbn. exact IH. }
  assert (Hcount : forall ready,
            length (List.filter isProcessed (List.map (settledFile ready) uploads))
            = length uploads).
  { intros ready. rewrite filter_all, List.length_map; [done|].
    apply Forall_forall. intros f Hin%list_elem_of_In.
    apply List.in_map_iff in Hin as (u & <- & _). apply settledFile_processed. }
  destruct processorReady.
  - destruct (processEach_distinct jobId clock uploads 1 jobs0 job0 [] Hjob0 Hfiles0
                Hnodup ltac:(constructor) Hproc0)
      as (job' & Hrun & Hfiles' & Htotal' & Hproc').
    destruct (processEach jobId uploads clock 1 jobs0) as [jobs1 tick].
    cbn [fst] in Hrun. unfold updateJobStatus. rewrite Hrun, lookup_insert_eq.
    eexists. split; [reflexivity|]. cbn [files totalFiles processedFiles jobStatus].
    cbn [app] in Hfiles'. rewrite Hproc', Htotal', Hfiles', Hcount.
    unfold job0, created. cbn [totalFiles]. by rewrite List.length_map.
  - destruct (failEach_distinct jobId clock uploads 1 jobs0 job0 [] Hjob0 Hfiles0
                Hnodup ltac:(constructor) Hproc0)
      as (job' & Hrun & Hfiles' & Htotal' & Hproc').
    destruct (failEach jobId uploads clock 1 jobs0) as [jobs1 tick].
    cbn [fst] in Hrun. unfold updateJobStatus. rewrite Hrun, lookup_insert_eq.
    eexists. split; [reflexivity|]. cbn [files totalFiles processedFiles jobStatus].
    cbn [app] in Hfiles'. rewrite Hproc', Htotal', Hfiles', Hcount.
    unfold job0, created. cbn [totalFiles]. by rewrite List.length_map.
Qed.

Lemma processFilesInBackground_settles_every_file_witness :
  exists job,
    getJob "job-1"
      (processFilesInBackground "job-1"
         [mkUpload "a.md" (Ingested "doc-1" 3 1200);
            mkUpload "b.pdf" (Failed "Failed to parse PDF: bad XRef")]
         true (fun tick => Z.of_nat tick)
         (fst (createJob "job-1" 0 "cpp" "cpp17"
                 (List.map name
                    [mkUpload "a.md" (Ingested "doc-1" 3 1200);
            mkUpload "b.pdf" (Failed "Failed to parse PDF: bad XRef")])
                 ∅)))
    = Some job
    /\ files job
       = List.map (settledFile true)
           [mkUpload "a.md" (Ingested "doc-1" 3 1200);
            mkUpload "b.pdf" (Failed "Failed to parse PDF: bad XRef")]
    /\ totalFiles job
       = length [mkUpload "a.md" (Ingested "doc-1" 3 1200);
            mkUpload "b.pdf" (Failed "Failed to parse PDF: bad XRef")]
    /\ processedFiles job
       = length [mkUpload "a.md" (Ingested "doc-1" 3 1200);
            mkUpload "b.pdf" (Failed "Failed to parse PDF: bad XRef")]
    /\ jobStatus job = (if true then completed else failed).
Proof.
  apply (processFilesInBackground_settles_every_file ∅ "job-1" 0 "cpp" "cpp17"
           [mkUpload "a.md" (Ingested "doc-1" 3 1200);
            mkUpload "b.pdf" (Failed "Failed to parse PDF: bad XRef")] true
           (fun tick => Z.of_nat tick)).
  apply (bool_decide_unpack _). vm_compute. reflexivity.
Defined.

(** *** Files that share a name *)

Lemma filter_length_lt {A : Type} (p : A -> bool) (l : list A) (i : nat) (x : A) :
  l !! i = Some x -> p x = false -> (length (List.filter p l) < length l)%nat.
Proof.
  revert i. induction l as [|y l IH]; intros [|i]; cbn [lookup list_lookup]; try done.
  - intros [= ->] Hx. cbn [List.filter length]. rewrite Hx.
    pose proof (JobManagerProps.filter_length_le p l). lia.
  - intros Hi Hx. cbn [List.filter length].
    specialize (IH i Hi Hx). destruct (p y); cbn [length]; lia.
Qed.

Lemma updateFileStatus_keeps_later (jobs : gmap string UploadJob) jobId job
    fname update now (names : list string) (earlier later : nat) (n : string) :
  (earlier < later)%nat -> names !! earlier = Some n ->
  newFilename update = None ->
  jobs !! jobId = Some job ->
  laterEntryPending names later n job ->
  exists job',
    updateFileStatus jobId fname update now jobs !! jobId = Some job'
    /\ laterEntryPending names later n job'
    /\ totalFiles job' = totalFiles job.
Proof.
  intros Hlt Hearlier Hupdate Hjob (Hnames & Hlater & Hlen & Hproc).
  unfold updateFileStatus. rewrite Hjob.
  destruct (findIndex _ (files job)) as [k|] eqn:Hfind.
  - rewrite lookup_insert_eq. eexists. split; [reflexivity|].
    split; [|reflexivity]. unfold laterEntryPending.
    cbn [files totalFiles processedFiles].
    apply findIndex_first in Hfind as [(file & Hk & Hfile) Hbefore].
    apply bool_decide_eq_true_1 in Hfile.
    assert (Hne : k <> later).
    { intros ->. rewrite Hlater in Hk. injection Hk as <-.
      cbn [pendingFile filename] in Hfile. subst fname.
      assert (Hat : files job !! earlier
                    = Some (default (pendingFile n) (files job !! earlier))
                    /\ filename (default (pendingFile n) (files job !! earlier)) = n).
      { rewrite <- Hnames in Hearlier. rewrite list_lookup_fmap in Hearlier.
        destruct (files job !! earlier) as [f|]; [|done].
        cbn in Hearlier. injection Hearlier as Hf. done. }
      destruct Hat as [Hat Hname].
      specialize (Hbefore _ _ Hlt Hat). cbn beta in Hbefore.
      apply bool_decide_eq_false_1 in Hbefore. done. }
    split_and!.
    + rewrite <- Hnames. apply list_eq. intros idx.
      rewrite !list_lookup_fmap.
      destruct (decide (idx = k)) as [->|Hidx].
      * rewrite list_lookup_alter_eq, Hk. cbn. f_equal.
        unfold assign. cbn [filename]. by rewrite Hupdate.
      * by rewrite list_lookup_alter_ne.
    + by rewrite list_lookup_alter_ne.
    + by rewrite length_alter.
    + reflexivity.
  - rewrite Hjob. by exists job.
Qed.

Lemma processEach_keeps_later jobId (clock : nat -> Z) (names : list string)
    (earlier later : nat) (n : string) (todo : list UploadedFile) :
  (earlier < later)%nat -> names !! earlier = Some n ->
  forall tick (jobs : gmap string UploadJob) job,
  jobs !! jobId = Some job ->
  laterEntryPending names later n job ->
  exists job',
    fst (processEach jobId todo clock tick jobs) !! jobId = Some job'
    /\ laterEntryPending names later n job'
    /\ totalFiles job' = totalFiles job.
Proof.
  intros Hlt Hearlier.
  induction todo as [|file rest IH]; intros tick jobs job Hjob Hkeep;
    cbn [processEach].
  - by exists job.
  - destruct (updateFileStatus_keeps_later jobs jobId job (name file)
                (mkUpdate None (Some processing) None None None None) (clock tick)
                names earlier later n Hlt Hearlier eq_refl Hjob Hkeep)
      as (job1 & Hjob1 & Hkeep1 & Htotal1).
    destruct (updateFileStatus_keeps_later _ jobId job1 (name file)
                (settledUpdate (ingestion file)) (clock (S tick))
                names earlier later n Hlt Hearlier
                ltac:(by destruct (ingestion file)) Hjob1 Hkeep1)
      as (job2 & Hjob2 & Hkeep2 & Htotal2).
    destruct (IH (S (S tick)) _ job2 Hjob2 Hkeep2) as (job' & Hrun & Hkeep' & Htotal').
    exists job'. split; [exact Hrun|]. split; [exact Hkeep'|congruence].
Qed.

Lemma failEach_keeps_later jobId (clock : nat -> Z) (names : list string)
    (earlier later : nat) (n : string) (todo : list UploadedFile) :
  (earlier < later)%nat -> names !! earlier = Some n ->
  forall tick (jobs : gmap string UploadJob) job,
  jobs !! jobId = Some job ->
  laterEntryPending names later n job ->
  exists job',
    fst (failEach jobId todo clock tick jobs) !! jobId = Some job'
    /\ laterEntryPending names later n job'
    /\ totalFiles job' = totalFiles job.
Proof.
  intros Hlt Hearlier.
  induction todo as [|file rest IH]; intros tick jobs job Hjob Hkeep;
    cbn [failEach].
  - by exists job.
  - destruct (updateFileStatus_keeps_later jobs jobId job (name file)
                (mkUpdate None (Some failed) None None None
                          (Some "Failed to initialize processor")) (clock tick)
                names earlier later n Hlt Hearlier eq_refl Hjob Hkeep)
      as (job1 & Hjob1 & Hkeep1 & Htotal1).
    destruct (IH (S tick) _ job1 Hjob1 Hkeep1) as (job' & Hrun & Hkeep' & Htotal').
    exists job'. split; [exact Hrun|]. split; [exact Hkeep'|congruence].
Qed.

(** X30. When two files of a
    freshly created job have the same name, every update goes to the entry
    of the first: the entry of the later file stays pending as [createJob]
    made it, fewer files are counted as processed than the job has, and the
    job still ends completed (failed when the processor cannot be
    initialized). *)
Theorem processFilesInBackground_skips_duplicate_names
    (jobs : gmap string UploadJob) jobId now language version
    (uploads : list UploadedFile) (processorReady : bool) (clock : nat -> Z)
    (earlier later : nat) (n : string) :
  (earlier < later)%nat ->
  List.map name uploads !! earlier = Some n ->
  List.map name uploads !! later = Some n ->
  exists job,
    getJob jobId
      (processFilesInBackground jobId uploads processorReady clock
         (fst (createJob jobId now language version (List.map name uploads) jobs)))
    = Some job
    /\ files job !! later = Some (pendingFile n)
    /\ (processedFiles job < totalFiles job)%nat
    /\ jobStatus job = (if processorReady then completed else failed).
Proof.
  intros Hlt Hearlier Hlater.
  unfold processFilesInBackground, getJob, createJob. cbn [fst].
  rewrite lookup_insert_eq.
  set (created := mkJob jobId language version pending _ _ _ _ _).
  assert (Hstart :
            updateJobStatus jobId processing (clock 0%nat) (<[jobId := created]> jobs)
            = <[jobId := mkJob jobId language version processing
                           (totalFiles created) 0 (files created) now (clock 0%nat)]>
                (<[jobId := created]> jobs)).
  { unfold updateJobStatus. by rewrite lookup_insert_eq. }
  rewrite Hstart. clear Hstart.
  set (job0 := mkJob jobId language version processing _ _ _ _ _).
  set (jobs0 := <[jobId := job0]> _).
  assert (Hjob0 : jobs0 !! jobId = Some job0) by apply lookup_insert_eq.
  assert (Hkeep0 : laterEntryPending (List.map name uploads) later n job0).
  { unfold laterEntryPending, job0, created. cbn [files totalFiles processedFiles].
    split_and!.
    - rewrite List.map_map. cbn [filename]. apply List.map_id.
    - change (List.map ?f ?l) with (f <$> l). rewrite list_lookup_fmap.
      change (name <$> uploads) with (List.map name uploads). by rewrite Hlater.
    - apply List.length_map.
    - generalize (List.map name uploads). intros l.
      induction l as [|x l IH]; [done|]. cbn [List.map List.filter].
      unfold isProcessed at 1. cbn. exact IH. }
  assert (Hend : forall (jobs1 : gmap string UploadJob) job' st time,
            jobs1 !! jobId = Some job' ->
            laterEntryPending (List.map name uploads) later n job' ->
            exists job,
              updateJobStatus jobId st time jobs1 !! jobId = Some job
              /\ files job !! later = Some (pendingFile n)
              /\ (processedFiles job < totalFiles job)%nat
              /\ jobStatus job = st).
  { intros jobs1 job' st time Hjob' (_ & Hpending & Hlen & Hproc).
    unfold updateJobStatus. rewrite Hjob', lookup_insert_eq.
    eexists. split; [reflexivity|]. cbn [files processedFiles totalFiles jobStatus].
    split; [done|]. split; [|done]. rewrite Hproc, <- Hlen.
    by apply (filter_length_lt isProcessed _ later (pendingFile n)). }
  destruct processorReady.
  - destruct (processEach_keeps_later jobId clock _ earlier later n uploads
                Hlt Hearlier 1%nat jobs0 job0 Hjob0 Hkeep0)
      as (job' & Hrun & Hkeep' & _).
    destruct (processEach jobId uploads clock 1 jobs0) as [jobs1 tick].
    by apply (Hend jobs1 job').
  - destruct (failEach_keeps_later jobId clock _ earlier later n uploads
                Hlt Hearlier 1%nat jobs0 job0 Hjob0 Hkeep0)
      as (job' & Hrun & Hkeep' & _).
    destruct (failEach jobId uploads clock 1 jobs0) as [jobs1 tick].
    by apply (Hend jobs1 job').
Qed.

Lemma processFilesInBackground_skips_duplicate_names_witness :
  exists job,
    getJob "job-1"
      (processFilesInBackground "job-1"
         [mkUpload "notes.md" (Ingested "doc-1" 1 40);
            mkUpload "notes.md" (Ingested "doc-2" 2 900)]
         true (fun tick => Z.of_nat tick)
         (fst (createJob "job-1" 0 "cpp" "cpp17"
                 (List.map name
                    [mkUpload "notes.md" (Ingested "doc-1" 1 40);
            mkUpload "notes.md" (Ingested "doc-2" 2 900)])
                 ∅)))
    = Some job
    /\ files job !! 1%nat = Some (pendingFile "notes.md")
    /\ (processedFiles job < totalFiles job)%nat
    /\ jobStatus job = (if true then completed else failed).
Proof.
  apply (processFilesInBackground_skips_duplicate_names ∅ "job-1" 0 "cpp" "cpp17"
           [mkUpload "notes.md" (Ingested "doc-1" 1 40);
            mkUpload "notes.md" (Ingested "doc-2" 2 900)] true
           (fun tick => Z.of_nat tick) 0 1 "notes.md").
  - lia.
  - reflexivity.
  - reflexivity.
Defined.

End UploadProps.
